(** * github-tag-action: the version resolution engine of [src/utils.ts] and
      [src/main.ts], embedded shallowly and checked against its specification.

    Layout: the JavaScript string operations the code relies on, the regular
    expressions it builds (a backtracking matcher over the fragment of the
    pattern syntax that the action uses), the [semver] package, the functions
    of [utils.ts], the body of [main], and then the theorems. *)

From Stdlib Require Import ZArith List Ascii String Bool Arith Lia Permutation.
From Stdlib Require Import DecimalString DecimalPos DecimalN.
Import ListNotations.

Local Open Scope string_scope.
Local Open Scope nat_scope.
Local Open Scope list_scope.

(** JavaScript strings are sequences of code units; the model takes the code
    units below 256, as a list, so that the list lemmas apply. A literal
    ["v1.2.3"] is read as such a list. *)
Definition str := list ascii.

Definition lit (s : string) : str := list_ascii_of_string s.
Coercion lit : string >-> str.

(* ================================================================== *)
(** ** Strings: the methods of [String.prototype] used by the action *)
(* ================================================================== *)

Module JsString.

Definition eqb (a b : str) : bool :=
  if list_eq_dec ascii_dec a b then true else false.

(** [s.startsWith(p)] *)
Fixpoint startsWith (p s : str) : bool :=
  match p, s with
  | [], _ => true
  | c :: p', d :: s' => Ascii.eqb c d && startsWith p' s'
  | _ :: _, [] => false
  end.

(** [s.includes(p)] *)
Fixpoint includes (p s : str) : bool :=
  startsWith p s ||
  match s with
  | [] => false
  | _ :: s' => includes p s'
  end.

(** [s.replace(p, r)] with a string pattern: the first occurrence only. *)
Fixpoint replace (p r s : str) : str :=
  if startsWith p s then r ++ skipn (List.length p) s
  else match s with
       | [] => []
       | c :: s' => c :: replace p r s'
       end.

(** [s.split(c)] for a one-character separator: always at least one piece. *)
Fixpoint split (c : ascii) (s : str) : list str :=
  match s with
  | [] => [[]]
  | d :: s' =>
      if Ascii.eqb d c then [] :: split c s'
      else match split c s' with
           | [] => [[d]]
           | w :: ws => (d :: w) :: ws
           end
  end.

(** [a.join(sep)] *)
Fixpoint join (sep : str) (l : list str) : str :=
  match l with
  | [] => []
  | [w] => w
  | w :: ws => w ++ sep ++ join sep ws
  end.

Definition is_digit (c : ascii) : bool :=
  let n := nat_of_ascii c in (48 <=? n) && (n <=? 57).

Definition is_alpha (c : ascii) : bool :=
  let n := nat_of_ascii c in
  ((65 <=? n) && (n <=? 90)) || ((97 <=? n) && (n <=? 122)).

(** Line terminators among the code units below 256: LF and CR. *)
Definition is_line_terminator (c : ascii) : bool :=
  let n := nat_of_ascii c in (n =? 10) || (n =? 13).

(** White space among the code units below 256. *)
Definition is_space (c : ascii) : bool :=
  let n := nat_of_ascii c in
  ((9 <=? n) && (n <=? 13)) || (n =? 32) || (n =? 160).

Definition toLowerCase_char (c : ascii) : ascii :=
  let n := nat_of_ascii c in
  if (65 <=? n) && (n <=? 90) then ascii_of_nat (n + 32) else c.

(** Truthiness of a string: the empty string is the only falsy one. *)
Definition truthy (s : str) : bool :=
  match s with [] => false | _ => true end.

(** [s.toLowerCase()] on the code units below 256: the letters [A] to [Z]
    and the capital letters of Latin-1, the multiplication sign apart. *)
Definition toLowerCase (s : str) : str :=
  map (fun c =>
         let n := nat_of_ascii c in
         if ((65 <=? n) && (n <=? 90))
            || ((192 <=? n) && (n <=? 222) && negb (n =? 215))
         then ascii_of_nat (n + 32) else c)
      s.

End JsString.

(* ================================================================== *)
(** ** Regular expressions *)
(* ================================================================== *)

Module RegExp.

(** The members of a character class [[...]]: a character, a range, or a
    class escape. *)
Inductive member : Type :=
| MChar (c : ascii)
| MRange (lo hi : ascii)
| MDigit (positive : bool)
| MWord (positive : bool)
| MSpace (positive : bool).

(** Character sets: [.], a literal, the class escapes, and a character
    class, which is negated when it starts with [^]. *)
Inductive cset : Type :=
| CsAny
| CsChar (c : ascii)
| CsDigit (positive : bool)
| CsWord (positive : bool)
| CsSpace (positive : bool)
| CsClass (positive : bool) (members : list member).

Definition is_word (c : ascii) : bool :=
  JsString.is_digit c || JsString.is_alpha c || (nat_of_ascii c =? 95).

Definition member_accepts (m : member) (c : ascii) : bool :=
  match m with
  | MChar d => Ascii.eqb d c
  | MRange lo hi =>
      (nat_of_ascii lo <=? nat_of_ascii c) && (nat_of_ascii c <=? nat_of_ascii hi)
  | MDigit b => Bool.eqb b (JsString.is_digit c)
  | MWord b => Bool.eqb b (is_word c)
  | MSpace b => Bool.eqb b (JsString.is_space c)
  end.

Definition accepts (cs : cset) (c : ascii) : bool :=
  match cs with
  | CsAny => negb (JsString.is_line_terminator c)
  | CsChar d => Ascii.eqb d c
  | CsDigit b => Bool.eqb b (JsString.is_digit c)
  | CsWord b => Bool.eqb b (is_word c)
  | CsSpace b => Bool.eqb b (JsString.is_space c)
  | CsClass b ms => Bool.eqb b (existsb (fun m => member_accepts m c) ms)
  end.

(** Patterns. [Star] and [Opt] are the quantifiers [*] and [?], greedy or
    lazy; [r+] is [Seq r (Star g r)]; [Group n r] is the [n]-th capturing
    group. *)
Inductive regex : Type :=
| Eps
| Chars (cs : cset)
| Bol
| Eol
| Seq (r1 r2 : regex)
| Alt (r1 r2 : regex)
| Star (greedy : bool) (r : regex)
| Opt (greedy : bool) (r : regex)
| Group (n : nat) (r : regex).

Fixpoint groups_in (r : regex) : list nat :=
  match r with
  | Eps | Chars _ | Bol | Eol => []
  | Seq r1 r2 | Alt r1 r2 => groups_in r1 ++ groups_in r2
  | Star _ r1 | Opt _ r1 => groups_in r1
  | Group n r1 => n :: groups_in r1
  end.

(** *** Reading a pattern string

    The fragment: literal characters, [.], [^], [$], the escapes [\d \w \s]
    and their complements, an escaped punctuation character, character
    classes [[...]] and [[^...]] with ranges and these escapes, groups
    [( )] and [(?: )], alternation, and the quantifiers [* + ?] with their
    lazy forms. Anything else (braces, back references, look-around, word
    boundaries, the escapes that name a character by a letter or a number)
    is outside the fragment and yields [None], as does a pattern for which
    the [RegExp] constructor throws. *)

Definition is_syntax_char (c : ascii) : bool :=
  existsb (Ascii.eqb c)
    (lit "^$\.*+?()[]{}|").

Definition escape (c : ascii) : option cset :=
  if Ascii.eqb c "d" then Some (CsDigit true)
  else if Ascii.eqb c "D" then Some (CsDigit false)
  else if Ascii.eqb c "w" then Some (CsWord true)
  else if Ascii.eqb c "W" then Some (CsWord false)
  else if Ascii.eqb c "s" then Some (CsSpace true)
  else if Ascii.eqb c "S" then Some (CsSpace false)
  else if is_syntax_char c || Ascii.eqb c "/" || Ascii.eqb c "-"
       then Some (CsChar c)
  else None.

(** A member of a character class, in front of [p]: a character that
    stands for itself, or an escape. Inside a class [\b] is the backspace. *)
Definition class_atom (p : str) : option (member * str) :=
  match p with
  | [] => None
  | "\"%char :: c :: p' =>
      if Ascii.eqb c "d" then Some (MDigit true, p')
      else if Ascii.eqb c "D" then Some (MDigit false, p')
      else if Ascii.eqb c "w" then Some (MWord true, p')
      else if Ascii.eqb c "W" then Some (MWord false, p')
      else if Ascii.eqb c "s" then Some (MSpace true, p')
      else if Ascii.eqb c "S" then Some (MSpace false, p')
      else if Ascii.eqb c "b" then Some (MChar (ascii_of_nat 8), p')
      else if JsString.is_digit c || JsString.is_alpha c then None
      else Some (MChar c, p')
  | "\"%char :: [] => None
  | c :: p' => Some (MChar c, p')
  end.

(** The members up to the closing bracket. A hyphen between two characters
    makes a range, which has to be in order; between a class escape and
    another member it stands for itself, as it does at either end. *)
Fixpoint class_members (fuel : nat) (p : str) : option (list member * str) :=
  match fuel with
  | 0 => None
  | S fuel' =>
      match p with
      | [] => None
      | "]"%char :: p' => Some ([], p')
      | _ =>
          match class_atom p with
          | None => None
          | Some (m1, p1) =>
              let single :=
                match class_members fuel' p1 with
                | Some (ms, p2) => Some (m1 :: ms, p2)
                | None => None
                end in
              match p1 with
              | "-"%char :: "]"%char :: _ => single
              | "-"%char :: p2 =>
                  match class_atom p2 with
                  | None => None
                  | Some (m2, p3) =>
                      match class_members fuel' p3 with
                      | None => None
                      | Some (ms, p4) =>
                          match m1, m2 with
                          | MChar lo, MChar hi =>
                              if nat_of_ascii lo <=? nat_of_ascii hi
                              then Some (MRange lo hi :: ms, p4)
                              else None
                          | _, _ => Some (m1 :: MChar "-" :: m2 :: ms, p4)
                          end
                      end
                  end
              | _ => single
              end
          end
      end
  end.

(** A character class, after its opening bracket. *)
Definition class (p : str) : option (cset * str) :=
  match p with
  | "^"%char :: p' =>
      match class_members (S (List.length p')) p' with
      | Some (ms, p1) => Some (CsClass false ms, p1)
      | None => None
      end
  | _ =>
      match class_members (S (List.length p)) p with
      | Some (ms, p1) => Some (CsClass true ms, p1)
      | None => None
      end
  end.

Definition is_quantifier (c : ascii) : bool :=
  Ascii.eqb c "*" || Ascii.eqb c "+" || Ascii.eqb c "?".

(** A quantifier after the atom [r], if there is one. *)
Definition quantified (r : regex) (p : str) : regex * str :=
  match p with
  | "*"%char :: "?"%char :: p' => (Star false r, p')
  | "*"%char :: p' => (Star true r, p')
  | "+"%char :: "?"%char :: p' => (Seq r (Star false r), p')
  | "+"%char :: p' => (Seq r (Star true r), p')
  | "?"%char :: "?"%char :: p' => (Opt false r, p')
  | "?"%char :: p' => (Opt true r, p')
  | _ => (r, p)
  end.

(** An assertion takes no quantifier. *)
Definition assertion (r : regex) (p : str) : option (regex * str) :=
  match p with
  | c :: _ => if is_quantifier c then None else Some (r, p)
  | [] => Some (r, p)
  end.

(** The first token of a pattern. *)
Inductive Token : Type :=
| TEnd                                  (* the end of the pattern *)
| TStop                                 (* [|] or [)]: the alternative ends *)
| TBol (p : str)
| TEol (p : str)
| TDot (p : str)
| TEscape (c : ascii) (p : str)
| TNonCapturing (p : str)               (* [(?:] *)
| TGroup (p : str)                      (* [(] *)
| TClass (p : str)                      (* [[] *)
| TChar (c : ascii) (p : str)
| TError.

Definition token (p : str) : Token :=
  match p with
  | [] => TEnd
  | "|"%char :: _ => TStop
  | ")"%char :: _ => TStop
  | "^"%char :: p' => TBol p'
  | "$"%char :: p' => TEol p'
  | "."%char :: p' => TDot p'
  | "\"%char :: c :: p' => TEscape c p'
  | "("%char :: "?"%char :: ":"%char :: p' => TNonCapturing p'
  | "("%char :: "?"%char :: _ => TError
  | "("%char :: p' => TGroup p'
  | "["%char :: p' => TClass p'
  | c :: p' => if is_syntax_char c then TError else TChar c p'
  end.

(** [parse_disjunction fuel n p] reads alternatives up to the end of [p] or a
    closing parenthesis; [n] is the number of the next capturing group. *)
Fixpoint parse_disjunction (fuel n : nat) (p : str)
  : option (regex * nat * str) :=
  match fuel with
  | 0 => None
  | S fuel' =>
      match parse_alternative fuel' n p with
      | Some (r1, n1, "|"%char :: p1) =>
          match parse_disjunction fuel' n1 p1 with
          | Some (r2, n2, p2) => Some (Alt r1 r2, n2, p2)
          | None => None
          end
      | other => other
      end
  end
with parse_alternative (fuel n : nat) (p : str)
  : option (regex * nat * str) :=
  match fuel with
  | 0 => None
  | S fuel' =>
      let continue (t : option (regex * str)) (n1 : nat) :=
        match t with
        | Some (r1, p1) =>
            match parse_alternative fuel' n1 p1 with
            | Some (r2, n2, p2) => Some (Seq r1 r2, n2, p2)
            | None => None
            end
        | None => None
        end in
      match token p with
      | TEnd => Some (Eps, n, [])
      | TStop => Some (Eps, n, p)
      | TBol p' => continue (assertion Bol p') n
      | TEol p' => continue (assertion Eol p') n
      | TDot p' => continue (Some (quantified (Chars CsAny) p')) n
      | TEscape c p' =>
          match escape c with
          | Some cs => continue (Some (quantified (Chars cs) p')) n
          | None => None
          end
      | TNonCapturing p' =>
          match parse_disjunction fuel' n p' with
          | Some (r, n1, ")"%char :: p1) => continue (Some (quantified r p1)) n1
          | _ => None
          end
      | TGroup p' =>
          match parse_disjunction fuel' (S n) p' with
          | Some (r, n1, ")"%char :: p1) =>
              continue (Some (quantified (Group n r) p1)) n1
          | _ => None
          end
      | TClass p' =>
          match class p' with
          | Some (cs, p1) => continue (Some (quantified (Chars cs) p1)) n
          | None => None
          end
      | TChar c p' => continue (Some (quantified (Chars (CsChar c)) p')) n
      | TError => None
      end
  end.

(** [new RegExp(p)] *)
Definition compile (p : str) : option regex :=
  match parse_disjunction (2 * List.length p + 2) 1 p with
  | Some (r, _, []) => Some r
  | _ => None
  end.

(** *** Matching

    The matcher follows the specification of the language: a pattern is run
    against a continuation, alternatives and quantifiers are tried in
    priority order, and the first success wins. *)

Record state : Type := mkState {
  pos : nat;                        (* index of the next character *)
  rest : str;                       (* the input from [pos] on *)
  caps : list (nat * str)           (* capturing groups set so far *)
}.

Definition capture (n : nat) (c : list (nat * str)) : option str :=
  match find (fun e => Nat.eqb (fst e) n) c with
  | Some e => Some (snd e)
  | None => None
  end.

Definition clear (gs : list nat) (st : state) : state :=
  mkState (pos st) (rest st)
    (filter (fun e => negb (existsb (Nat.eqb (fst e)) gs)) (caps st)).

Definition set_capture (n : nat) (from to : state) : state :=
  mkState (pos to) (rest to)
    ((n, firstn (pos to - pos from) (rest from)) :: caps to).

(** The loop of a quantifier: an iteration that consumes nothing is
    rejected, and the groups of the body are reset when an iteration
    starts. [fuel] bounds the number of iterations: the length of the input
    for [*], one for [?]. *)
Fixpoint star_loop (greedy : bool)
    (body : (state -> option state) -> state -> option state)
    (gs : list nat) (k : state -> option state) (fuel : nat) (st : state)
  {struct fuel} : option state :=
  match fuel with
  | 0 => k st
  | S fuel' =>
      let again :=
        body (fun st' => if pos st <? pos st'
                         then star_loop greedy body gs k fuel' st'
                         else None)
             (clear gs st) in
      if greedy then
        match again with Some e => Some e | None => k st end
      else
        match k st with Some e => Some e | None => again end
  end.

Fixpoint run (r : regex) (k : state -> option state) (st : state)
  {struct r} : option state :=
  match r with
  | Eps => k st
  | Chars cs =>
      match rest st with
      | c :: t => if accepts cs c then k (mkState (S (pos st)) t (caps st))
                  else None
      | [] => None
      end
  | Bol => if pos st =? 0 then k st else None
  | Eol => match rest st with [] => k st | _ :: _ => None end
  | Seq r1 r2 => run r1 (fun st' => run r2 k st') st
  | Alt r1 r2 =>
      match run r1 k st with
      | Some e => Some e
      | None => run r2 k st
      end
  | Group n r1 => run r1 (fun st' => k (set_capture n st st')) st
  | Star greedy r1 =>
      star_loop greedy (run r1) (groups_in r1) k (S (List.length (rest st))) st
  | Opt greedy r1 => star_loop greedy (run r1) (groups_in r1) k 1 st
  end.

(** The result of a successful match: where it starts, where it ends, and
    the groups. *)
Record matched : Type := mkMatched {
  index : nat;
  lastIndex : nat;
  groups : list (nat * str)
}.

(** The start positions are tried from left to right. *)
Fixpoint search (r : regex) (i : nat) (s : str) : option matched :=
  match run r Some (mkState i s []) with
  | Some e => Some (mkMatched i (pos e) (caps e))
  | None =>
      match s with
      | [] => None
      | _ :: s' => search r (S i) s'
      end
  end.

(** [r.exec(s)], for a pattern without the [g] and [y] flags. *)
Definition exec (r : regex) (s : str) : option matched := search r 0 s.

(** [r.test(s)] *)
Definition test (r : regex) (s : str) : bool :=
  match exec r s with Some _ => true | None => false end.

(** [m[n]] for [n >= 1]: [None] is [undefined]. *)
Definition group (m : matched) (n : nat) : option str := capture n (groups m).

(** [m[0]] *)
Definition whole (m : matched) (s : str) : str :=
  firstn (lastIndex m - index m) (skipn (index m) s).

(** The replacement patterns [$$], [$&] and [$1] to [$9] for a pattern that
    has the groups [gs]; a group that did not take part is replaced by the
    empty string, and a reference to a group that the pattern does not have
    stands for itself. References of two digits and the patterns for the
    text around the match do not occur in the templates of the action. *)
Fixpoint expand (gs : list nat) (template : str) (m : matched) (s : str) : str :=
  match template with
  | [] => []
  | c :: t =>
      if Ascii.eqb c "$" then
        match t with
        | "$"%char :: t' => "$"%char :: expand gs t' m s
        | "&"%char :: t' => whole m s ++ expand gs t' m s
        | d :: t' =>
            let n := nat_of_ascii d - 48 in
            if JsString.is_digit d && (1 <=? n) && existsb (Nat.eqb n) gs
            then match group m n with Some g => g | None => [] end
                 ++ expand gs t' m s
            else c :: expand gs t m s
        | [] => [c]
        end
      else c :: expand gs t m s
  end.

(** [s.replace(r, template)] for a pattern without the [g] flag. *)
Definition replace (r : regex) (template : str) (s : str) : str :=
  match exec r s with
  | Some m => firstn (index m) s ++ expand (groups_in r) template m s
              ++ skipn (lastIndex m) s
  | None => s
  end.

(** [s.match(p)] with a string [p]: the pattern is compiled first. *)
Definition match_string (s p : str) : option (option matched) :=
  match compile p with
  | Some r => Some (exec r s)
  | None => None
  end.

End RegExp.

(* ================================================================== *)
(** ** The [semver] package (version 7.3), in its default strict mode

    The package is a dependency of the action, not part of it; the functions
    the action calls are transcribed here from the package's sources:
    [parse], [valid], [prerelease], [compare], [rcompare], [gte], [inc]. *)
(* ================================================================== *)

Module Semver.

Definition MAX_LENGTH : nat := 256.
Definition MAX_SAFE_INTEGER : Z := 9007199254740991.

(** A pre-release identifier is held as a number when it is numeric and
    below [MAX_SAFE_INTEGER], and as a string otherwise. *)
Inductive Identifier : Type :=
| IdNum (n : Z)
| IdStr (s : str).

Record SemVer : Type := mkSemVer {
  major : Z;
  minor : Z;
  patch : Z;
  prerelease_of : list Identifier;
  build : list str
}.

Definition all_digits (s : str) : bool :=
  JsString.truthy s && forallb JsString.is_digit s.

(** The value of a string of decimal digits. *)
Definition number_of (s : str) : Z :=
  fold_left (fun acc c => (10 * acc + Z.of_nat (nat_of_ascii c - 48))%Z) s 0%Z.

(** The decimal digits of a non-negative integer. *)
Definition digits_of (z : Z) : str :=
  list_ascii_of_string (NilZero.string_of_uint (N.to_uint (Z.to_N z))).

(** [0|[1-9]\d*] *)
Definition numeric_identifier (s : str) : bool :=
  all_digits s &&
  match s with
  | "0"%char :: _ :: _ => false
  | _ => true
  end.

Definition letter_dash_number (c : ascii) : bool :=
  JsString.is_digit c || JsString.is_alpha c || Ascii.eqb c "-".

(** [[0-9A-Za-z-]+] *)
Definition build_identifier (s : str) : bool :=
  JsString.truthy s && forallb letter_dash_number s.

(** [0|[1-9]\d*|\d*[a-zA-Z-][a-zA-Z0-9-]*] *)
Definition prerelease_identifier (s : str) : bool :=
  numeric_identifier s || (build_identifier s && negb (all_digits s)).

(** The piece of [s] before the first [c], and the piece after it if [c]
    occurs. *)
Fixpoint cut (c : ascii) (s : str) : str * option str :=
  match s with
  | [] => ([], None)
  | d :: s' =>
      if Ascii.eqb d c then ([], Some s')
      else let (a, b) := cut c s' in (d :: a, b)
  end.

Definition identifier_of (s : str) : Identifier :=
  if all_digits s && (number_of s <? MAX_SAFE_INTEGER)%Z
  then IdNum (number_of s) else IdStr s.

(** [s.trim()] *)
Fixpoint trimStart (s : str) : str :=
  match s with
  | c :: s' => if JsString.is_space c then trimStart s' else s
  | [] => []
  end.

Definition trim (s : str) : str := rev (trimStart (rev (trimStart s))).

(** The match of the [FULL] pattern and the range checks of the constructor:
    [v?MAJOR.MINOR.PATCH(-PRERELEASE)?(+BUILD)?]. *)
Definition full (s : str) : option SemVer :=
  let s := match s with "v"%char :: s' => s' | _ => s end in
  let (main_pre, b) := cut "+" s in
  let (main, p) := cut "-" main_pre in
  let pre := match p with Some p' => JsString.split "." p' | None => [] end in
  let bld := match b with Some b' => JsString.split "." b' | None => [] end in
  match JsString.split "." main with
  | [x; y; z] =>
      if numeric_identifier x && numeric_identifier y && numeric_identifier z
         && forallb prerelease_identifier pre
         && forallb build_identifier bld
         && (number_of x <=? MAX_SAFE_INTEGER)%Z
         && (number_of y <=? MAX_SAFE_INTEGER)%Z
         && (number_of z <=? MAX_SAFE_INTEGER)%Z
      then Some (mkSemVer (number_of x) (number_of y) (number_of z)
                          (map identifier_of pre) bld)
      else None
  | _ => None
  end.

(** [new SemVer(s)]: [None] when the constructor throws. *)
Definition construct (s : str) : option SemVer :=
  if MAX_LENGTH <? List.length s then None else full (trim s).

(** [parse(s)]: [None] is [null]. The pattern is tested on the string as
    given, before the constructor trims it. *)
Definition parse (s : str) : option SemVer :=
  if MAX_LENGTH <? List.length s then None
  else match full s with
       | Some _ => construct s
       | None => None
       end.

Definition identifier_string (i : Identifier) : str :=
  match i with
  | IdNum n => digits_of n
  | IdStr s => s
  end.

(** [v.version], as [format()] builds it: the build metadata is left out. *)
Definition version (v : SemVer) : str :=
  digits_of (major v) ++ lit "." ++ digits_of (minor v) ++ lit "."
  ++ digits_of (patch v)
  ++ match prerelease_of v with
     | [] => []
     | ids => lit "-" ++ JsString.join "." (map identifier_string ids)
     end.

(** [valid(s)] *)
Definition valid (s : str) : option str := option_map version (parse s).

(** [prerelease(s)]: [null] when [s] is no version or has no pre-release
    part. *)
Definition prerelease (s : str) : option (list Identifier) :=
  match parse s with
  | Some v => match prerelease_of v with [] => None | ids => Some ids end
  | None => None
  end.

(** The conversion of a non-negative integer to a number (unary plus on its
    digits): the nearest double, ties to even. *)
Definition to_double (n : Z) : Z :=
  let bits := (Z.log2 n + 1)%Z in
  if (bits <=? 53)%Z then n
  else
    let e := (bits - 53)%Z in
    let q := Z.shiftr n e in
    let r := Z.land n (Z.ones e) in
    let half := Z.shiftl 1 (e - 1) in
    let q' := if (half <? r)%Z || ((r =? half)%Z && Z.odd q)
              then (q + 1)%Z else q in
    Z.shiftl q' e.

Definition Z_of_comparison (c : comparison) : Z :=
  match c with Lt => (-1)%Z | Eq => 0%Z | Gt => 1%Z end.

(** [a < b] on strings compares code units. *)
Fixpoint str_compare (a b : str) : comparison :=
  match a, b with
  | [], [] => Eq
  | [], _ :: _ => Lt
  | _ :: _, [] => Gt
  | c :: a', d :: b' =>
      match Nat.compare (nat_of_ascii c) (nat_of_ascii d) with
      | Eq => str_compare a' b'
      | o => o
      end
  end.

Definition is_numeric (i : Identifier) : bool :=
  match i with
  | IdNum _ => true
  | IdStr s => all_digits s
  end.

Definition numeric_value (i : Identifier) : Z :=
  match i with
  | IdNum n => to_double n
  | IdStr s => to_double (number_of s)
  end.

(** [compareIdentifiers(a, b)] *)
Definition compareIdentifiers (a b : Identifier) : Z :=
  match is_numeric a, is_numeric b with
  | true, true => Z_of_comparison (Z.compare (numeric_value a) (numeric_value b))
  | true, false => (-1)%Z
  | false, true => 1%Z
  | false, false =>
      Z_of_comparison (str_compare (identifier_string a) (identifier_string b))
  end.

(** [a === b] on identifiers: a number never equals a string. *)
Definition identifier_eqb (a b : Identifier) : bool :=
  match a, b with
  | IdNum n, IdNum m => Z.eqb n m
  | IdStr s, IdStr t => JsString.eqb s t
  | _, _ => false
  end.

Definition compareMain (a b : SemVer) : Z :=
  match Z.compare (major a) (major b) with
  | Eq => match Z.compare (minor a) (minor b) with
          | Eq => Z_of_comparison (Z.compare (patch a) (patch b))
          | o => Z_of_comparison o
          end
  | o => Z_of_comparison o
  end.

Fixpoint compare_identifiers (a b : list Identifier) : Z :=
  match a, b with
  | [], [] => 0%Z
  | _ :: _, [] => 1%Z
  | [], _ :: _ => (-1)%Z
  | x :: a', y :: b' =>
      if identifier_eqb x y then compare_identifiers a' b'
      else compareIdentifiers x y
  end.

Definition comparePre (a b : SemVer) : Z :=
  match prerelease_of a, prerelease_of b with
  | _ :: _, [] => (-1)%Z
  | [], _ :: _ => 1%Z
  | [], [] => 0%Z
  | x, y => compare_identifiers x y
  end.

(** [a.compare(b)] *)
Definition compare_versions (a b : SemVer) : Z :=
  if JsString.eqb (version b) (version a) then 0%Z
  else match compareMain a b with
       | 0%Z => comparePre a b
       | c => c
       end.

(** [compare(a, b)]: [None] when a constructor throws. *)
Definition compare (a b : str) : option Z :=
  match construct a, construct b with
  | Some x, Some y => Some (compare_versions x y)
  | _, _ => None
  end.

Definition rcompare (a b : str) : option Z := compare b a.

Definition gte (a b : str) : option bool :=
  option_map (fun c => (0 <=? c)%Z) (compare a b).

(** The leading digits of [s], and what follows them. *)
Fixpoint span_digits (s : str) : str * str :=
  match s with
  | c :: s' =>
      if JsString.is_digit c then let (a, b) := span_digits s' in (c :: a, b)
      else ([], s)
  | [] => ([], [])
  end.

Definition in_range (lo hi : nat) (c : ascii) : bool :=
  (lo <=? nat_of_ascii c) && (nat_of_ascii c <=? hi).

Definition is_hex (c : ascii) : bool :=
  JsString.is_digit c || in_range 65 70 c || in_range 97 102 c.

(** The strings that read as numeric literals, over the alphabet of
    identifiers: the decimal digits with an optional exponent and
    [Infinity], both with an optional minus sign, and the binary, octal and
    hexadecimal literals. *)
Definition decimal_literal (s : str) : bool :=
  JsString.eqb s "Infinity" ||
  match span_digits s with
  | (_ :: _, []) => true
  | (_ :: _, e :: x) =>
      (Ascii.eqb e "e" || Ascii.eqb e "E") &&
      all_digits (match x with "-"%char :: x' => x' | _ => x end)
  | _ => false
  end.

Definition numeric_literal (s : str) : bool :=
  match s with
  | "-"%char :: u => decimal_literal u
  | "0"%char :: b :: u =>
      decimal_literal s ||
      (JsString.truthy u &&
       (((Ascii.eqb b "b" || Ascii.eqb b "B") && forallb (in_range 48 49) u) ||
        ((Ascii.eqb b "o" || Ascii.eqb b "O") && forallb (in_range 48 55) u) ||
        ((Ascii.eqb b "x" || Ascii.eqb b "X") && forallb is_hex u)))
  | _ => decimal_literal s
  end.

(** [isNaN(x)] for a pre-release identifier or [undefined]: a string is
    converted to a number first. *)
Definition isNaN (x : option Identifier) : bool :=
  match x with
  | None => true
  | Some (IdNum _) => false
  | Some (IdStr s) => negb (numeric_literal s)
  end.

Local Open Scope Z_scope.

(** The loop of the ['pre'] case: the last identifier that is a number is
    incremented. *)
Fixpoint increment_last (ids : list Identifier) : option (list Identifier) :=
  match ids with
  | [] => None
  | i :: tl =>
      match increment_last tl with
      | Some tl' => Some (i :: tl')
      | None =>
          match i with
          | IdNum n => Some (IdNum (n + 1) :: tl)
          | IdStr _ => None
          end
      end
  end.

(** [this.inc('pre', identifier)] on the pre-release part. *)
Definition inc_pre (ids : list Identifier) (identifier : str)
  : list Identifier :=
  let ids1 :=
    match ids with
    | [] => [IdNum 0]
    | _ => match increment_last ids with
           | Some l => l
           | None => ids ++ [IdNum 0]
           end
    end in
  if JsString.truthy identifier then
    match ids1 with
    | IdStr s :: tl =>
        if JsString.eqb s identifier then
          if isNaN (hd_error tl) then [IdStr identifier; IdNum 0] else ids1
        else [IdStr identifier; IdNum 0]
    | _ => [IdStr identifier; IdNum 0]
    end
  else ids1.

(** [v.inc(release, identifier)]: [None] when it throws. *)
Definition inc_version (v : SemVer) (release identifier : str)
  : option SemVer :=
  let rel := JsString.eqb release in
  let empty := match prerelease_of v with [] => true | _ => false end in
  let nonzero z := negb (z =? 0)%Z in
  if rel "premajor" then
    Some (mkSemVer (major v + 1) 0 0 (inc_pre [] identifier) (build v))
  else if rel "preminor" then
    Some (mkSemVer (major v) (minor v + 1) 0 (inc_pre [] identifier) (build v))
  else if rel "prepatch" then
    Some (mkSemVer (major v) (minor v) (patch v + 1) (inc_pre [] identifier)
                   (build v))
  else if rel "prerelease" then
    if empty then
      Some (mkSemVer (major v) (minor v) (patch v + 1) (inc_pre [] identifier)
                     (build v))
    else
      Some (mkSemVer (major v) (minor v) (patch v)
                     (inc_pre (prerelease_of v) identifier) (build v))
  else if rel "major" then
    Some (mkSemVer
            (if nonzero (minor v) || nonzero (patch v) || empty
             then major v + 1 else major v) 0 0 [] (build v))
  else if rel "minor" then
    Some (mkSemVer (major v)
            (if nonzero (patch v) || empty then minor v + 1 else minor v)
            0 [] (build v))
  else if rel "patch" then
    Some (mkSemVer (major v) (minor v)
            (if empty then patch v + 1 else patch v) [] (build v))
  else if rel "pre" then
    Some (mkSemVer (major v) (minor v) (patch v)
                   (inc_pre (prerelease_of v) identifier) (build v))
  else None.

Local Close Scope Z_scope.

(** [inc(v, release, identifier)] for a parsed [v]; [release] is [None] for
    [null]. The result is the new version string, or [None] for [null]. *)
Definition inc (v : SemVer) (release : option str) (identifier : str)
  : option str :=
  match construct (version v), release with
  | Some v', Some r => option_map version (inc_version v' r identifier)
  | _, _ => None
  end.

End Semver.

(* ================================================================== *)
(** ** Errors

    A computation that can throw ([new RegExp] on a bad pattern, a [semver]
    constructor on a bad version) returns an [option]; [None] is the
    exception, which nothing in the action catches, or a pattern outside the
    fragment that is read here. *)
(* ================================================================== *)

Notation "x <- e ;; k" :=
  (match e with Some x => k | None => None end)
  (at level 61, e at next level, right associativity, only parsing).

(** [l.some(f)] and [l.find(f)] stop at the first element that answers. *)
Fixpoint someM {A} (f : A -> option bool) (l : list A) : option bool :=
  match l with
  | [] => Some false
  | x :: l' => b <- f x ;; if b then Some true else someM f l'
  end.

Fixpoint findM {A} (f : A -> option bool) (l : list A) : option (option A) :=
  match l with
  | [] => Some None
  | x :: l' => b <- f x ;; if b then Some (Some x) else findM f l'
  end.

(** [l.sort(cmp)]: the sort of the language is stable, and its result for a
    consistent comparator is the one of an insertion sort. *)
Fixpoint insert {A} (cmp : A -> A -> option Z) (x : A) (l : list A)
  : option (list A) :=
  match l with
  | [] => Some [x]
  | y :: l' =>
      c <- cmp x y ;;
      if (c <=? 0)%Z then Some (x :: l)
      else l'' <- insert cmp x l' ;; Some (y :: l'')
  end.

Fixpoint sort {A} (cmp : A -> A -> option Z) (l : list A) : option (list A) :=
  match l with
  | [] => Some []
  | x :: l' => s <- sort cmp l' ;; insert cmp x s
  end.

Definition isSome {A} (o : option A) : bool :=
  match o with Some _ => true | None => false end.

(* ================================================================== *)
(** ** Objects

    An object used as a table is the list of its own properties, in the
    order in which the language lists them: the array indices in ascending
    order, then the other keys in the order of their creation. *)
(* ================================================================== *)

Module JsObject.

Definition object (V : Type) : Type := list (str * V).

(** An array index is the canonical text of an integer below [2^32 - 1]. *)
Definition array_index (k : str) : option Z :=
  if Semver.numeric_identifier k && (Semver.number_of k <? 4294967295)%Z
  then Some (Semver.number_of k) else None.

(** [o[k]], for an own property. *)
Fixpoint get {V} (k : str) (o : object V) : option V :=
  match o with
  | [] => None
  | (k', v) :: o' => if JsString.eqb k' k then Some v else get k o'
  end.

(** A new key [k] is listed before the existing key [k']. *)
Definition listed_before (k k' : str) : bool :=
  match array_index k, array_index k' with
  | Some i, Some j => (i <? j)%Z
  | Some _, None => true
  | None, _ => false
  end.

(** The definition of a property that the object does not have. *)
Fixpoint create {V} (k : str) (v : V) (o : object V) : object V :=
  match o with
  | [] => [(k, v)]
  | (k', v') :: o' =>
      if listed_before k k' then (k, v) :: o else (k', v') :: create k v o'
  end.

(** The assignment to a property that the object has: it keeps its place. *)
Fixpoint overwrite {V} (k : str) (v : V) (o : object V) : object V :=
  match o with
  | [] => []
  | (k', v') :: o' =>
      if JsString.eqb k' k then (k, v) :: o' else (k', v') :: overwrite k v o'
  end.

(** [{ ...o, [k]: v }] *)
Definition set {V} (k : str) (v : V) (o : object V) : object V :=
  if isSome (get k o) then overwrite k v o else create k v o.

(** [Object.values(o)] *)
Definition values {V} (o : object V) : list V := map snd o.

End JsObject.

(* ================================================================== *)
(** ** [src/utils.ts] *)
(* ================================================================== *)

Module Utils.

Import RegExp.

Record Commit : Type := mkCommit { sha : str }.

(** A tag as [listTags] returns it. *)
Record Tag : Type := mkTag { name : str; commit : Commit }.

Definition with_name (tag : Tag) (n : str) : Tag := mkTag n (commit tag).

(** A pattern literal of the source, compiled once. *)
Definition regex_literal (p : string) : regex :=
  match compile p with Some r => r | None => Eps end.

Definition version_pattern : string :=
  "^(.*?)(\d+)(?:\.(\d+))?(?:\.(\d+))?(.*)$".

Definition version_regex : regex :=
  Eval vm_compute in regex_literal version_pattern.

(** A value interpolated in a template literal. *)
Definition interpolate (o : option str) : str :=
  match o with Some s => s | None => lit "undefined" end.

(** [convertVersionFormat(tag, customVersionFormat)]; the format [false] is
    passed as the empty string, which is falsy as well. A format item other
    than [MAJOR], [MINOR] and [PATCH] gives the empty string; the property
    names that every object inherits are left aside. *)
Definition convertVersionFormat (tag customVersionFormat : str) : str :=
  if negb (JsString.truthy customVersionFormat) then tag
  else
    match exec version_regex tag with
    | None => []
    | Some m =>
        let prefix := group m 1 in
        let major := group m 2 in
        let minor := match group m 3 with Some x => Some x | None => Some (lit "0") end in
        let patch := match group m 4 with Some x => Some x | None => Some (lit "0") end in
        let suffix := group m 5 in
        let versionMap (key : str) : option str :=
          if JsString.eqb key "MAJOR" then major
          else if JsString.eqb key "MINOR" then minor
          else if JsString.eqb key "PATCH" then patch
          else None in
        let name :=
          JsString.join "."
            (map (fun versionItem =>
                    match versionMap versionItem with
                    | Some v => v          (* a captured group is not empty *)
                    | None => []
                    end)
                 (JsString.split "." customVersionFormat)) in
        interpolate prefix ++ name ++ interpolate suffix
    end.

Inductive RemoveDot : Type := remove | add.

(** [removeDotFromPreReleaseIdentifier(tag, appendToPreReleaseTag, removeDot)];
    [None] when the pattern does not compile, and when [match[2]] is
    [undefined], so that the call of [startsWith] on it throws. *)
Definition removeDotFromPreReleaseIdentifier
    (tag appendToPreReleaseTag : str) (removeDot : RemoveDot) : option str :=
  let strip_dot :=
    regex <- compile (lit "(-" ++ appendToPreReleaseTag ++ lit ")\.(\w+)") ;;
    Some (replace regex "$1$2" tag) in
  match removeDot with
  | add =>
      regex <- compile (lit "(-" ++ appendToPreReleaseTag ++ lit ")(\w+)") ;;
      match exec regex tag with
      | Some m =>
          match2 <- group m 2 ;;
          if JsString.startsWith "." match2 then Some tag
          else Some (replace regex "$1.$2" tag)
      | None => strip_dot
      end
  | remove => strip_dot
  end.

(** [tag.name.replace(prefixRegex, '')] *)
Definition strip (prefixRegex : regex) (n : str) : str :=
  replace prefixRegex "" n.

(** The filter of [getValidTags]. *)
Definition is_valid (prefixRegex : regex) (tag : Tag) : bool :=
  test prefixRegex (name tag) && isSome (Semver.valid (strip prefixRegex (name tag))).

(** [getValidTags(prefixRegex, shouldFetchAllTags, isCustomVersionFormat)];
    [listTags] is the call to the repository. *)
Definition getValidTags (listTags : bool -> list Tag) (prefixRegex : regex)
    (shouldFetchAllTags : bool) (isCustomVersionFormat : str)
  : option (list Tag) :=
  let tags := listTags shouldFetchAllTags in
  let tags :=
    if JsString.truthy isCustomVersionFormat then
      map (fun tag =>
             let customTag := convertVersionFormat (name tag) "MAJOR.MINOR.PATCH" in
             with_name tag customTag)
          tags
    else tags in
  sort (fun a b => Semver.rcompare (strip prefixRegex (name a))
                                   (strip prefixRegex (name b)))
       (filter (is_valid prefixRegex) tags).

(** [getBranchFromRef(ref)] *)
Definition getBranchFromRef (ref : str) : str :=
  JsString.replace "refs/heads/" "" ref.

(** [isPr(ref)] *)
Definition isPr (ref : str) : bool := JsString.includes "refs/pull/" ref.

(** A found element is the element itself, not a copy: [find] answers with
    its position in the array. *)
Fixpoint indexed {A} (i : nat) (l : list A) : list (nat * A) :=
  match l with
  | [] => []
  | x :: l' => (i, x) :: indexed (S i) l'
  end.

(** [getLatestTag(tags, prefixRegex, tagPrefix)]: the position of the first
    release tag, or else a new object. *)
Definition getLatestTag (tags : list Tag) (prefixRegex : regex) (tagPrefix : str)
  : nat + Tag :=
  match find (fun it => test prefixRegex (name (snd it)) &&
                        negb (isSome (Semver.prerelease (strip prefixRegex (name (snd it))))))
             (indexed 0 tags) with
  | Some it => inl (fst it)
  | None => inr (mkTag (tagPrefix ++ lit "0.0.0") (mkCommit "HEAD"))
  end.

(** [getLatestPrereleaseTag(tags, identifier, prefixRegex)]; [identifier] is
    handed to [String.prototype.match], which compiles it. *)
Definition getLatestPrereleaseTag (tags : list Tag) (identifier : str)
    (prefixRegex : regex) : option (option nat) :=
  r <- findM (fun it => m <- match_string (strip prefixRegex (name (snd it))) identifier ;;
                        Some (isSome m))
         (filter (fun it => isSome (Semver.prerelease (strip prefixRegex (name (snd it)))))
                 (indexed 0 tags)) ;;
  Some (option_map fst r).

(** A release rule as [mapCustomReleaseRules] builds it; a [section] that
    is [None] is [undefined]. *)
Record ReleaseRule : Type := mkReleaseRule {
  type : str;
  release : str;
  section : option str
}.

(** [!!x] for a string that may be [undefined]. *)
Definition defined_truthy (x : option str) : bool :=
  match x with Some s => JsString.truthy s | None => false end.

Section ChangelogRules.

(** The two tables that the functions import: the default changelog rules
    of [./defaults], of which the code reads the [section] only, and the
    release types of the commit analyzer. A key that the table inherits and
    does not own has no [section], like a key that it does not have. *)
Variable DefaultRule : Type.
Variable section_of : DefaultRule -> option str.
Variable defaultChangelogRules : JsObject.object DefaultRule.
Variable DEFAULT_RELEASE_TYPES : list str.

(** [defaultChangelogRules[type.toLowerCase()]?.section] *)
Definition default_section (type : str) : option str :=
  match JsObject.get (JsString.toLowerCase type) defaultChangelogRules with
  | Some defaultRule => section_of defaultRule
  | None => None
  end.

(** [mapCustomReleaseRules(customReleaseTypes)] *)
Definition mapCustomReleaseRules (customReleaseTypes : str) : list ReleaseRule :=
  map (fun customReleaseRule =>
         let parts := JsString.split ":" customReleaseRule in
         let type := nth 0 parts [] in
         let release := nth 1 parts [] in
         let section := nth_error parts 2 in
         mkReleaseRule type release
           (if defined_truthy section then section else default_section type))
      (filter (fun customReleaseRule =>
                 let parts := JsString.split ":" customReleaseRule in
                 if List.length parts <? 2 then false
                 else if negb (existsb (JsString.eqb (nth 1 parts [])) DEFAULT_RELEASE_TYPES)
                      then false
                 else true)
              (JsString.split "," customReleaseTypes)).

(** A value of the merged table: a default rule, or a custom one. *)
Definition rule_section (rule : DefaultRule + ReleaseRule) : option str :=
  match rule with
  | inl defaultRule => section_of defaultRule
  | inr customRule => section customRule
  end.

(** The table that the [reduce] of [mergeWithDefaultChangelogRules] builds. *)
Definition mergedRules (mappedReleaseRules : list ReleaseRule)
  : JsObject.object (DefaultRule + ReleaseRule) :=
  fold_left (fun acc curr => JsObject.set (type curr) (inr curr) acc)
            mappedReleaseRules
            (map (fun entry => (fst entry, inl (snd entry))) defaultChangelogRules).

(** [mergeWithDefaultChangelogRules(mappedReleaseRules)]; [None] is the
    argument left out, or [undefined]. *)
Definition mergeWithDefaultChangelogRules
    (mappedReleaseRules : option (list ReleaseRule))
  : list (DefaultRule + ReleaseRule) :=
  let mappedReleaseRules :=
    match mappedReleaseRules with Some rules => rules | None => [] end in
  filter (fun rule => defined_truthy (rule_section rule))
         (JsObject.values (mergedRules mappedReleaseRules)).

End ChangelogRules.

End Utils.

(* ================================================================== *)
(** ** [src/main.ts] *)
(* ================================================================== *)

Module Main.

Import RegExp Utils.

(** The inputs of the action, as [core.getInput] returns them. *)
Record Inputs : Type := mkInputs {
  default_bump : str;
  default_prerelease_bump : str;
  tag_prefix : str;
  custom_tag : str;
  release_branches : str;
  pre_release_branches : str;
  append_to_pre_release_tag : str;
  create_annotated_tag : str;
  dry_run : str;
  fetch_all_tags : str;
  commit_sha : str;
  promote_patch_to_minor : str;
  version_format : str
}.

(** [process.env]; [None] is an unset variable. *)
Record Env : Type := mkEnv {
  GITHUB_REF : option str;
  GITHUB_SHA : option str
}.

(** What the collaborators answer: the tags of the repository, the bump
    that the commit analyzer finds ([None] is [null]), and the notes. The
    custom release rules only travel from the inputs to these two engines
    and are left out. *)
Record World : Type := mkWorld {
  listTags : bool -> list Tag;
  analyzeCommits : option str;
  generateNotes : str
}.

(** What a run does that can be seen from outside. *)
Inductive Event : Type :=
| SetOutput (key value : str)
| SetFailed (message : str)
| CreateTag (newTag : str) (createAnnotatedTag : bool) (commitRef : str).

(** The objects that [main] holds references to: the elements of
    [validTags], and the object that [getLatestTag] builds when it finds no
    release tag. *)
Record Heap : Type := mkHeap {
  elements : list Tag;
  fresh : option Tag
}.

Inductive Ref : Type :=
| Element (i : nat)
| Fresh.

Definition no_tag : Tag := mkTag [] (mkCommit []).

Definition deref (h : Heap) (r : Ref) : Tag :=
  match r with
  | Element i => nth i (elements h) no_tag
  | Fresh => match fresh h with Some t => t | None => no_tag end
  end.

Fixpoint update {A} (i : nat) (f : A -> A) (l : list A) : list A :=
  match l, i with
  | [], _ => []
  | x :: l', 0 => f x :: l'
  | x :: l', S i' => x :: update i' f l'
  end.

(** [r.name = n] *)
Definition assign_name (h : Heap) (r : Ref) (n : str) : Heap :=
  match r with
  | Element i => mkHeap (update i (fun t => with_name t n) (elements h)) (fresh h)
  | Fresh => mkHeap (elements h) (option_map (fun t => with_name t n) (fresh h))
  end.

(** The end of a run: its events in order, and the catalog as it stands
    then ([None] before [getValidTags] has returned). *)
Record Run : Type := mkRun {
  events : list Event;
  catalog : option (list Tag)
}.

(** [/true/i.test(s)] *)
Definition is_true (s : str) : bool :=
  JsString.includes "true" (map JsString.toLowerCase_char s).

(** [s.replace(/[^a-zA-Z0-9-]/g, '-')] *)
Definition sanitize (s : str) : str :=
  map (fun c => if Semver.letter_dash_number c then c else "-"%char) s.

Definition patchReg : regex := Eval vm_compute in regex_literal "patch$".

(** [a.indexOf(x)], where [x] may be [null]. *)
Fixpoint index_from (i : Z) (l : list str) (x : str) : Z :=
  match l with
  | [] => (-1)%Z
  | y :: l' => if JsString.eqb y x then i else index_from (i + 1)%Z l' x
  end.

Definition indexOf (l : list str) (x : option str) : Z :=
  match x with
  | Some s => index_from 0%Z l s
  | None => (-1)%Z
  end.

(** [!bump] *)
Definition falsy (bump : option str) : bool :=
  match bump with
  | Some s => negb (JsString.truthy s)
  | None => true
  end.

(** [String(x)] *)
Definition to_string (x : option str) : str :=
  match x with Some s => s | None => lit "null" end.

(** An output value: [null] is written as the empty string. *)
Definition output_value (x : option str) : str :=
  match x with Some s => s | None => [] end.

(** *** The pieces of [main], named after its variables *)

Definition currentBranch (ref : str) : str := getBranchFromRef ref.

(** [patterns.split(',').some((branch) => currentBranch.match(branch))] *)
Definition matches_some (patterns branch : str) : option bool :=
  someM (fun pattern => m <- match_string branch pattern ;; Some (isSome m))
        (JsString.split "," patterns).

Definition isReleaseBranch (inp : Inputs) (ref : str) : option bool :=
  matches_some (release_branches inp) (currentBranch ref).

Definition isPreReleaseBranch (inp : Inputs) (ref : str) : option bool :=
  matches_some (pre_release_branches inp) (currentBranch ref).

Definition isPullRequest (ref : str) : bool := isPr ref.

Definition isPrerelease (inp : Inputs) (ref : str) : option bool :=
  r <- isReleaseBranch inp ref ;;
  p <- isPreReleaseBranch inp ref ;;
  Some (negb r && negb (isPullRequest ref) && p).

Definition identifier (inp : Inputs) (ref : str) : str :=
  sanitize (if JsString.truthy (append_to_pre_release_tag inp)
            then append_to_pre_release_tag inp else currentBranch ref).

Definition prefixRegex (inp : Inputs) : option regex :=
  compile ("^"%char :: tag_prefix inp).

(** The bump after the defaults and the promotion have been applied. *)
Definition resolved_bump (inp : Inputs) (isPrerelease : bool)
    (bump : option str) : option str :=
  let bump := if isPrerelease && falsy bump
              then Some (default_prerelease_bump inp) else bump in
  if JsString.truthy (promote_patch_to_minor inp) && test patchReg (to_string bump)
  then Some (replace patchReg "minor" (to_string bump))
  else bump.

(** [releaseType], from the resolved bump. *)
Definition releaseType (inp : Inputs) (isPrerelease : bool)
    (previousVersion : Semver.SemVer) (bump : option str) : option str :=
  if negb isPrerelease then
    let bumpPriority : list str := [lit "patch"; lit "minor"; lit "major"] in
    if (indexOf bumpPriority bump <? indexOf bumpPriority (Some (default_bump inp)))%Z
    then Some (default_bump inp) else bump
  else
    if negb (JsString.eqb (default_prerelease_bump inp) "prerelease")
       || match Semver.prerelease_of previousVersion with [] => true | _ => false end
    then
      let bump := Some (lit "pre" ++ to_string bump) in
      let bumpPriority : list str :=
        [lit "prerelease"; lit "prepatch"; lit "preminor"; lit "premajor"] in
      if (indexOf bumpPriority bump
          <? indexOf bumpPriority (Some (default_prerelease_bump inp)))%Z
      then Some (default_prerelease_bump inp) else bump
    else Some (default_prerelease_bump inp).

(** The outcome of the block that computes [newVersion]: the run returns
    from inside it, or goes on with the new version. *)
Inductive Resolved : Type :=
| Returned (h : Heap) (evs : list Event)
| NewVersion (h : Heap) (evs : list Event) (newVersion : str).

(** [previousTag], one of the two tags that were found: the latest tag, or
    the latest pre-release tag when the branch is no release branch and
    that tag is the higher one. *)
Definition previousTag (h : Heap) (prefixRegex : regex) (isReleaseBranch : bool)
    (latestTag : Ref) (latestPrereleaseTag : option nat) : option Ref :=
  match latestPrereleaseTag with
  | None => Some latestTag
  | Some i =>
      if isReleaseBranch then Some latestTag
      else
        b <- Semver.gte (strip prefixRegex (name (deref h latestTag)))
                         (strip prefixRegex (name (deref h (Element i)))) ;;
        Some (if b then latestTag else Element i)
  end.

(** The [else] branch of [if (customTag)]. *)
Definition from_history (inp : Inputs) (w : World) (h : Heap)
    (prefixRegex : regex) (isReleaseBranch isPrerelease : bool)
    (identifier : str) (latestTag : Ref) (latestPrereleaseTag : option nat)
  : option Resolved :=
  previousTag <-
    previousTag h prefixRegex isReleaseBranch latestTag latestPrereleaseTag ;;
  let previousVersion := Semver.parse (strip prefixRegex (name (deref h previousTag))) in
  let h := assign_name h previousTag
             (convertVersionFormat (name (deref h previousTag)) (version_format inp)) in
  match previousVersion with
  | None => Some (Returned h [SetFailed "Could not parse previous tag."])
  | Some previousVersion =>
      let evs := [SetOutput "previous_version" (Semver.version previousVersion);
                  SetOutput "previous_tag" (name (deref h previousTag))] in
      let bump := analyzeCommits w in
      let shouldContinue :=
        if isPrerelease
        then negb (falsy bump && JsString.eqb (default_prerelease_bump inp) "false")
        else negb (falsy bump && JsString.eqb (default_bump inp) "false") in
      if negb shouldContinue then Some (Returned h evs)
      else
        let bump := resolved_bump inp isPrerelease bump in
        let releaseType := releaseType inp isPrerelease previousVersion bump in
        let evs := evs ++ [SetOutput "release_type" (output_value releaseType)] in
        match Semver.inc previousVersion releaseType identifier with
        | None => Some (Returned h (evs ++ [SetFailed "Could not increment version."]))
        | Some incrementedVersion =>
            if negb (JsString.truthy incrementedVersion) then
              Some (Returned h (evs ++ [SetFailed "Could not increment version."]))
            else if negb (isSome (Semver.valid incrementedVersion)) then
              Some (Returned h
                      (evs ++ [SetFailed (incrementedVersion ++ lit " is not a valid semver.")]))
            else Some (NewVersion h evs incrementedVersion)
        end
  end.

(** From the conversion of [newVersion] to the end of [main]. *)
Definition publish (inp : Inputs) (w : World) (h : Heap) (evs : list Event)
    (isReleaseBranch isPreReleaseBranch : bool) (commitRef newVersion : str)
  : Run :=
  let newVersion := convertVersionFormat newVersion (version_format inp) in
  let newTag := convertVersionFormat (tag_prefix inp ++ newVersion) (version_format inp) in
  let evs := evs ++ [SetOutput "new_version" newVersion;
                     SetOutput "new_tag" newTag;
                     SetOutput "changelog" (generateNotes w)] in
  if negb isReleaseBranch && negb isPreReleaseBranch then
    mkRun evs (Some (elements h))
  else if existsb (JsString.eqb newTag) (map name (elements h)) then
    mkRun evs (Some (elements h))
  else if is_true (dry_run inp) then
    mkRun evs (Some (elements h))
  else
    mkRun (evs ++ [CreateTag newTag (is_true (create_annotated_tag inp)) commitRef])
          (Some (elements h)).

(** [main()]; [None] when an exception escapes. *)
Definition main (inp : Inputs) (env : Env) (w : World) : option Run :=
  match GITHUB_REF env with
  | None | Some [] => Some (mkRun [SetFailed "Missing GITHUB_REF."] None)
  | Some ref =>
      let commitRef :=
        if JsString.truthy (commit_sha inp) then Some (commit_sha inp)
        else GITHUB_SHA env in
      match commitRef with
      | None | Some [] =>
          Some (mkRun [SetFailed "Missing commit_sha or GITHUB_SHA."] None)
      | Some commitRef =>
          isReleaseBranch <- isReleaseBranch inp ref ;;
          isPreReleaseBranch <- isPreReleaseBranch inp ref ;;
          let isPrerelease :=
            negb isReleaseBranch && negb (isPullRequest ref) && isPreReleaseBranch in
          let identifier := identifier inp ref in
          prefixRegex <- prefixRegex inp ;;
          validTags <- getValidTags (listTags w) prefixRegex
                         (is_true (fetch_all_tags inp)) (version_format inp) ;;
          let found := getLatestTag validTags prefixRegex (tag_prefix inp) in
          let h := mkHeap validTags
                     (match found with inl _ => None | inr t => Some t end) in
          let latestTag := match found with inl i => Element i | inr _ => Fresh end in
          latestPrereleaseTag <- getLatestPrereleaseTag validTags identifier prefixRegex ;;
          if JsString.truthy (custom_tag inp) then
            Some (publish inp w h [SetOutput "release_type" "custom"]
                          isReleaseBranch isPreReleaseBranch commitRef (custom_tag inp))
          else
            r <- from_history inp w h prefixRegex isReleaseBranch isPrerelease
                   identifier latestTag latestPrereleaseTag ;;
            match r with
            | Returned h evs => Some (mkRun evs (Some (elements h)))
            | NewVersion h evs newVersion =>
                Some (publish inp w h evs isReleaseBranch isPreReleaseBranch
                              commitRef newVersion)
            end
      end
  end.

End Main.

(* ================================================================== *)
(** ** Vocabulary of the properties *)
(* ================================================================== *)

Import RegExp Utils Main.

(** *** Branch patterns *)

(** [e] occurs in [s]. *)
Definition contains (e s : str) : Prop := exists a b, s = a ++ e ++ b.

(** A pattern without any syntax character stands for itself. *)
Definition plain (p : str) : bool :=
  forallb (fun c => negb (is_syntax_char c)) p.

Definition literal (p : str) : regex :=
  fold_right (fun c r => Seq (Chars (CsChar c)) r) Eps p.

(** The reading of the branch patterns that anchors each entry at both ends
    of the branch name: the whole name has to match. *)
Definition matches_whole (r : regex) (s : str) : bool :=
  isSome (run r (fun st => match rest st with [] => Some st | _ :: _ => None end)
              (mkState 0 s [])).

Definition matches_some_whole (patterns branch : str) : option bool :=
  someM (fun pattern => r <- compile pattern ;; Some (matches_whole r branch))
        (JsString.split "," patterns).

(** The texts that a pattern stands for: [denotes r i m a] says that [r]
    stands for the text [m] at the position [i] of the input, where [a] is
    what comes after [m]. The position counts for [^] and what comes after
    for [$]; the groups only mark parts of the text. *)
Inductive denotes : regex -> nat -> str -> str -> Prop :=
| denotes_eps (i : nat) (a : str) : denotes Eps i [] a
| denotes_chars (cs : cset) (c : ascii) (i : nat) (a : str) :
    accepts cs c = true -> denotes (Chars cs) i [c] a
| denotes_bol (a : str) : denotes Bol 0 [] a
| denotes_eol (i : nat) : denotes Eol i [] []
| denotes_seq (r1 r2 : regex) (i : nat) (m1 m2 a : str) :
    denotes r1 i m1 (m2 ++ a) -> denotes r2 (i + List.length m1) m2 a ->
    denotes (Seq r1 r2) i (m1 ++ m2) a
| denotes_left (r1 r2 : regex) (i : nat) (m a : str) :
    denotes r1 i m a -> denotes (Alt r1 r2) i m a
| denotes_right (r1 r2 : regex) (i : nat) (m a : str) :
    denotes r2 i m a -> denotes (Alt r1 r2) i m a
| denotes_none (g : bool) (r : regex) (i : nat) (a : str) :
    denotes (Star g r) i [] a
| denotes_more (g : bool) (r : regex) (i : nat) (m1 m2 a : str) :
    denotes r i m1 (m2 ++ a) -> denotes (Star g r) (i + List.length m1) m2 a ->
    denotes (Star g r) i (m1 ++ m2) a
| denotes_absent (g : bool) (r : regex) (i : nat) (a : str) :
    denotes (Opt g r) i [] a
| denotes_present (g : bool) (r : regex) (i : nat) (m a : str) :
    denotes r i m a -> denotes (Opt g r) i m a
| denotes_group (n : nat) (r : regex) (i : nat) (m a : str) :
    denotes r i m a -> denotes (Group n r) i m a.

(** The pattern stands for a part of [s], anywhere in it. *)
Definition matches_within (r : regex) (s : str) : Prop :=
  exists a m b, s = a ++ m ++ b /\ denotes r (List.length a) m b.

(** *** The catalog *)

(** Precedence of the catalog entries, highest first; [strictly] leaves no
    two neighbours of equal precedence. *)
Definition precedes (strictly : bool) (prefixRegex : regex) (a b : Tag) : Prop :=
  exists c, Semver.rcompare (strip prefixRegex (name a)) (strip prefixRegex (name b)) = Some c
            /\ if strictly then (c < 0)%Z else (c <= 0)%Z.

Fixpoint ordered {A} (R : A -> A -> Prop) (l : list A) : Prop :=
  match l with
  | a :: (b :: _) as l' => R a b /\ ordered R l'
  | _ => True
  end.

Definition descending (strictly : bool) (prefixRegex : regex) (l : list Tag) : Prop :=
  ordered (precedes strictly prefixRegex) l.

(** The tags that [getValidTags] validates: the names are brought to the
    canonical form first, whenever a format is given. *)
Definition listed (listTags : bool -> list Tag) (shouldFetchAllTags : bool)
    (isCustomVersionFormat : str) : list Tag :=
  if JsString.truthy isCustomVersionFormat then
    map (fun tag => with_name tag (convertVersionFormat (name tag) "MAJOR.MINOR.PATCH"))
        (listTags shouldFetchAllTags)
  else listTags shouldFetchAllTags.

(** The order that a comparator gives: [x] comes before [y], or they are of
    equal rank. *)
Definition before {A} (cmp : A -> A -> option Z) (x y : A) : Prop :=
  exists c, cmp x y = Some c /\ (c <= 0)%Z.

Definition heads {A} (cmp : A -> A -> option Z) (y : A) (l : list A) : Prop :=
  match l with [] => True | z :: _ => before cmp y z end.

(** *** The latest pre-release tag *)

(** The pre-release component of a version, as text. *)
Definition prerelease_text (v : str) : option str :=
  option_map (fun ids => JsString.join "." (map Semver.identifier_string ids))
             (Semver.prerelease v).

(** The position of the first element that satisfies [f]. *)
Fixpoint first_index {A} (f : A -> bool) (l : list A) : option nat :=
  match l with
  | [] => None
  | x :: l' => if f x then Some 0 else option_map S (first_index f l')
  end.

(** The test that [getLatestPrereleaseTag] applies to a tag, for a plain
    identifier: the version has a pre-release part, and the identifier
    occurs somewhere in the version. *)
Definition prerelease_candidate (prefixRegex : regex) (identifier : str) (tag : Tag) : Prop :=
  Semver.prerelease (strip prefixRegex (name tag)) <> None
  /\ contains identifier (strip prefixRegex (name tag)).

(** *** Runs *)

Definition is_failure (e : Event) : bool :=
  match e with SetFailed _ => true | _ => false end.

Definition is_creation (e : Event) : bool :=
  match e with CreateTag _ _ _ => true | _ => false end.

Definition heap_of (r : Resolved) : Heap :=
  match r with Returned h _ => h | NewVersion h _ _ => h end.

Definition events_of (r : Resolved) : list Event :=
  match r with Returned _ evs => evs | NewVersion _ evs _ => evs end.

(** The one assignment of [main] to an object it shares with the catalog. *)
Definition rename (format : str) (t : Tag) : Tag :=
  with_name t (convertVersionFormat (name t) format).


(** The rank of a release type among [patch < minor < major]. *)
Definition rank (t : str) : Z := indexOf [lit "patch"; lit "minor"; lit "major"] (Some t).

(** *** The version pattern, piece by piece *)

Definition digit : regex := Chars (CsDigit true).

(** [\d+] *)
Definition digits_re : regex := Seq (Seq digit (Star true digit)) Eps.

(** [(?:\.(\d+))?] with the group numbered [n] *)
Definition component (n : nat) : regex :=
  Opt true (Seq (Chars (CsChar ".")) (Seq (Group n digits_re) Eps)).

Definition any_lazy : regex := Seq (Star false (Chars CsAny)) Eps.
Definition any_greedy : regex := Seq (Star true (Chars CsAny)) Eps.

(** From the first digit on. *)
Definition numeric_part : regex :=
  Seq (Group 2 digits_re)
      (Seq (component 3) (Seq (component 4) (Seq (Group 5 any_greedy) (Seq Eol Eps)))).

(** The input stops a run of the set [cs]. *)
Definition stops (cs : cset) (r : str) : bool :=
  match r with [] => true | c :: _ => negb (accepts cs c) end.

Definition advance (st : state) (d r : str) : state :=
  mkState (pos st + List.length d) r (caps st).

(** The group [n] has not been set. *)
Definition unset (n : nat) (st : state) : bool :=
  forallb (fun e => negb (Nat.eqb (fst e) n)) (caps st).

(** No digit comes next. *)
Definition no_digit_ahead (s : str) : bool :=
  match s with c :: _ => negb (JsString.is_digit c) | [] => true end.

(** No [.] followed by a digit comes next. *)
Definition no_component_ahead (s : str) : bool :=
  match s with
  | c :: x => negb (Ascii.eqb "." c) || no_digit_ahead x
  | [] => true
  end.

Definition no_line_terminator (s : str) : bool := forallb (accepts CsAny) s.

(** *** The parts of a tag, read off directly *)

Fixpoint span_nondigit (s : str) : str * str :=
  match s with
  | c :: s' =>
      if JsString.is_digit c then ([], s)
      else let (a, b) := span_nondigit s' in (c :: a, b)
  | [] => ([], [])
  end.

Definition dot_component (s : str) : option str * str :=
  match s with
  | c :: x =>
      if Ascii.eqb "." c then
        match Semver.span_digits x with
        | ((_ :: _) as d, r) => (Some d, r)
        | _ => (None, s)
        end
      else (None, s)
  | [] => (None, s)
  end.

(** Prefix, major, minor and patch if present, suffix. *)
Definition anatomy (t : str) : option (str * str * option str * option str * str) :=
  let (p, r0) := span_nondigit t in
  match Semver.span_digits r0 with
  | ([], _) => None
  | (d1, r1) =>
      let (c2, r2) := dot_component r1 in
      let (c3, r3) := dot_component r2 in
      Some (p, d1, c2, c3, r3)
  end.

Definition dotted (c : option str) : str :=
  match c with Some d => "."%char :: d | None => [] end.

Definition is_number (d : str) : Prop :=
  d <> [] /\ forallb JsString.is_digit d = true.

(** The component that a format item stands for. *)
Definition version_item (d1 : str) (c2 c3 : option str) (key : str) : str :=
  if JsString.eqb key "MAJOR" then d1
  else if JsString.eqb key "MINOR" then match c2 with Some d => d | None => lit "0" end
  else if JsString.eqb key "PATCH" then match c3 with Some d => d | None => lit "0" end
  else [].



(** *** The states of the matcher on a tag *)

Definition after_component (n : nat) (st : state) : state :=
  match dot_component (rest st) with
  | (Some d, r) => mkState (pos st + S (List.length d)) r ((n, d) :: caps st)
  | (None, _) => st
  end.

Definition after_suffix (st : state) : state :=
  mkState (pos st + List.length (rest st)) [] ((5, rest st) :: caps st).

Definition after_numeric_part (st : state) (d r : str) : state :=
  after_suffix
    (after_component 4
       (after_component 3 (mkState (pos st + List.length d) r ((2, d) :: caps st)))).

Definition consumed (P : ascii -> bool) (st st' : state) : Prop :=
  exists seg, rest st = seg ++ rest st' /\ forallb P seg = true.

Fixpoint atoms_within (P : ascii -> bool) (r : regex) : Prop :=
  match r with
  | Chars cs => forall c, accepts cs c = true -> P c = true
  | Seq r1 r2 | Alt r1 r2 => atoms_within P r1 /\ atoms_within P r2
  | Star _ r1 | Opt _ r1 | Group _ r1 => atoms_within P r1
  | Eps | Bol | Eol => True
  end.

Definition sound (P : ascii -> bool)
    (body : (state -> option state) -> state -> option state) : Prop :=
  forall k st e, body k st = Some e -> exists st', k st' = Some e /\ consumed P st st'.

(** *** The shape of a run *)

Inductive Kind : Type :=
| Failure
| Output (key : str)
| Creation.

Definition kind (e : Event) : Kind :=
  match e with
  | SetFailed _ => Failure
  | SetOutput key _ => Output key
  | CreateTag _ _ _ => Creation
  end.

Definition history : list Kind :=
  [Output "previous_version"; Output "previous_tag"].

Definition announcement : list Kind :=
  [Output "new_version"; Output "new_tag"; Output "changelog"].

(** The sequences of events that a run can end with. *)
Definition shapes : list (list Kind) :=
  [ [Failure];
    history;
    history ++ [Output "release_type"; Failure];
    history ++ [Output "release_type"] ++ announcement;
    history ++ [Output "release_type"] ++ announcement ++ [Creation];
    [Output "release_type"] ++ announcement;
    [Output "release_type"] ++ announcement ++ [Creation] ].

(** The bump that the promotion looks at: on a pre-release branch the
    default stands in for a bump that was not found. *)
Definition bump_or_default (inp : Inputs) (isPrerelease : bool) (bump : option str)
  : option str :=
  if isPrerelease && falsy bump then Some (default_prerelease_bump inp) else bump.

(** The characters of [p], then [tail]. *)
Definition chars_then (p : str) (tail : regex) : regex :=
  fold_right (fun c r => Seq (Chars (CsChar c)) r) tail p.

(** No digit at all. *)
Definition digitless (s : str) : bool :=
  forallb (fun c => negb (JsString.is_digit c)) s.

(** The characters of an identifier, and the dot between identifiers. *)
Definition identifier_char (c : ascii) : bool :=
  Semver.letter_dash_number c || Ascii.eqb c ".".

(** What follows the three numbers of a version: nothing, a pre-release
    part or build metadata. *)
Definition version_tail (tail : str) : Prop :=
  match tail with
  | [] => True
  | c :: r => (c = "-"%char \/ c = "+"%char)
              /\ forallb (fun d => identifier_char d || Ascii.eqb d "+") r = true
  end.

(** The three numbers of a version are natural numbers. *)
Definition nonneg (v : Semver.SemVer) : Prop :=
  (0 <= Semver.major v /\ 0 <= Semver.minor v /\ 0 <= Semver.patch v)%Z.

(** The order of the three numbers of a version. *)
Definition main_le (a b : Semver.SemVer) : Prop :=
  (Semver.compareMain a b <= 0)%Z.

(** The numbers of the version of [b] are at most those of [a]. *)
Definition not_above (prefixRegex : regex) (a b : Tag) : Prop :=
  exists x y, Semver.construct (strip prefixRegex (name a)) = Some x
              /\ Semver.construct (strip prefixRegex (name b)) = Some y
              /\ main_le y x.

(** The test of [getLatestTag]. *)
Definition is_release (prefixRegex : regex) (tag : Tag) : bool :=
  test prefixRegex (name tag)
  && negb (isSome (Semver.prerelease (strip prefixRegex (name tag)))).

(** *** Release rules *)

Definition free_of (c : ascii) (s : str) : bool :=
  forallb (fun d => negb (Ascii.eqb d c)) s.

(** A rule as it is written in [custom_release_rules]: the type, the
    release and, when there is one, the section, with colons between. *)
Definition written (rule : ReleaseRule) : str :=
  type rule ++ lit ":" ++ release rule
  ++ match section rule with Some s => lit ":" ++ s | None => [] end.

(** No field of the rule holds a comma or a colon. *)
Definition writable (rule : ReleaseRule) : bool :=
  forallb (fun field => free_of "," field && free_of ":" field)
          (type rule :: release rule
           :: match section rule with Some s => [s] | None => [] end).

(** The value under the key [k] once the rules have been merged in, from
    the value [v]: the last rule of the type [k] wins. *)
Definition latest {D} (rules : list ReleaseRule) (k : str) (v : D + ReleaseRule)
  : D + ReleaseRule :=
  fold_left (fun v rule => if JsString.eqb (type rule) k then inr rule else v) rules v.

(** The entries that the rules add to a table with the keys [seen]: one for
    each new type, in the order in which the types first appear. *)
Fixpoint added {D} (seen : list str) (rules : list ReleaseRule)
  : JsObject.object (D + ReleaseRule) :=
  match rules with
  | [] => []
  | rule :: rules' =>
      if existsb (JsString.eqb (type rule)) seen then added seen rules'
      else (type rule, latest rules' (type rule) (inr rule))
           :: added (type rule :: seen) rules'
  end.

(** The same inputs with another value of [dry_run]. *)
Definition with_dry_run (d : str) (i : Inputs) : Inputs :=
  mkInputs (default_bump i) (default_prerelease_bump i) (tag_prefix i) (custom_tag i)
           (release_branches i) (pre_release_branches i) (append_to_pre_release_tag i)
           (create_annotated_tag i) d (fetch_all_tags i) (commit_sha i)
           (promote_patch_to_minor i) (version_format i).

(** The run without the creation of the tag. *)
Definition withheld (run : Run) : Run :=
  mkRun (filter (fun e => negb (is_creation e)) (events run)) (catalog run).

(** The default bump of the branch: the one for pre-releases on a
    pre-release branch. *)
Definition default_of (inp : Inputs) (isPrerelease : bool) : str :=
  if isPrerelease then default_prerelease_bump inp else default_bump inp.

(** *** The patterns of [removeDotFromPreReleaseIdentifier] *)

Definition word : regex := Chars (CsWord true).

(** [\w+] *)
Definition words_re : regex := Seq (Seq word (Star true word)) Eps.

(** The hyphen and the identifier. *)
Definition marker (id : str) : str := "-"%char :: id.

(** The pattern of the [add] mode, and the one that takes the dot out. *)
Definition add_re (id : str) : regex :=
  Seq (Group 1 (literal (marker id))) (Seq (Group 2 words_re) Eps).

Definition remove_re (id : str) : regex :=
  Seq (Group 1 (literal (marker id)))
      (Seq (Chars (CsChar ".")) (Seq (Group 2 words_re) Eps)).

(** The word characters that [s] starts with, and what follows them. *)
Fixpoint span_word (s : str) : str * str :=
  match s with
  | c :: s' =>
      if is_word c then let (a, b) := span_word s' in (c :: a, b)
      else ([], s)
  | [] => ([], [])
  end.

(** A pattern character that no quantifier follows. *)
Definition no_quantifier_ahead (p : str) : bool :=
  match p with c :: _ => negb (is_quantifier c) | [] => true end.

(** Digits and dots only: the numbers of a version. *)
Definition numbers_and_dots (s : str) : bool :=
  forallb (fun c => JsString.is_digit c || Ascii.eqb c ".") s.

(** The tag that a run without [custom_tag] takes as the previous one, from
    the catalog that [getValidTags] answered with. *)
Definition previous_of (inp : Inputs) (ref : str) (prefixRegex : regex)
    (validTags : list Tag) : option Ref :=
  isReleaseBranch <- isReleaseBranch inp ref ;;
  latestPrereleaseTag <-
    getLatestPrereleaseTag validTags (identifier inp ref) prefixRegex ;;
  let found := getLatestTag validTags prefixRegex (tag_prefix inp) in
  previousTag (mkHeap validTags (match found with inl _ => None | inr t => Some t end))
              prefixRegex isReleaseBranch
              (match found with inl i => Element i | inr _ => Fresh end)
              latestPrereleaseTag.

(** [commitSha || GITHUB_SHA] *)
Definition commitRef_of (inp : Inputs) (env : Env) : option str :=
  if JsString.truthy (commit_sha inp) then Some (commit_sha inp) else GITHUB_SHA env.

(** *** Tactics *)

Ltac split_cases :=
  repeat match goal with
         | H : Some _ = Some _ |- _ => injection H as H; subst
         | H : None = Some _ |- _ => discriminate H
         | H : context [match ?x with _ => _ end] |- _ => destruct x eqn:?
         end.

Ltac closed_number :=
  try match goal with
      | H : Some _ = Some _ |- _ => injection H as <-; first [discriminate | assumption]
      end.

(** *** Runs used as examples *)

Module Examples.

Definition tag (n : string) : Tag := mkTag n (mkCommit "4f2a9c1").

Definition env (ref : string) : Env := mkEnv (Some (lit ref)) (Some (lit "9b1d3e7")).

(** The defaults of [action.yml]. *)
Definition defaults : Inputs :=
  mkInputs "patch" "prerelease" "v" "" "master,main" "" "" "false" "false" "false" ""
           "false" "MAJOR.MINOR.PATCH".

Definition with_release_branches (b : string) (i : Inputs) : Inputs :=
  mkInputs (default_bump i) (default_prerelease_bump i) (tag_prefix i) (custom_tag i)
           b (pre_release_branches i) (append_to_pre_release_tag i)
           (create_annotated_tag i) (dry_run i) (fetch_all_tags i) (commit_sha i)
           (promote_patch_to_minor i) (version_format i).

Definition with_pre_release_branches (b : string) (i : Inputs) : Inputs :=
  mkInputs (default_bump i) (default_prerelease_bump i) (tag_prefix i) (custom_tag i)
           (release_branches i) b (append_to_pre_release_tag i)
           (create_annotated_tag i) (dry_run i) (fetch_all_tags i) (commit_sha i)
           (promote_patch_to_minor i) (version_format i).

Definition with_default_bump (b : string) (i : Inputs) : Inputs :=
  mkInputs b (default_prerelease_bump i) (tag_prefix i) (custom_tag i)
           (release_branches i) (pre_release_branches i) (append_to_pre_release_tag i)
           (create_annotated_tag i) (dry_run i) (fetch_all_tags i) (commit_sha i)
           (promote_patch_to_minor i) (version_format i).

Definition with_custom_tag (t : string) (i : Inputs) : Inputs :=
  mkInputs (default_bump i) (default_prerelease_bump i) (tag_prefix i) t
           (release_branches i) (pre_release_branches i) (append_to_pre_release_tag i)
           (create_annotated_tag i) (dry_run i) (fetch_all_tags i) (commit_sha i)
           (promote_patch_to_minor i) (version_format i).

Definition with_version_format (f : string) (i : Inputs) : Inputs :=
  mkInputs (default_bump i) (default_prerelease_bump i) (tag_prefix i) (custom_tag i)
           (release_branches i) (pre_release_branches i) (append_to_pre_release_tag i)
           (create_annotated_tag i) (dry_run i) (fetch_all_tags i) (commit_sha i)
           (promote_patch_to_minor i) f.

Definition world (tags : list string) (bump : option string) : World :=
  mkWorld (fun _ => map tag tags) (option_map lit bump) "notes".

(** A table of default changelog rules, each one given by its section, and
    the release types of the commit analyzer. *)
Definition sections : JsObject.object (option str) :=
  [(lit "feat", Some (lit "Features"));
   (lit "fix", Some (lit "Bug Fixes"));
   (lit "chore", None)].

Definition release_types : list str :=
  [lit "major"; lit "premajor"; lit "minor"; lit "preminor";
   lit "patch"; lit "prepatch"; lit "prerelease"].

Definition rule (t r : string) (s : option string) : ReleaseRule :=
  mkReleaseRule t r (option_map lit s).

End Examples.

(* ================================================================== *)
(** ** The bump on a release branch *)
(* ================================================================== *)

Import Examples.

(** C1. On a release branch with [default_bump = patch] and an analyzed bump
    [major], the action releases a major version: of the two release types
    the code keeps the one of the higher rank, not the weaker one. *)
Theorem release_branch_patch_default_major_signal :
  option_map events (main defaults (env "refs/heads/main") (world ["v1.0.0"] (Some "major")))
  = Some [SetOutput "previous_version" "1.0.0";
          SetOutput "previous_tag" "v1.0.0";
          SetOutput "release_type" "major";
          SetOutput "new_version" "2.0.0";
          SetOutput "new_tag" "v2.0.0";
          SetOutput "changelog" "notes";
          CreateTag "v2.0.0" false "9b1d3e7"].
Proof. vm_compute. reflexivity. Qed.

(** What the comparison of [main] selects on a release branch: the release
    type of the higher rank. *)
Lemma releaseType_keeps_higher_rank (inp : Inputs) (v : Semver.SemVer) (bump : str) :
  releaseType inp false v (Some bump)
  = Some (if (rank bump <? rank (default_bump inp))%Z then default_bump inp else bump).
Proof.
  unfold releaseType, rank. simpl negb. cbv iota.
  now destruct (_ <? _)%Z.
Qed.

(* ================================================================== *)
(** ** Patterns without syntax characters *)
(* ================================================================== *)

Section Literal.

Lemma filter_all {A} (l : list A) : filter (fun _ => true) l = l.
Proof. induction l as [|x l IH]; simpl; congruence. Qed.

Lemma clear_nil (st : state) : clear [] st = st.
Proof. destruct st as [p r c]. unfold clear. simpl. now rewrite filter_all. Qed.

Lemma token_plain (c : ascii) (p : str) :
  is_syntax_char c = false -> token (c :: p) = TChar c p.
Proof.
  destruct c as [[] [] [] [] [] [] [] []]; intros H;
    try (vm_compute in H; discriminate H); reflexivity.
Qed.

Lemma quantified_plain (r : regex) (p : str) :
  plain p = true -> quantified r p = (r, p).
Proof.
  destruct p as [|c p]; [reflexivity|]. unfold plain. simpl.
  destruct (is_syntax_char c) eqn:H; [discriminate|]. intros _.
  destruct c as [[] [] [] [] [] [] [] []];
    try (vm_compute in H; discriminate H); reflexivity.
Qed.

Lemma parse_alternative_plain (p : str) :
  forall fuel n, plain p = true -> List.length p < fuel ->
  parse_alternative fuel n p = Some (literal p, n, []).
Proof.
  induction p as [|c p IH]; intros fuel n Hp Hf.
  - destruct fuel; [inversion Hf|]. reflexivity.
  - destruct fuel as [|fuel]; [inversion Hf|].
    simpl in Hp. apply andb_prop in Hp as [Hc Hp].
    apply negb_true_iff in Hc.
    cbn [parse_alternative]. rewrite (token_plain _ _ Hc).
    rewrite (quantified_plain _ _ Hp).
    rewrite (IH fuel n Hp) by (simpl in Hf; lia). reflexivity.
Qed.

Lemma compile_plain (p : str) : plain p = true -> compile p = Some (literal p).
Proof.
  intros Hp. unfold compile.
  replace (2 * List.length p + 2) with (S (2 * List.length p + 1)) by lia.
  cbn [parse_disjunction].
  rewrite (parse_alternative_plain p _ 1 Hp) by lia. reflexivity.
Qed.

Lemma run_literal (p : str) :
  forall k st,
  run (literal p) k st
  = if JsString.startsWith p (rest st)
    then k (mkState (pos st + List.length p) (skipn (List.length p) (rest st)) (caps st))
    else None.
Proof.
  induction p as [|c p IH]; intros k st.
  - simpl. rewrite Nat.add_0_r. now destruct st.
  - simpl literal. cbn [run]. destruct (rest st) as [|d t] eqn:Hr.
    + reflexivity.
    + simpl. destruct (Ascii.eqb c d); simpl; [|reflexivity].
      rewrite IH. simpl. now rewrite Nat.add_succ_r.
Qed.

Lemma startsWith_spec (p s : str) :
  JsString.startsWith p s = true <-> exists b, s = p ++ b.
Proof.
  revert s. induction p as [|c p IH]; intros s; simpl.
  - split; [intros _; now exists s | reflexivity].
  - destruct s as [|d s].
    + split; [discriminate | intros [b H]; discriminate H].
    + rewrite andb_true_iff, Ascii.eqb_eq, IH. split.
      * intros [-> [b ->]]. now exists b.
      * intros [b H]. injection H as -> ->. split; [reflexivity | now exists b].
Qed.

Lemma includes_spec (p s : str) : JsString.includes p s = true <-> contains p s.
Proof.
  induction s as [|d s IH].
  - simpl. rewrite orb_false_r, startsWith_spec. split.
    + intros [b H]. now exists [], b.
    + intros [a [b H]]. destruct a; [now exists b | discriminate H].
  - cbn [JsString.includes]. rewrite orb_true_iff, startsWith_spec, IH. split.
    + intros [[b H] | [a [b H]]].
      * now exists [], b.
      * exists (d :: a), b. now rewrite H.
    + intros [a [b H]]. destruct a as [|x a].
      * left. now exists b.
      * right. injection H as _ H. now exists a, b.
Qed.

Lemma search_literal (p s : str) :
  forall i, isSome (search (literal p) i s) = JsString.includes p s.
Proof.
  induction s as [|d s IH]; intros i.
  - cbn [search JsString.includes]. rewrite run_literal. simpl rest.
    destruct (JsString.startsWith p []); reflexivity.
  - cbn [search JsString.includes]. rewrite run_literal. simpl rest.
    destruct (JsString.startsWith p (d :: s)); [reflexivity|].
    simpl. apply IH.
Qed.

(** Matching a string against a plain pattern is the search for the pattern
    in it. *)
Lemma match_string_plain (s p : str) :
  plain p = true ->
  exists m, match_string s p = Some m /\ isSome m = JsString.includes p s.
Proof.
  intros Hp. unfold match_string. rewrite (compile_plain p Hp).
  eexists. split; [reflexivity|]. apply search_literal.
Qed.

End Literal.

(* ================================================================== *)
(** ** Branch classification *)
(* ================================================================== *)

Lemma someM_total {A} (f : A -> option bool) (g : A -> bool) (l : list A) :
  (forall x, In x l -> exists m, f x = Some m /\ m = g x) ->
  someM f l = Some (existsb g l).
Proof.
  induction l as [|x l IH]; intros H; [reflexivity|].
  simpl. destruct (H x (or_introl eq_refl)) as [m [-> ->]].
  destruct (g x); [reflexivity|]. apply IH. intros y Hy. apply H. now right.
Qed.

Lemma matches_some_plain (patterns branch : str) :
  forallb plain (JsString.split "," patterns) = true ->
  matches_some patterns branch
  = Some (existsb (fun e => JsString.includes e branch) (JsString.split "," patterns)).
Proof.
  intros H. unfold matches_some. apply someM_total. intros e He.
  rewrite forallb_forall in H.
  destruct (match_string_plain branch e (H e He)) as [m [-> Hm]].
  now exists (isSome m).
Qed.

(** The guard against pull requests stands on the pre-release side only. *)
Lemma pull_request_is_no_prerelease (inp : Inputs) (ref : str) (b : bool) :
  isPr ref = true -> isPrerelease inp ref = Some b -> b = false.
Proof.
  unfold isPrerelease, isPullRequest. intros ->.
  destruct (isReleaseBranch inp ref) as [r|]; [|discriminate].
  destruct (isPreReleaseBranch inp ref) as [p|]; [|discriminate].
  intros [= <-]. now rewrite andb_false_r.
Qed.

(** C4. A pull-request ref that a release pattern matches is a release
    branch for [main]: with [release_branches = .*], the run on
    [refs/pull/7/merge] goes down the release path and creates the tag. *)
Theorem pull_request_ref_on_release_path :
  let inp := with_pre_release_branches "next" (with_release_branches ".*" defaults) in
  isPr "refs/pull/7/merge" = true
  /\ isReleaseBranch inp "refs/pull/7/merge" = Some true
  /\ isPreReleaseBranch inp "refs/pull/7/merge" = Some false
  /\ option_map events (main inp (env "refs/pull/7/merge") (world ["v1.0.0"] (Some "minor")))
     = Some [SetOutput "previous_version" "1.0.0";
             SetOutput "previous_tag" "v1.0.0";
             SetOutput "release_type" "minor";
             SetOutput "new_version" "1.1.0";
             SetOutput "new_tag" "v1.1.0";
             SetOutput "changelog" "notes";
             CreateTag "v1.1.0" false "9b1d3e7"].
Proof. vm_compute. repeat split. Qed.

(* ================================================================== *)
(** ** The pre-release identifier *)
(* ================================================================== *)

(** C7. In [add] mode a tag that already has the dot loses it: the first
    pattern wants a word character right after the identifier, does not
    match [-rc.1], and the function goes on to the pattern of [remove]
    mode. *)
Theorem add_mode_strips_existing_dot :
  removeDotFromPreReleaseIdentifier "v1.0.0-rc.1" "rc" add = Some (lit "v1.0.0-rc1")
  /\ removeDotFromPreReleaseIdentifier "v1.0.0-rc.1" "rc" remove = Some (lit "v1.0.0-rc1")
  /\ removeDotFromPreReleaseIdentifier "v1.0.0-rc1" "rc" add = Some (lit "v1.0.0-rc.1").
Proof. vm_compute. repeat split. Qed.

(* ================================================================== *)
(** ** The latest pre-release tag *)
(* ================================================================== *)

Lemma findM_total {A} (f : A -> option bool) (g : A -> bool) (l : list A) :
  (forall x, f x = Some (g x)) -> findM f l = Some (find g l).
Proof.
  intros H. induction l as [|x l IH]; [reflexivity|].
  simpl. rewrite H. destruct (g x); [reflexivity | exact IH].
Qed.

Lemma find_filter_indexed {A} (h g : A -> bool) (l : list A) :
  forall i,
  option_map fst (find (fun it => g (snd it)) (filter (fun it => h (snd it)) (indexed i l)))
  = option_map (Nat.add i) (first_index (fun x => h x && g x) l).
Proof.
  induction l as [|x l IH]; intros i; [reflexivity|].
  simpl. destruct (h x); simpl.
  - destruct (g x); simpl.
    + now rewrite Nat.add_0_r.
    + rewrite IH. destruct (first_index _ l); simpl; [|reflexivity].
      now rewrite Nat.add_succ_r.
  - rewrite IH. destruct (first_index _ l); simpl; [|reflexivity].
    now rewrite Nat.add_succ_r.
Qed.

Lemma first_index_spec {A} (f : A -> bool) (l : list A) :
  match first_index f l with
  | Some i => (exists x, nth_error l i = Some x /\ f x = true)
              /\ forall j y, j < i -> nth_error l j = Some y -> f y = false
  | None => forall y, In y l -> f y = false
  end.
Proof.
  induction l as [|x l IH]; simpl.
  - intros y [].
  - destruct (f x) eqn:Hx.
    + split; [now exists x | intros j y Hj; inversion Hj].
    + destruct (first_index f l) as [i|]; simpl.
      * destruct IH as [[z [Hz Hf]] Hlt]. split; [now exists z|].
        intros [|j] y Hj Hy; simpl in Hy.
        -- now injection Hy as <-.
        -- apply (Hlt j); [lia | exact Hy].
      * intros y [<- | Hy]; [exact Hx | now apply IH].
Qed.

Lemma prerelease_candidate_dec (prefixRegex : regex) (identifier : str) (tag : Tag) :
  isSome (Semver.prerelease (strip prefixRegex (name tag)))
  && JsString.includes identifier (strip prefixRegex (name tag)) = true
  <-> prerelease_candidate prefixRegex identifier tag.
Proof.
  unfold prerelease_candidate. rewrite andb_true_iff, includes_spec.
  destruct (Semver.prerelease _); simpl; intuition congruence.
Qed.

(** C6 (amended). For an identifier without pattern syntax,
    [getLatestPrereleaseTag] returns the first entry of the catalog that has
    a pre-release part and whose version, the name without the prefix,
    contains the identifier anywhere; it returns nothing when there is no
    such entry. *)
Theorem getLatestPrereleaseTag_searches_version
    (tags : list Tag) (identifier : str) (prefixRegex : regex) :
  plain identifier = true ->
  exists r, getLatestPrereleaseTag tags identifier prefixRegex = Some r /\
    match r with
    | Some i =>
        (exists tag, nth_error tags i = Some tag
                     /\ prerelease_candidate prefixRegex identifier tag)
        /\ forall j tag, j < i -> nth_error tags j = Some tag ->
                         ~ prerelease_candidate prefixRegex identifier tag
    | None => forall tag, In tag tags -> ~ prerelease_candidate prefixRegex identifier tag
    end.
Proof.
  intros Hp. unfold getLatestPrereleaseTag.
  rewrite (findM_total _
             (fun it => JsString.includes identifier (strip prefixRegex (name (snd it))))).
  2:{ intros it.
      destruct (match_string_plain (strip prefixRegex (name (snd it))) identifier Hp)
        as [m [-> <-]]. reflexivity. }
  eexists. split; [reflexivity|].
  rewrite (find_filter_indexed
             (fun tag => isSome (Semver.prerelease (strip prefixRegex (name tag))))
             (fun tag => JsString.includes identifier (strip prefixRegex (name tag)))).
  pose proof (first_index_spec
                (fun tag => isSome (Semver.prerelease (strip prefixRegex (name tag)))
                            && JsString.includes identifier (strip prefixRegex (name tag)))
                tags) as H.
  destruct (first_index _ tags) as [i|]; simpl.
  - destruct H as [[tag [Ht Hf]] Hlt]. split.
    + exists tag. split; [exact Ht | now apply prerelease_candidate_dec].
    + intros j tag' Hj Hn Hc. apply prerelease_candidate_dec in Hc.
      rewrite (Hlt j tag' Hj Hn) in Hc. discriminate.
  - intros tag Ht Hc. apply prerelease_candidate_dec in Hc.
    rewrite (H tag Ht) in Hc. discriminate.
Qed.

Lemma getLatestPrereleaseTag_searches_version_witness :
  exists r, getLatestPrereleaseTag [tag "v2.0.0"; tag "v2.0.0-beta.0"; tag "v1.9.0-rc.1"]
              "rc" (regex_literal "^v") = Some r /\
    match r with
    | Some i =>
        (exists t, nth_error [tag "v2.0.0"; tag "v2.0.0-beta.0"; tag "v1.9.0-rc.1"] i = Some t
                   /\ prerelease_candidate (regex_literal "^v") "rc" t)
        /\ forall j t, j < i ->
             nth_error [tag "v2.0.0"; tag "v2.0.0-beta.0"; tag "v1.9.0-rc.1"] j = Some t ->
             ~ prerelease_candidate (regex_literal "^v") "rc" t
    | None => forall t, In t [tag "v2.0.0"; tag "v2.0.0-beta.0"; tag "v1.9.0-rc.1"] ->
                        ~ prerelease_candidate (regex_literal "^v") "rc" t
    end.
Proof.
  apply (getLatestPrereleaseTag_searches_version
           [tag "v2.0.0"; tag "v2.0.0-beta.0"; tag "v1.9.0-rc.1"] "rc" (regex_literal "^v")).
  reflexivity.
Defined.

(** C6 (counterexample). For the identifier [2] the tag [v2.0.0-beta.0] is
    returned: its pre-release component [beta.0] does not contain the
    identifier, its major version does. *)
Lemma identifier_found_in_major_digits :
  getLatestPrereleaseTag [tag "v2.0.0-beta.0"] "2" (regex_literal "^v") = Some (Some 0)
  /\ prerelease_text (strip (regex_literal "^v") "v2.0.0-beta.0") = Some (lit "beta.0")
  /\ JsString.includes "2" "beta.0" = false.
Proof. vm_compute. repeat split. Qed.

(* ================================================================== *)
(** ** The catalog of valid tags *)
(* ================================================================== *)

Section Sort.

Context {A : Type} (cmp : A -> A -> option Z) (ok : A -> Prop).

(** The comparator is defined on the elements at hand, and swapping its
    arguments swaps the sign. *)
Hypothesis cmp_antisym :
  forall x y, ok x -> ok y -> exists c, cmp x y = Some c /\ cmp y x = Some (- c)%Z.

Lemma ordered_cons (y : A) (l : list A) :
  heads cmp y l -> ordered (before cmp) l -> ordered (before cmp) (y :: l).
Proof. destruct l; simpl; auto. Qed.

Lemma ordered_tail (y : A) (l : list A) :
  ordered (before cmp) (y :: l) -> heads cmp y l /\ ordered (before cmp) l.
Proof. destruct l; simpl; auto. Qed.

Lemma insert_ordered (x : A) (l : list A) :
  ok x -> Forall ok l -> ordered (before cmp) l ->
  exists l', insert cmp x l = Some l'
             /\ ordered (before cmp) l'
             /\ Permutation (x :: l) l'
             /\ forall y, before cmp y x -> heads cmp y l -> heads cmp y l'.
Proof.
  intros Hx. induction l as [|z l IH]; intros Hl Ho.
  - exists [x]. simpl. repeat split; auto.
  - inversion Hl as [|? ? Hz Hl']; subst.
    destruct (cmp_antisym x z Hx Hz) as [c [Hxz Hzx]].
    simpl. rewrite Hxz. destruct (c <=? 0)%Z eqn:Hc.
    + exists (x :: z :: l). split; [reflexivity|]. split; [|split].
      * split; [|exact Ho]. exists c. split; [exact Hxz | now apply Z.leb_le].
      * apply Permutation_refl.
      * intros y Hy _. exact Hy.
    + apply ordered_tail in Ho as [Hh Ho].
      destruct (IH Hl' Ho) as [l' [-> [Ho' [Hp Hh']]]].
      exists (z :: l'). split; [reflexivity|]. split; [|split].
      * apply ordered_cons; [|exact Ho'].
        apply Hh'; [|exact Hh].
        exists (- c)%Z. split; [exact Hzx|]. apply Z.leb_gt in Hc. lia.
      * rewrite perm_swap. now apply perm_skip.
      * intros y _ Hy. exact Hy.
Qed.

Lemma sort_ordered (l : list A) :
  Forall ok l ->
  exists l', sort cmp l = Some l' /\ ordered (before cmp) l' /\ Permutation l l'.
Proof.
  induction l as [|x l IH]; intros Hl.
  - exists []. simpl. auto.
  - inversion Hl as [|? ? Hx Hl']; subst.
    destruct (IH Hl') as [s [Hs [Ho Hp]]].
    assert (Hok : Forall ok s).
    { rewrite Forall_forall in *. intros y Hy. apply Hl'.
      now apply (Permutation_in _ (Permutation_sym Hp)). }
    destruct (insert_ordered x s Hx Hok Ho) as [l' [Hi [Ho' [Hp' _]]]].
    exists l'. simpl. rewrite Hs. repeat split; auto.
    now rewrite <- Hp', <- Hp.
Qed.

End Sort.

Section Precedence.

Import Semver.

Lemma Z_of_comparison_opp (c : comparison) :
  Z_of_comparison (CompOpp c) = (- Z_of_comparison c)%Z.
Proof. now destruct c. Qed.

Lemma str_compare_antisym (a b : str) :
  str_compare b a = CompOpp (str_compare a b).
Proof.
  revert b. induction a as [|c a IH]; intros [|d b]; simpl; try reflexivity.
  rewrite (Nat.compare_antisym (nat_of_ascii c) (nat_of_ascii d)).
  destruct (nat_of_ascii c ?= nat_of_ascii d); simpl; auto.
Qed.

Lemma eqb_sym (a b : str) : JsString.eqb a b = JsString.eqb b a.
Proof.
  unfold JsString.eqb.
  destruct (list_eq_dec ascii_dec a b), (list_eq_dec ascii_dec b a); congruence.
Qed.

Lemma identifier_eqb_sym (a b : Identifier) :
  identifier_eqb a b = identifier_eqb b a.
Proof.
  destruct a, b; simpl; auto using Z.eqb_sym, eqb_sym.
Qed.

Lemma compareIdentifiers_antisym (a b : Identifier) :
  compareIdentifiers b a = (- compareIdentifiers a b)%Z.
Proof.
  unfold compareIdentifiers.
  destruct (is_numeric a), (is_numeric b); try reflexivity.
  - now rewrite Z.compare_antisym, Z_of_comparison_opp.
  - now rewrite str_compare_antisym, Z_of_comparison_opp.
Qed.

Lemma compare_identifiers_antisym (a b : list Identifier) :
  compare_identifiers b a = (- compare_identifiers a b)%Z.
Proof.
  revert b. induction a as [|x a IH]; intros [|y b]; simpl; try reflexivity.
  rewrite (identifier_eqb_sym y x).
  destruct (identifier_eqb x y); [apply IH | apply compareIdentifiers_antisym].
Qed.

Lemma comparePre_antisym (a b : SemVer) :
  comparePre b a = (- comparePre a b)%Z.
Proof.
  unfold comparePre.
  destruct (prerelease_of a) as [|x l], (prerelease_of b) as [|y m]; try reflexivity.
  apply compare_identifiers_antisym.
Qed.

Lemma compareMain_antisym (a b : SemVer) :
  compareMain b a = (- compareMain a b)%Z.
Proof.
  unfold compareMain.
  rewrite (Z.compare_antisym (major a)), (Z.compare_antisym (minor a)),
          (Z.compare_antisym (patch a)).
  destruct (major a ?= major b)%Z; simpl; try reflexivity.
  destruct (minor a ?= minor b)%Z; simpl; try reflexivity.
  now destruct (patch a ?= patch b)%Z.
Qed.

Lemma compare_versions_antisym (a b : SemVer) :
  compare_versions b a = (- compare_versions a b)%Z.
Proof.
  unfold compare_versions. rewrite (eqb_sym (version a)).
  destruct (JsString.eqb (version b) (version a)); [reflexivity|].
  rewrite compareMain_antisym, comparePre_antisym.
  destruct (compareMain a b) as [|p|p]; reflexivity.
Qed.

Lemma valid_construct (s : str) :
  isSome (valid s) = true -> exists v, construct s = Some v.
Proof.
  unfold valid, parse. destruct (MAX_LENGTH <? List.length s); [discriminate|].
  destruct (full s); [|discriminate].
  destruct (construct s) as [v|]; [now exists v | discriminate].
Qed.

Lemma rcompare_antisym (a b : str) :
  isSome (valid a) = true -> isSome (valid b) = true ->
  exists c, rcompare a b = Some c /\ rcompare b a = Some (- c)%Z.
Proof.
  intros Ha Hb. apply valid_construct in Ha as [x Hx], Hb as [y Hy].
  unfold rcompare, compare. rewrite Hx, Hy.
  exists (compare_versions y x). split; [reflexivity|].
  now rewrite <- compare_versions_antisym.
Qed.

End Precedence.

(** C5 (amended). The catalog that [getValidTags] returns is in descending
    order of precedence, where neighbours may be of equal precedence, and
    every entry of it matches the prefix pattern and is a valid version once
    the prefix is stripped. It is a rearrangement of the entries that pass
    this validation among the tags of the repository, which are taken under
    the names that the conversion to the canonical form gives them when a
    version format is set. *)
Theorem getValidTags_descending_valid
    (listTags : bool -> list Tag) (prefixRegex : regex)
    (shouldFetchAllTags : bool) (isCustomVersionFormat : str) :
  exists catalog,
    getValidTags listTags prefixRegex shouldFetchAllTags isCustomVersionFormat = Some catalog
    /\ descending false prefixRegex catalog
    /\ Forall (fun tag => test prefixRegex (name tag) = true
                          /\ Semver.valid (strip prefixRegex (name tag)) <> None) catalog
    /\ Permutation
         (filter (is_valid prefixRegex)
                 (listed listTags shouldFetchAllTags isCustomVersionFormat))
         catalog.
Proof.
  unfold getValidTags. fold (listed listTags shouldFetchAllTags isCustomVersionFormat).
  set (tags := listed listTags shouldFetchAllTags isCustomVersionFormat).
  destruct (sort_ordered
              (fun a b => Semver.rcompare (strip prefixRegex (name a))
                                          (strip prefixRegex (name b)))
              (fun tag => is_valid prefixRegex tag = true)) with
    (l := filter (is_valid prefixRegex) tags) as [catalog [Hs [Ho Hp]]].
  - intros x y Hx Hy. unfold is_valid in Hx, Hy.
    apply andb_prop in Hx as [_ Hx], Hy as [_ Hy].
    now apply rcompare_antisym.
  - rewrite Forall_forall. intros tag Ht. now apply filter_In in Ht.
  - exists catalog. repeat split; auto.
    rewrite Forall_forall. intros tag Ht.
    apply (Permutation_in _ (Permutation_sym Hp)), filter_In in Ht as [_ Ht].
    unfold is_valid in Ht. apply andb_prop in Ht as [H1 H2].
    split; [exact H1|]. now destruct (Semver.valid _).
Qed.

(** C5 (counterexample). Two tags that differ in their build metadata are
    both valid and of equal precedence: the catalog holds them side by side,
    and is not strictly descending. *)
Lemma catalog_with_equal_neighbours :
  exists catalog,
    getValidTags (fun _ => [tag "v1.0.0+linux"; tag "v1.0.0+darwin"])
                 (regex_literal "^v") false "MAJOR.MINOR.PATCH" = Some catalog
    /\ ~ descending true (regex_literal "^v") catalog.
Proof.
  eexists. split; [vm_compute; reflexivity|].
  intros [[c [H Hc]] _]. vm_compute in H. injection H as <-. discriminate Hc.
Qed.

(* ================================================================== *)
(** ** The end of a run: outputs and tag creation *)
(* ================================================================== *)

Lemma catalog_publish inp w h evs r p commitRef newVersion :
  catalog (publish inp w h evs r p commitRef newVersion) = Some (elements h).
Proof.
  unfold publish.
  destruct (negb r && negb p); [reflexivity|].
  destruct (existsb _ _); [reflexivity|].
  destruct (is_true _); reflexivity.
Qed.

(** The three outputs are set on every way through [publish], and the tag
    is created on the last one only. *)
Lemma events_publish inp w h evs r p commitRef newVersion :
  let version := convertVersionFormat newVersion (version_format inp) in
  let newTag := convertVersionFormat (tag_prefix inp ++ version) (version_format inp) in
  let outputs := [SetOutput "new_version" version; SetOutput "new_tag" newTag;
                  SetOutput "changelog" (generateNotes w)] in
  events (publish inp w h evs r p commitRef newVersion) = evs ++ outputs
  \/ (events (publish inp w h evs r p commitRef newVersion)
      = (evs ++ outputs) ++ [CreateTag newTag (is_true (create_annotated_tag inp)) commitRef]
      /\ negb r && negb p = false
      /\ existsb (JsString.eqb newTag) (map name (elements h)) = false
      /\ is_true (dry_run inp) = false).
Proof.
  cbv zeta. unfold publish.
  destruct (negb r && negb p); [now left|].
  destruct (existsb _ _); [now left|].
  destruct (is_true (dry_run inp)); [now left|].
  right. auto.
Qed.

Lemma eqb_eq (a b : str) : JsString.eqb a b = true <-> a = b.
Proof. unfold JsString.eqb. destruct (list_eq_dec ascii_dec a b); split; congruence. Qed.

(** The guard of [main] against an existing tag: a new tag that is the name
    of a catalog entry, as the entries stand when the guard runs, is not
    created. *)
Lemma publish_skips_known_tag inp w h evs r p commitRef newVersion :
  In (convertVersionFormat
        (tag_prefix inp ++ convertVersionFormat newVersion (version_format inp))
        (version_format inp))
     (map name (elements h)) ->
  existsb is_creation (events (publish inp w h evs r p commitRef newVersion))
  = existsb is_creation evs.
Proof.
  intros Hin.
  destruct (events_publish inp w h evs r p commitRef newVersion) as [-> | [_ [_ [Hn _]]]].
  - rewrite existsb_app. simpl. now rewrite orb_false_r.
  - exfalso. apply Bool.not_true_iff_false in Hn. apply Hn.
    apply existsb_exists. eexists. split; [exact Hin | now apply eqb_eq].
Qed.

(** C8. With [version_format = MAJOR.MINOR] the repository tag [v1.3] is in
    the catalog under its canonical name [v1.3.0]; the new tag [v1.3] is
    compared with that name, is not recognized, and is created again. *)
Theorem existing_tag_recreated_under_custom_format :
  let inp := with_custom_tag "1.3" (with_version_format "MAJOR.MINOR" defaults) in
  let w := world ["v1.3"] None in
  In (tag "v1.3") (listTags w false)
  /\ getValidTags (listTags w) (regex_literal "^v") false "MAJOR.MINOR"
     = Some [tag "v1.3.0"]
  /\ option_map events (main inp (env "refs/heads/main") w)
     = Some [SetOutput "release_type" "custom";
             SetOutput "new_version" "1.3";
             SetOutput "new_tag" "v1.3";
             SetOutput "changelog" "notes";
             CreateTag "v1.3" false "9b1d3e7"].
Proof. vm_compute. repeat split. now left. Qed.

(** The same run under the default format stops at the guard. *)
Lemma existing_tag_skipped_under_default_format :
  option_map events
    (main (with_custom_tag "1.3.0" defaults) (env "refs/heads/main")
          (world ["v1.3.0"] None))
  = Some [SetOutput "release_type" "custom";
          SetOutput "new_version" "1.3.0";
          SetOutput "new_tag" "v1.3.0";
          SetOutput "changelog" "notes"].
Proof. vm_compute. reflexivity. Qed.

(* ================================================================== *)
(** ** Branches that are neither release nor pre-release *)
(* ================================================================== *)





(* ================================================================== *)
(** ** The version pattern of [convertVersionFormat] *)
(* ================================================================== *)

Lemma version_regex_eq :
  version_regex
  = Seq Bol (Seq (Group 1 any_lazy) (Seq (Group 2 digits_re)
      (Seq (component 3) (Seq (component 4) (Seq (Group 5 any_greedy) (Seq Eol Eps)))))).
Proof. reflexivity. Qed.

Lemma version_regex_compiled : compile version_pattern = Some version_regex.
Proof. reflexivity. Qed.

Lemma advance_nil (st : state) : advance st [] (rest st) = st.
Proof. destruct st. unfold advance. simpl. now rewrite Nat.add_0_r. Qed.

Lemma advance_cons (st : state) (c : ascii) (d r : str) :
  advance (mkState (S (pos st)) (d ++ r) (caps st)) d r = advance st (c :: d) r.
Proof. unfold advance. simpl. now rewrite Nat.add_succ_r. Qed.

Section Quantifiers.

Variable cs : cset.
Variable k : state -> option state.

Lemma run_chars (k' : state -> option state) (st : state) :
  run (Chars cs) k' st
  = match rest st with
    | c :: t => if accepts cs c then k' (mkState (S (pos st)) t (caps st)) else None
    | [] => None
    end.
Proof. reflexivity. Qed.

Lemma run_chars_stops (k' : state -> option state) (st : state) :
  stops cs (rest st) = true -> run (Chars cs) k' st = None.
Proof.
  rewrite run_chars. destruct (rest st) as [|c t]; [reflexivity|].
  simpl. now destruct (accepts cs c).
Qed.

Lemma run_chars_accepts (k' : state -> option state) (st : state) (c : ascii) (t : str) :
  rest st = c :: t -> accepts cs c = true ->
  run (Chars cs) k' st = k' (mkState (S (pos st)) t (caps st)).
Proof. intros Hr Hc. now rewrite run_chars, Hr, Hc. Qed.

Lemma star_loop_step (greedy : bool) (fuel : nat) (st : state) :
  star_loop greedy (run (Chars cs)) [] k (S fuel) st
  = let again :=
      run (Chars cs)
          (fun st' => if pos st <? pos st'
                      then star_loop greedy (run (Chars cs)) [] k fuel st'
                      else None) st in
    if greedy then match again with Some e => Some e | None => k st end
    else match k st with Some e => Some e | None => again end.
Proof. cbn [star_loop]. now rewrite clear_nil. Qed.

(** A greedy run over the characters of [d] goes to their end, when the
    continuation succeeds there. *)
Lemma star_greedy (d r : str) (e : state) :
  forall fuel st,
  rest st = d ++ r -> forallb (accepts cs) d = true -> stops cs r = true ->
  List.length d < fuel ->
  k (advance st d r) = Some e ->
  star_loop true (run (Chars cs)) [] k fuel st = Some e.
Proof.
  induction d as [|c d IH]; intros fuel st Hr Hd Hs Hf Hk;
    (destruct fuel as [|fuel]; [inversion Hf|]); rewrite star_loop_step; cbv zeta.
  - simpl in Hr. rewrite run_chars_stops by now rewrite Hr.
    now rewrite <- Hr, advance_nil in Hk.
  - simpl in Hd. apply andb_prop in Hd as [Hc Hd].
    rewrite (run_chars_accepts _ st c (d ++ r)); trivial. simpl pos.
    replace (pos st <? S (pos st)) with true by (symmetry; apply Nat.ltb_lt; lia).
    rewrite (IH fuel (mkState (S (pos st)) (d ++ r) (caps st)));
      trivial; [simpl in Hf; lia|].
    change (k (advance (mkState (S (pos st)) (d ++ r) (caps st)) d r) = Some e).
    now rewrite (advance_cons st c).
Qed.

(** A lazy run stops at the first place where the continuation succeeds:
    it passes the characters of [p], at which the continuation fails. *)
Lemma star_lazy (bad : str -> bool) (p r : str) (e : state) :
  (forall st', bad (rest st') = true -> k st' = None) ->
  (forall a c b, p = a ++ c :: b -> bad (c :: b ++ r) = true) ->
  forall fuel st,
  rest st = p ++ r -> forallb (accepts cs) p = true ->
  List.length p < fuel ->
  k (advance st p r) = Some e ->
  star_loop false (run (Chars cs)) [] k fuel st = Some e.
Proof.
  intros Hbad. induction p as [|c p IH]; intros Hp fuel st Hr Ha Hf Hk;
    (destruct fuel as [|fuel]; [inversion Hf|]); rewrite star_loop_step; cbv zeta.
  - simpl in Hr. rewrite <- Hr, advance_nil in Hk. now rewrite Hk.
  - rewrite Hbad by (rewrite Hr; apply (Hp [] c p eq_refl)).
    simpl in Ha. apply andb_prop in Ha as [Hc Ha].
    rewrite (run_chars_accepts _ st c (p ++ r)); trivial. simpl pos.
    replace (pos st <? S (pos st)) with true by (symmetry; apply Nat.ltb_lt; lia).
    apply IH; trivial; [|simpl in Hf; lia|].
    + intros a x b ->. apply (Hp (c :: a) x b eq_refl).
    + change (k (advance (mkState (S (pos st)) (p ++ r) (caps st)) p r) = Some e).
      now rewrite (advance_cons st c).
Qed.

(** A lazy run fails when the continuation fails everywhere. *)
Lemma star_lazy_fails (bad : str -> bool) :
  (forall st', bad (rest st') = true -> k st' = None) ->
  forall s fuel st,
  rest st = s -> (forall a b, s = a ++ b -> bad b = true) ->
  star_loop false (run (Chars cs)) [] k fuel st = None.
Proof.
  intros Hbad. induction s as [|c s IH]; intros fuel st Hr Hs.
  - destruct fuel; [simpl|rewrite star_loop_step; cbv zeta].
    + apply Hbad. rewrite Hr. now apply (Hs []).
    + rewrite Hbad by (rewrite Hr; now apply (Hs [])).
      apply run_chars_stops. now rewrite Hr.
  - destruct fuel; [simpl|rewrite star_loop_step; cbv zeta].
    + apply Hbad. rewrite Hr. now apply (Hs []).
    + rewrite Hbad by (rewrite Hr; now apply (Hs [])).
      rewrite run_chars, Hr. destruct (accepts cs c); [|reflexivity].
      simpl pos. destruct (pos st <? S (pos st)); [|reflexivity].
      apply IH; [reflexivity|]. intros a b ->. now apply (Hs (c :: a)).
Qed.

End Quantifiers.

(** The equations of [run], one for each form of pattern. *)
Lemma run_seq r1 r2 k st : run (Seq r1 r2) k st = run r1 (fun st' => run r2 k st') st.
Proof. reflexivity. Qed.

Lemma run_alt r1 r2 k st :
  run (Alt r1 r2) k st
  = match run r1 k st with Some e => Some e | None => run r2 k st end.
Proof. reflexivity. Qed.

Lemma run_group n r k st :
  run (Group n r) k st = run r (fun st' => k (set_capture n st st')) st.
Proof. reflexivity. Qed.

Lemma run_star g r k st :
  run (Star g r) k st
  = star_loop g (run r) (groups_in r) k (S (List.length (rest st))) st.
Proof. reflexivity. Qed.

Lemma run_opt g r k st :
  run (Opt g r) k st = star_loop g (run r) (groups_in r) k 1 st.
Proof. reflexivity. Qed.

Lemma run_eps k st : run Eps k st = k st.
Proof. reflexivity. Qed.

Lemma clear_unset (n : nat) (st : state) : unset n st = true -> clear [n] st = st.
Proof.
  destruct st as [p r c]. unfold unset, clear. simpl. intros H. f_equal.
  induction c as [|e c IH]; [reflexivity|]. simpl in *.
  apply andb_prop in H as [He H].
  rewrite orb_false_r, He. now rewrite IH.
Qed.

Lemma rest_clear (gs : list nat) (st : state) : rest (clear gs st) = rest st.
Proof. reflexivity. Qed.

Lemma firstn_length_app {A} (d r : list A) : firstn (List.length d) (d ++ r) = d.
Proof. induction d as [|x d IH]; simpl; congruence. Qed.

Lemma set_capture_advance (n : nat) (st : state) (d r : str) :
  rest st = d ++ r ->
  set_capture n st (advance st d r)
  = mkState (pos st + List.length d) r ((n, d) :: caps st).
Proof.
  intros H. unfold set_capture, advance. simpl. rewrite H.
  replace (pos st + List.length d - pos st) with (List.length d) by lia.
  now rewrite firstn_length_app.
Qed.

Lemma accepts_digit (c : ascii) : accepts (CsDigit true) c = JsString.is_digit c.
Proof. simpl. now destruct (JsString.is_digit c). Qed.

Lemma stops_digit (r : str) : stops (CsDigit true) r = no_digit_ahead r.
Proof. destruct r; simpl; trivial. now destruct (JsString.is_digit a). Qed.

Lemma forallb_accepts_digit (d : str) :
  forallb (accepts (CsDigit true)) d = forallb JsString.is_digit d.
Proof. induction d as [|c d IH]; simpl; trivial. rewrite IH. now destruct (JsString.is_digit c). Qed.

Lemma run_digits_fails k st :
  no_digit_ahead (rest st) = true -> run digits_re k st = None.
Proof.
  intros H. unfold digits_re, digit. rewrite !run_seq.
  apply run_chars_stops. now rewrite stops_digit.
Qed.

Lemma run_digits k st c d r e :
  rest st = (c :: d) ++ r -> forallb JsString.is_digit (c :: d) = true ->
  no_digit_ahead r = true ->
  k (advance st (c :: d) r) = Some e ->
  run digits_re k st = Some e.
Proof.
  intros Hr Hd Hn Hk. unfold digits_re, digit. rewrite !run_seq.
  simpl in Hd. apply andb_prop in Hd as [Hc Hd].
  rewrite (run_chars_accepts _ _ st c (d ++ r)); trivial;
    [|now rewrite accepts_digit].
  rewrite run_star. simpl groups_in. simpl rest.
  apply (star_greedy (CsDigit true) _ d r).
  - reflexivity.
  - now rewrite forallb_accepts_digit.
  - now rewrite stops_digit.
  - rewrite length_app. lia.
  - rewrite run_eps.
    change (k (advance (mkState (S (pos st)) (d ++ r) (caps st)) d r) = Some e).
    now rewrite (advance_cons st c).
Qed.

Lemma run_component_absent n k st :
  no_component_ahead (rest st) = true -> run (component n) k st = k st.
Proof.
  intros H. unfold component. rewrite run_opt. cbn [star_loop].
  rewrite run_seq, run_chars, rest_clear.
  destruct (rest st) as [|c x]; [reflexivity|].
  cbn [no_component_ahead] in H. cbn [accepts].
  destruct (Ascii.eqb "." c); [|reflexivity]. cbn [negb orb] in H.
  now rewrite run_seq, run_group, run_digits_fails.
Qed.

Lemma run_component_present n k st c d r e :
  unset n st = true ->
  rest st = "."%char :: (c :: d) ++ r ->
  forallb JsString.is_digit (c :: d) = true -> no_digit_ahead r = true ->
  k (mkState (pos st + S (List.length (c :: d))) r ((n, c :: d) :: caps st)) = Some e ->
  run (component n) k st = Some e.
Proof.
  intros Hu Hr Hd Hn Hk. unfold component. rewrite run_opt. cbn [star_loop].
  cbn [groups_in digits_re digit app]. rewrite (clear_unset n st Hu).
  rewrite run_seq.
  rewrite (run_chars_accepts _ _ st "." ((c :: d) ++ r)); trivial.
  rewrite run_seq, run_group.
  rewrite (run_digits _ _ c d r e); [reflexivity | reflexivity | exact Hd | exact Hn |].
  rewrite run_eps, set_capture_advance by reflexivity. cbn [pos caps].
  replace (pos st <? S (pos st) + List.length (c :: d)) with true
    by (symmetry; apply Nat.ltb_lt; lia).
  now rewrite Nat.add_succ_r in Hk.
Qed.

(** The end of the pattern, the greedy group in front of [$], takes the
    rest of the input. *)
Lemma run_suffix st :
  no_line_terminator (rest st) = true ->
  run (Seq (Group 5 any_greedy) (Seq Eol Eps)) Some st
  = Some (mkState (pos st + List.length (rest st)) [] ((5, rest st) :: caps st)).
Proof.
  intros H. rewrite run_seq, run_group. unfold any_greedy.
  rewrite run_seq, run_star. simpl groups_in.
  apply (star_greedy CsAny _ (rest st) []); trivial.
  - now rewrite app_nil_r.
  - lia.
  - rewrite run_eps, set_capture_advance by now rewrite app_nil_r.
    reflexivity.
Qed.

Lemma span_digits_spec (s : str) :
  forall d r, Semver.span_digits s = (d, r) ->
  s = d ++ r /\ forallb JsString.is_digit d = true /\ no_digit_ahead r = true.
Proof.
  induction s as [|c s IH]; intros d r H; simpl in H.
  - injection H as <- <-. auto.
  - destruct (JsString.is_digit c) eqn:Hc.
    + destruct (Semver.span_digits s) as [a b]. injection H as <- <-.
      destruct (IH a b eq_refl) as [-> [Ha Hb]]. simpl. rewrite Hc. auto.
    + injection H as <- <-. simpl. rewrite Hc. auto.
Qed.

Lemma span_nondigit_spec (s : str) :
  forall p r, span_nondigit s = (p, r) ->
  s = p ++ r /\ forallb (fun c => negb (JsString.is_digit c)) p = true
  /\ no_digit_ahead r = negb (JsString.truthy r).
Proof.
  induction s as [|c s IH]; intros p r H; simpl in H.
  - injection H as <- <-. auto.
  - destruct (JsString.is_digit c) eqn:Hc.
    + injection H as <- <-. simpl. rewrite Hc. auto.
    + destruct (span_nondigit s) as [a b]. injection H as <- <-.
      destruct (IH a b eq_refl) as [-> [Ha Hb]]. simpl. rewrite Hc. auto.
Qed.

Lemma dot_component_spec (s : str) :
  match dot_component s with
  | (Some d, r) =>
      exists c d', d = c :: d' /\ s = "."%char :: d ++ r
                   /\ forallb JsString.is_digit d = true /\ no_digit_ahead r = true
  | (None, r) => r = s /\ no_component_ahead s = true
  end.
Proof.
  destruct s as [|c x]; [simpl; auto|]. cbn [dot_component no_component_ahead].
  destruct (Ascii.eqb "." c) eqn:Hc; [|auto].
  apply Ascii.eqb_eq in Hc. subst c.
  destruct (Semver.span_digits x) as [d r] eqn:Hs.
  destruct (span_digits_spec x d r Hs) as [-> [Hd Hr]].
  destruct d as [|c d'].
  - split; [reflexivity|]. simpl in *. exact Hr.
  - eexists _, _. split; [reflexivity|]. auto.
Qed.

Lemma no_line_terminator_app (a b : str) :
  no_line_terminator (a ++ b) = no_line_terminator a && no_line_terminator b.
Proof. apply forallb_app. Qed.

Lemma rest_after_component (n : nat) (st : state) :
  no_line_terminator (rest st) = true ->
  no_line_terminator (rest (after_component n st)) = true.
Proof.
  unfold after_component. intros H.
  pose proof (dot_component_spec (rest st)) as Hs.
  destruct (dot_component (rest st)) as [[d|] r]; [|exact H].
  destruct Hs as [c [d' [_ [Hr _]]]]. rewrite Hr in H. simpl.
  change ("."%char :: d ++ r) with (["."%char] ++ d ++ r) in H.
  rewrite !no_line_terminator_app in H.
  now apply andb_prop in H as [_ H]; apply andb_prop in H as [_ H].
Qed.

Lemma run_component (n : nat) (k : state -> option state) (st e : state) :
  unset n st = true ->
  k (after_component n st) = Some e -> run (component n) k st = Some e.
Proof.
  unfold after_component. intros Hu H.
  pose proof (dot_component_spec (rest st)) as Hs.
  destruct (dot_component (rest st)) as [[d|] r].
  - destruct Hs as [c [d' [-> [Hr [Hd Hn]]]]].
    now apply (run_component_present n k st c d' r e).
  - destruct Hs as [_ Hs]. now rewrite run_component_absent.
Qed.

Lemma run_numeric_part_fails (st : state) :
  no_digit_ahead (rest st) = true -> run numeric_part Some st = None.
Proof.
  intros H. unfold numeric_part. rewrite run_seq, run_group.
  now apply run_digits_fails.
Qed.

Lemma unset_after_component (n m : nat) (st : state) :
  n <> m -> unset m st = true -> unset m (after_component n st) = true.
Proof.
  intros Hn Hu. unfold after_component.
  destruct (dot_component (rest st)) as [[d|] r]; [|exact Hu].
  unfold unset in *. simpl. rewrite Hu, andb_true_r.
  apply negb_true_iff, Nat.eqb_neq. exact Hn.
Qed.

Lemma run_numeric_part (st : state) (c : ascii) (d r : str) :
  unset 3 st = true -> unset 4 st = true ->
  rest st = (c :: d) ++ r -> forallb JsString.is_digit (c :: d) = true ->
  no_digit_ahead r = true -> no_line_terminator r = true ->
  run numeric_part Some st = Some (after_numeric_part st (c :: d) r).
Proof.
  intros U3 U4 Hr Hd Hn Hl. unfold numeric_part. rewrite run_seq, run_group.
  apply (run_digits _ _ c d r); trivial.
  rewrite set_capture_advance by exact Hr.
  rewrite run_seq. apply run_component; [exact U3|].
  rewrite run_seq. apply run_component.
  { apply unset_after_component; [discriminate | exact U4]. }
  apply run_suffix.
  now do 2 apply rest_after_component.
Qed.

Lemma no_digit_ahead_suffix (s : str) :
  forallb (fun c => negb (JsString.is_digit c)) s = true ->
  forall a b, s = a ++ b -> no_digit_ahead b = true.
Proof.
  intros H a b ->. rewrite forallb_app in H. apply andb_prop in H as [_ H].
  destruct b as [|c b]; [reflexivity|]. simpl in *. now apply andb_prop in H as [H _].
Qed.

Lemma run_bol k st : pos st = 0 -> run Bol k st = k st.
Proof. intros H. simpl. now rewrite H. Qed.

(** The whole pattern, run from the start of a tag without line
    terminators: the prefix is what stands before the first digit. *)
Lemma run_version (t : str) :
  no_line_terminator t = true ->
  run version_regex Some (mkState 0 t [])
  = let (p, r0) := span_nondigit t in
    match Semver.span_digits r0 with
    | ([], _) => None
    | (d1, r1) => Some (after_numeric_part (mkState (List.length p) r0 [(1, p)]) d1 r1)
    end.
Proof.
  intros Hl. rewrite version_regex_eq. fold numeric_part.
  rewrite run_seq, run_bol by reflexivity.
  rewrite run_seq, run_group. unfold any_lazy. rewrite run_seq, run_star.
  simpl groups_in. simpl rest.
  destruct (span_nondigit t) as [p r0] eqn:Hp.
  destruct (span_nondigit_spec t p r0 Hp) as [Ht [Hnd Hr0]].
  destruct (Semver.span_digits r0) as [d1 r1] eqn:Hd.
  destruct (span_digits_spec r0 d1 r1 Hd) as [Hr [Hd1 Hr1]].
  assert (Hbad : forall st',
             no_digit_ahead (rest st') = true ->
             run Eps (fun st'' => run numeric_part Some
                                    (set_capture 1 (mkState 0 t []) st'')) st' = None).
  { intros st' H. rewrite run_eps. now apply run_numeric_part_fails. }
  destruct d1 as [|c d].
  - simpl in Hr. subst r1. rewrite Hr1 in Hr0. destruct r0; [|discriminate Hr0].
    rewrite app_nil_r in Ht. subst p.
    apply (star_lazy_fails CsAny _ no_digit_ahead Hbad t); trivial.
    now apply no_digit_ahead_suffix.
  - subst t. rewrite no_line_terminator_app in Hl. apply andb_prop in Hl as [Hlp Hl0].
    apply (star_lazy CsAny _ no_digit_ahead p r0); trivial.
    + intros a x b ->. rewrite forallb_app in Hnd. apply andb_prop in Hnd as [_ Hnd].
      simpl in Hnd. apply andb_prop in Hnd as [Hx _]. exact Hx.
    + rewrite length_app. simpl. lia.
    + rewrite run_eps, set_capture_advance by reflexivity. simpl pos. simpl caps.
      apply (run_numeric_part _ c d r1); trivial.
      rewrite Hr, no_line_terminator_app in Hl0. now apply andb_prop in Hl0 as [_ H].
Qed.

Lemma search_bol (r : regex) (s : str) :
  forall i, 0 < i -> search (Seq Bol r) i s = None.
Proof.
  induction s as [|c s IH]; intros i Hi; cbn [search]; rewrite run_seq;
    (replace (run Bol _ _) with (@None state)
       by (simpl; destruct i; [inversion Hi | reflexivity])).
  - reflexivity.
  - apply IH. lia.
Qed.

Lemma exec_version (t : str) :
  exec version_regex t
  = option_map (fun e => mkMatched 0 (pos e) (caps e))
               (run version_regex Some (mkState 0 t [])).
Proof.
  unfold exec. destruct t as [|c s]; cbn [search];
    destruct (run version_regex Some _); try reflexivity.
  simpl option_map. rewrite version_regex_eq. apply search_bol. lia.
Qed.

(** *** What a match has consumed *)

Lemma consumed_refl P st : consumed P st st.
Proof. now exists []. Qed.

Lemma consumed_trans P a b c : consumed P a b -> consumed P b c -> consumed P a c.
Proof.
  intros [s1 [H1 P1]] [s2 [H2 P2]]. exists (s1 ++ s2).
  rewrite H1, H2, app_assoc, forallb_app, P1, P2. auto.
Qed.

Lemma star_loop_sound P body gs g : sound P body -> forall fuel, sound P (fun k => star_loop g body gs k fuel).
Proof.
  intros Hb fuel. induction fuel as [|fuel IH]; intros k st e H.
  - exists st. split; [exact H | apply consumed_refl].
  - cbn [star_loop] in H.
    assert (Hagain : forall e',
               body (fun st' => if pos st <? pos st'
                                then star_loop g body gs k fuel st' else None)
                    (clear gs st) = Some e' ->
               exists st', k st' = Some e' /\ consumed P st st').
    { intros e' H'. apply Hb in H' as [st1 [H1 C1]].
      destruct (pos st <? pos st1); [|discriminate H1].
      apply IH in H1 as [st2 [H2 C2]]. exists st2. split; [exact H2|].
      apply (consumed_trans P st st1 st2); [exact C1 | exact C2]. }
    destruct g.
    + destruct (body _ (clear gs st)) as [e'|] eqn:Ha.
      * injection H as <-. now apply Hagain.
      * exists st. split; [exact H | apply consumed_refl].
    + destruct (k st) as [e'|] eqn:Hk.
      * injection H as <-. exists st. split; [exact Hk | apply consumed_refl].
      * now apply Hagain.
Qed.

Lemma run_sound P r : atoms_within P r -> sound P (run r).
Proof.
  induction r as [|cs| | |r1 IH1 r2 IH2|r1 IH1 r2 IH2|g r1 IH1|g r1 IH1|n r1 IH1];
    intros Ha k st e H.
  - exists st. split; [exact H | apply consumed_refl].
  - rewrite run_chars in H. destruct (rest st) as [|c t] eqn:Hr; [discriminate H|].
    destruct (accepts cs c) eqn:Hc; [|discriminate H].
    eexists. split; [exact H|]. exists [c]. simpl. rewrite Hr, (Ha c Hc). auto.
  - simpl in H. destruct (pos st =? 0); [|discriminate H].
    exists st. split; [exact H | apply consumed_refl].
  - simpl in H. destruct (rest st); [|discriminate H].
    exists st. split; [exact H | apply consumed_refl].
  - destruct Ha as [Ha1 Ha2]. rewrite run_seq in H.
    apply (IH1 Ha1) in H as [st1 [H1 C1]]. apply (IH2 Ha2) in H1 as [st2 [H2 C2]].
    exists st2. split; [exact H2 | now apply (consumed_trans P st st1 st2)].
  - destruct Ha as [Ha1 Ha2]. rewrite run_alt in H.
    destruct (run r1 k st) as [e'|] eqn:H1.
    + injection H as <-. now apply (IH1 Ha1).
    + now apply (IH2 Ha2).
  - rewrite run_star in H.
    now apply (star_loop_sound P (run r1) (groups_in r1) g (IH1 Ha)) in H.
  - rewrite run_opt in H.
    now apply (star_loop_sound P (run r1) (groups_in r1) g (IH1 Ha)) in H.
  - rewrite run_group in H. apply (IH1 Ha) in H as [st1 [H1 C1]].
    exists (set_capture n st st1). split; [exact H1 | exact C1].
Qed.

Lemma digit_no_line_terminator (c : ascii) :
  accepts (CsDigit true) c = true -> accepts CsAny c = true.
Proof.
  destruct c as [[] [] [] [] [] [] [] []]; intros H;
    try reflexivity; discriminate H.
Qed.

Lemma exec_version_no_line_terminator (t : str) (m : matched) :
  exec version_regex t = Some m -> no_line_terminator t = true.
Proof.
  rewrite exec_version. destruct (run version_regex Some _) as [e|] eqn:H; [|discriminate].
  intros _.
  change (run (Seq (Seq Bol (Seq (Group 1 any_lazy) (Seq (Group 2 digits_re)
                 (Seq (component 3) (Seq (component 4) (Group 5 any_greedy))))))
               (Seq Eol Eps)) Some (mkState 0 t []) = Some e) in H.
  rewrite run_seq in H.
  apply (run_sound (accepts CsAny)) in H as [st' [H [seg [Hs Hp]]]].
  - simpl in H. destruct (rest st'); [|discriminate H].
    simpl in Hs. rewrite app_nil_r in Hs. now subst seg.
  - unfold any_lazy, digits_re, component, any_greedy, digit.
    cbn [atoms_within]. repeat split; intros c Hc; try exact Hc;
      try (apply digit_no_line_terminator; exact Hc);
      cbn [accepts] in Hc; apply Ascii.eqb_eq in Hc; now subst c.
Qed.

(** *** The groups of a match, and the conversion *)

Lemma exec_version_anatomy (t : str) :
  no_line_terminator t = true ->
  match anatomy t with
  | Some (p, d1, c2, c3, s) =>
      exists m, exec version_regex t = Some m
                /\ group m 1 = Some p /\ group m 2 = Some d1
                /\ group m 3 = c2 /\ group m 4 = c3 /\ group m 5 = Some s
  | None => exec version_regex t = None
  end.
Proof.
  intros Hl. rewrite exec_version, (run_version t Hl). unfold anatomy.
  destruct (span_nondigit t) as [p r0].
  destruct (Semver.span_digits r0) as [[|c d] r1]; [reflexivity|].
  unfold after_numeric_part, after_suffix, after_component. simpl rest.
  pose proof (dot_component_spec r1) as H2.
  destruct (dot_component r1) as [[d2|] r2] eqn:E2.
  - simpl rest. pose proof (dot_component_spec r2) as H3.
    destruct (dot_component r2) as [[d3|] r3]; [|destruct H3 as [-> _]];
      simpl; eexists; repeat split.
  - destruct H2 as [-> _]. simpl rest. rewrite E2. simpl.
    eexists; repeat split.
Qed.

Lemma anatomy_spec (t p d1 : str) (c2 c3 : option str) (s : str) :
  anatomy t = Some (p, d1, c2, c3, s) ->
  t = p ++ d1 ++ dotted c2 ++ dotted c3 ++ s
  /\ forallb (fun c => negb (JsString.is_digit c)) p = true
  /\ is_number d1
  /\ (forall d, c2 = Some d -> is_number d)
  /\ (forall d, c3 = Some d -> is_number d)
  /\ no_digit_ahead s = true.
Proof.
  unfold anatomy. destruct (span_nondigit t) as [p' r0] eqn:Hp.
  destruct (span_nondigit_spec t p' r0 Hp) as [-> [Hnd _]].
  destruct (Semver.span_digits r0) as [[|c d] r1] eqn:Hd; [discriminate|].
  destruct (span_digits_spec r0 _ r1 Hd) as [-> [Hd1 Hr1]].
  pose proof (dot_component_spec r1) as H2.
  destruct (dot_component r1) as [c2' r2].
  pose proof (dot_component_spec r2) as H3.
  destruct (dot_component r2) as [c3' r3].
  intros [= <- <- <- <- <-].
  destruct c2' as [d2|], c3' as [d3|].
  - destruct H2 as [x2 [y2 [-> [-> [D2 N2]]]]], H3 as [x3 [y3 [-> [-> [D3 N3]]]]].
    simpl dotted. repeat split; eauto; try discriminate; closed_number.
  - destruct H2 as [x2 [y2 [-> [-> [D2 N2]]]]], H3 as [-> H3].
    simpl dotted. repeat split; eauto; try discriminate; closed_number.
  - destruct H2 as [-> H2], H3 as [x3 [y3 [-> [-> [D3 N3]]]]].
    simpl dotted. repeat split; eauto; try discriminate; closed_number.
  - destruct H2 as [-> H2], H3 as [-> H3].
    simpl dotted. repeat split; eauto; try discriminate; closed_number.
Qed.

Lemma span_nondigit_app (p r : str) :
  forallb (fun c => negb (JsString.is_digit c)) p = true ->
  no_digit_ahead r = negb (JsString.truthy r) ->
  span_nondigit (p ++ r) = (p, r).
Proof.
  intros Hp Hr. induction p as [|c p IH]; simpl.
  - destruct r as [|c r]; [reflexivity|]. simpl in *.
    apply negb_false_iff in Hr. now rewrite Hr.
  - simpl in Hp. apply andb_prop in Hp as [Hc Hp]. apply negb_true_iff in Hc.
    now rewrite Hc, IH.
Qed.

Lemma span_digits_app (d r : str) :
  forallb JsString.is_digit d = true -> no_digit_ahead r = true ->
  Semver.span_digits (d ++ r) = (d, r).
Proof.
  intros Hd Hr. induction d as [|c d IH]; simpl.
  - destruct r as [|c r]; [reflexivity|]. simpl in *.
    apply negb_true_iff in Hr. now rewrite Hr.
  - simpl in Hd. apply andb_prop in Hd as [Hc Hd]. now rewrite Hc, IH.
Qed.

Lemma dot_component_app (d r : str) :
  is_number d -> no_digit_ahead r = true ->
  dot_component ("."%char :: d ++ r) = (Some d, r).
Proof.
  intros [Hn Hd] Hr. cbn [dot_component]. rewrite Ascii.eqb_refl.
  rewrite span_digits_app by assumption. now destruct d.
Qed.

(** The anatomy of a tag in canonical form. *)
Lemma anatomy_canonical (p d1 d2 d3 s : str) :
  forallb (fun c => negb (JsString.is_digit c)) p = true ->
  is_number d1 -> is_number d2 -> is_number d3 -> no_digit_ahead s = true ->
  anatomy (p ++ d1 ++ "."%char :: d2 ++ "."%char :: d3 ++ s)
  = Some (p, d1, Some d2, Some d3, s).
Proof.
  intros Hp [N1 D1] H2 H3 Hs. unfold anatomy.
  rewrite span_nondigit_app; trivial.
  2:{ destruct d1 as [|c d1]; [contradiction|]. simpl in *.
      apply andb_prop in D1 as [-> _]. reflexivity. }
  rewrite span_digits_app by trivial.
  rewrite dot_component_app by trivial.
  rewrite dot_component_app by trivial.
  now destruct d1.
Qed.

Lemma convertVersionFormat_anatomy (t format : str) :
  JsString.truthy format = true -> no_line_terminator t = true ->
  convertVersionFormat t format
  = match anatomy t with
    | Some (p, d1, c2, c3, s) =>
        p ++ JsString.join "." (map (version_item d1 c2 c3) (JsString.split "." format)) ++ s
    | None => []
    end.
Proof.
  intros Hf Hl. unfold convertVersionFormat. rewrite Hf. simpl negb. cbv iota.
  pose proof (exec_version_anatomy t Hl) as H.
  destruct (anatomy t) as [[[[[p d1] c2] c3] s]|]; [|now rewrite H].
  destruct H as [m [-> [G1 [G2 [G3 [G4 G5]]]]]].
  rewrite G1, G2, G3, G4, G5. simpl interpolate. do 3 f_equal.
  apply map_ext. intros key. unfold version_item.
  destruct (JsString.eqb key "MAJOR"); [reflexivity|].
  destruct (JsString.eqb key "MINOR"); [now destruct c2|].
  destruct (JsString.eqb key "PATCH"); [now destruct c3|]. reflexivity.
Qed.

Lemma dot_component_absent (s : str) :
  no_component_ahead s = true -> dot_component s = (None, s).
Proof.
  destruct s as [|c x]; [reflexivity|]. cbn [no_component_ahead dot_component].
  destruct (Ascii.eqb "." c); [|reflexivity]. cbn [negb orb]. intros H.
  pose proof (span_digits_app [] x eq_refl H) as E. simpl in E. now rewrite E.
Qed.

(** The anatomy of a tag put together from its parts. *)
Lemma anatomy_parts (p d1 : str) (c2 c3 : option str) (s : str) :
  forallb (fun c => negb (JsString.is_digit c)) p = true ->
  is_number d1 ->
  (forall d, c2 = Some d -> is_number d) ->
  (forall d, c3 = Some d -> is_number d) ->
  (c2 = None -> c3 = None) ->
  no_digit_ahead s = true ->
  (c3 = None -> no_component_ahead s = true) ->
  anatomy (p ++ d1 ++ dotted c2 ++ dotted c3 ++ s) = Some (p, d1, c2, c3, s).
Proof.
  intros Hp N1 N2 N3 H23 Hs Hc.
  destruct c2 as [d2|], c3 as [d3|]; cbn [dotted app].
  - apply anatomy_canonical; auto.
  - unfold anatomy. rewrite span_nondigit_app; trivial.
    2:{ destruct N1 as [N1 D1]. destruct d1 as [|c d1]; [contradiction|].
        simpl in *. apply andb_prop in D1 as [-> _]. reflexivity. }
    rewrite span_digits_app by (apply N1 || reflexivity).
    rewrite dot_component_app by auto.
    rewrite dot_component_absent by auto.
    destruct N1 as [N1 _]. now destruct d1.
  - discriminate (H23 eq_refl).
  - unfold anatomy. rewrite span_nondigit_app; trivial.
    2:{ destruct N1 as [N1 D1]. destruct d1 as [|c d1]; [contradiction|].
        simpl in *. apply andb_prop in D1 as [-> _]. reflexivity. }
    rewrite span_digits_app by (apply N1 || auto).
    rewrite !dot_component_absent by auto.
    destruct N1 as [N1 _]. now destruct d1.
Qed.

(** *** The round trip *)

Lemma number_no_line_terminator (d : str) :
  forallb JsString.is_digit d = true -> no_line_terminator d = true.
Proof.
  unfold no_line_terminator. rewrite !forallb_forall. intros H c Hc.
  apply digit_no_line_terminator. rewrite accepts_digit. now apply H.
Qed.

Lemma join_three (a b c s : str) :
  JsString.join "." [a; b; c] ++ s = a ++ "."%char :: b ++ "."%char :: c ++ s.
Proof. simpl. now rewrite <- !app_assoc, <- !app_comm_cons, <- app_assoc. Qed.

Lemma join_two (a b s : str) :
  JsString.join "." [a; b] ++ s = a ++ "."%char :: b ++ s.
Proof. simpl. now rewrite <- !app_assoc. Qed.






(* ================================================================== *)
(** ** The events of a run *)
(* ================================================================== *)

Lemma from_history_shape inp w h re irb ipr id latestTag latestPre r :
  from_history inp w h re irb ipr id latestTag latestPre = Some r ->
  match r with
  | Returned _ evs =>
      In (map kind evs) [[Failure]; history; history ++ [Output "release_type"; Failure]]
  | NewVersion _ evs _ => map kind evs = history ++ [Output "release_type"]
  end.
Proof.
  unfold from_history. intros H.
  match type of H with
  | match ?e with _ => _ end = _ => destruct e as [previousTag|]; [|discriminate H]
  end.
  destruct (Semver.parse _) as [previousVersion|].
  2:{ injection H as <-. simpl. auto. }
  cbv iota in H.
  match type of H with
  | (if negb ?c then _ else _) = _ => destruct c
  end.
  2:{ injection H as <-. simpl. auto. }
  simpl negb in H. cbv iota in H.
  destruct (Semver.inc _ _ _) as [v|].
  2:{ injection H as <-. simpl. auto. }
  destruct (negb (JsString.truthy v)).
  { injection H as <-. simpl. auto. }
  destruct (negb (isSome (Semver.valid v))); injection H as <-; simpl; auto.
Qed.

Lemma kinds_publish inp w h evs r p commitRef newVersion :
  let kinds := map kind (events (publish inp w h evs r p commitRef newVersion)) in
  kinds = map kind evs ++ announcement
  \/ kinds = map kind evs ++ announcement ++ [Creation].
Proof.
  cbv zeta.
  destruct (events_publish inp w h evs r p commitRef newVersion) as [-> | [-> _]];
    rewrite ?map_app; simpl; [now left | right].
  now rewrite <- app_assoc.
Qed.

(** X1. Every run of [main] that ends without an exception leaves one of
    seven sequences of events: a failure comes last and stands alone or
    after the outputs set so far, no output is set twice, and at most one
    tag is created, after all the outputs. *)
Theorem run_has_known_shape (inp : Inputs) (env : Env) (w : World) (run : Run) :
  main inp env w = Some run -> In (map kind (events run)) shapes.
Proof.
  unfold main. intros H.
  destruct (GITHUB_REF env) as [[|c ref]|];
    try (injection H as <-; simpl; now left).
  destruct (if JsString.truthy (commit_sha inp) then Some (commit_sha inp)
            else GITHUB_SHA env) as [[|c' commitRef]|];
    try (injection H as <-; simpl; now left).
  destruct (isReleaseBranch inp (c :: ref)) as [irb|]; [|discriminate H].
  destruct (isPreReleaseBranch inp (c :: ref)) as [iprb|]; [|discriminate H].
  destruct (Main.prefixRegex inp) as [re|]; [|discriminate H].
  destruct (getValidTags _ re _ _) as [validTags|]; [|discriminate H].
  destruct (getLatestPrereleaseTag validTags _ re) as [latestPre|]; [|discriminate H].
  destruct (JsString.truthy (custom_tag inp)).
  - injection H as <-.
    match goal with
    | |- context [publish ?i ?w ?h ?e ?r ?p ?c ?v] =>
        destruct (kinds_publish i w h e r p c v) as [-> | ->]
    end; simpl; auto 10.
  - match type of H with
    | match ?e with _ => _ end = _ => destruct e as [r|] eqn:Hr; [|discriminate H]
    end.
    apply from_history_shape in Hr.
    destruct r as [h evs | h evs newVersion]; injection H as <-.
    + simpl events. destruct Hr as [<- | [<- | [<- | []]]]; simpl; auto 10.
    + match goal with
      | |- context [publish ?i ?w ?h ?e ?r ?p ?c ?v] =>
          destruct (kinds_publish i w h e r p c v) as [-> | ->]
      end; rewrite Hr; simpl; auto 10.
Qed.

Lemma run_has_known_shape_witness :
  In (map kind
        [SetOutput "previous_version" "1.0.0";
         SetOutput "previous_tag" "v1.0.0";
         SetOutput "release_type" "minor";
         SetOutput "new_version" "1.1.0";
         SetOutput "new_tag" "v1.1.0";
         SetOutput "changelog" "notes";
         CreateTag "v1.1.0" false "9b1d3e7"])
     shapes.
Proof.
  apply (run_has_known_shape defaults (env "refs/heads/main")
           (world ["v1.0.0"] (Some "minor"))
           (mkRun [SetOutput "previous_version" "1.0.0";
                   SetOutput "previous_tag" "v1.0.0";
                   SetOutput "release_type" "minor";
                   SetOutput "new_version" "1.1.0";
                   SetOutput "new_tag" "v1.1.0";
                   SetOutput "changelog" "notes";
                   CreateTag "v1.1.0" false "9b1d3e7"]
                  (Some [tag "v1.0.0"]))).
  vm_compute. reflexivity.
Defined.

Lemma no_creation (evs : list Event) :
  ~ In Creation (map kind evs) -> existsb is_creation evs = false.
Proof.
  induction evs as [|e evs IH]; [reflexivity|]. simpl. intros H.
  rewrite IH by tauto. destruct e; simpl in *; tauto.
Qed.

Lemma from_history_no_creation inp w h re irb ipr id latestTag latestPre r :
  from_history inp w h re irb ipr id latestTag latestPre = Some r ->
  existsb is_creation (events_of r) = false.
Proof.
  intros H. apply from_history_shape in H. apply no_creation.
  destruct r as [h' evs | h' evs v]; simpl events_of.
  - destruct H as [<- | [<- | [<- | []]]]; simpl; intuition discriminate.
  - rewrite H. simpl. intuition discriminate.
Qed.

Lemma creation_in (evs : list Event) (e : Event) :
  In e evs -> is_creation e = true -> existsb is_creation evs = true.
Proof. intros Hin He. apply existsb_exists. now exists e. Qed.

(** X2. A run creates a tag only as its last step, and only the tag it
    has just announced in [new_tag]: on the commit [commit_sha], or
    [GITHUB_SHA] when that input is empty, annotated as
    [create_annotated_tag] says, with [dry_run] off, on a branch that one of
    the two lists of patterns matches, and under a name that no entry of the
    catalog has. *)
Theorem tag_created_as_announced
    (inp : Inputs) (env : Env) (w : World) (run : Run)
    (newTag : str) (annotated : bool) (commit : str) :
  main inp env w = Some run ->
  In (CreateTag newTag annotated commit) (events run) ->
  (exists evs newVersion,
     events run = evs ++ [SetOutput "new_version" newVersion;
                          SetOutput "new_tag" newTag;
                          SetOutput "changelog" (generateNotes w);
                          CreateTag newTag annotated commit]
     /\ existsb is_creation evs = false)
  /\ commitRef_of inp env = Some commit
  /\ annotated = is_true (create_annotated_tag inp)
  /\ is_true (dry_run inp) = false
  /\ (exists ref, GITHUB_REF env = Some ref
                  /\ (isReleaseBranch inp ref = Some true
                      \/ isPreReleaseBranch inp ref = Some true))
  /\ (exists tags, catalog run = Some tags /\ ~ In newTag (map name tags)).
Proof.
  unfold main, commitRef_of. intros H Hin.
  destruct (GITHUB_REF env) as [[|c ref]|];
    try (injection H as <-; simpl in Hin; intuition discriminate).
  destruct (if JsString.truthy (commit_sha inp) then Some (commit_sha inp)
            else GITHUB_SHA env) as [[|c' commitRef]|];
    try (injection H as <-; simpl in Hin; intuition discriminate).
  destruct (isReleaseBranch inp (c :: ref)) as [irb|] eqn:Hirb; [|discriminate H].
  destruct (isPreReleaseBranch inp (c :: ref)) as [iprb|] eqn:Hiprb; [|discriminate H].
  destruct (Main.prefixRegex inp) as [re|]; [|discriminate H].
  destruct (getValidTags _ re _ _) as [validTags|]; [|discriminate H].
  destruct (getLatestPrereleaseTag validTags _ re) as [latestPre|]; [|discriminate H].
  assert (Hpub : forall h evs newVersion,
             existsb is_creation evs = false ->
             run = publish inp w h evs irb iprb (c' :: commitRef) newVersion ->
             (exists evs' v,
                events run = evs' ++ [SetOutput "new_version" v;
                                      SetOutput "new_tag" newTag;
                                      SetOutput "changelog" (generateNotes w);
                                      CreateTag newTag annotated commit]
                /\ existsb is_creation evs' = false)
             /\ Some (c' :: commitRef) = Some commit
             /\ annotated = is_true (create_annotated_tag inp)
             /\ is_true (dry_run inp) = false
             /\ (irb = true \/ iprb = true)
             /\ (exists tags, catalog run = Some tags /\ ~ In newTag (map name tags))).
  { intros h evs newVersion Hc ->. rewrite catalog_publish.
    destruct (events_publish inp w h evs irb iprb (c' :: commitRef) newVersion)
      as [E | [E [Hb [Hk Hd]]]]; rewrite E in Hin |- *.
    - exfalso. apply in_app_or in Hin as [Hin | Hin].
      + rewrite (creation_in _ _ Hin eq_refl) in Hc. discriminate Hc.
      + simpl in Hin. intuition discriminate.
    - apply in_app_or in Hin as [Hin | Hin].
      + exfalso. apply in_app_or in Hin as [Hin | Hin].
        * rewrite (creation_in _ _ Hin eq_refl) in Hc. discriminate Hc.
        * simpl in Hin. intuition discriminate.
      + destruct Hin as [Hin | []]. injection Hin as <- <- <-.
        split; [|split; [reflexivity|split; [reflexivity|split; [exact Hd|split]]]].
        * exists evs. eexists. rewrite <- app_assoc. split; [reflexivity | exact Hc].
        * destruct irb; [now left|]. destruct iprb; [now right | discriminate Hb].
        * exists (elements h). split; [reflexivity|]. intros Hn.
          apply Bool.not_true_iff_false in Hk. apply Hk.
          apply existsb_exists. eexists. split; [exact Hn | now apply eqb_eq]. }
  assert (Hend : forall h evs newVersion,
             existsb is_creation evs = false ->
             run = publish inp w h evs irb iprb (c' :: commitRef) newVersion ->
             (exists evs' v,
                events run = evs' ++ [SetOutput "new_version" v;
                                      SetOutput "new_tag" newTag;
                                      SetOutput "changelog" (generateNotes w);
                                      CreateTag newTag annotated commit]
                /\ existsb is_creation evs' = false)
             /\ Some (c' :: commitRef) = Some commit
             /\ annotated = is_true (create_annotated_tag inp)
             /\ is_true (dry_run inp) = false
             /\ (exists ref', Some (c :: ref) = Some ref'
                              /\ (isReleaseBranch inp ref' = Some true
                                  \/ isPreReleaseBranch inp ref' = Some true))
             /\ (exists tags, catalog run = Some tags /\ ~ In newTag (map name tags))).
  { intros h evs newVersion Hc E.
    destruct (Hpub h evs newVersion Hc E) as [A [B [C [D [F G]]]]].
    split; [exact A|]. split; [exact B|]. split; [exact C|]. split; [exact D|].
    split; [|exact G]. exists (c :: ref). split; [reflexivity|].
    rewrite Hirb, Hiprb. destruct F as [-> | ->]; auto. }
  destruct (JsString.truthy (custom_tag inp)).
  - injection H as H. eapply Hend; [|symmetry; exact H]. reflexivity.
  - match type of H with
    | match ?e with _ => _ end = _ => destruct e as [r|] eqn:Hr; [|discriminate H]
    end.
    apply from_history_no_creation in Hr.
    destruct r as [h evs | h evs newVersion]; injection H as H; simpl in Hr.
    + exfalso. subst run. simpl in Hin.
      rewrite (creation_in _ _ Hin eq_refl) in Hr. discriminate Hr.
    + exact (Hend _ _ _ Hr (eq_sym H)).
Qed.

Lemma tag_created_as_announced_witness :
  (exists evs newVersion,
     [SetOutput "previous_version" "1.0.0";
      SetOutput "previous_tag" "v1.0.0";
      SetOutput "release_type" "minor";
      SetOutput "new_version" "1.1.0";
      SetOutput "new_tag" "v1.1.0";
      SetOutput "changelog" "notes";
      CreateTag "v1.1.0" false "9b1d3e7"]
     = evs ++ [SetOutput "new_version" newVersion;
               SetOutput "new_tag" "v1.1.0";
               SetOutput "changelog" (generateNotes (world ["v1.0.0"] (Some "minor")));
               CreateTag "v1.1.0" false "9b1d3e7"]
     /\ existsb is_creation evs = false)
  /\ commitRef_of defaults (env "refs/heads/main") = Some (lit "9b1d3e7")
  /\ false = is_true (create_annotated_tag defaults)
  /\ is_true (dry_run defaults) = false
  /\ (exists ref, GITHUB_REF (env "refs/heads/main") = Some ref
                  /\ (isReleaseBranch defaults ref = Some true
                      \/ isPreReleaseBranch defaults ref = Some true))
  /\ (exists tags, Some [tag "v1.0.0"] = Some tags /\ ~ In (lit "v1.1.0") (map name tags)).
Proof.
  apply (tag_created_as_announced defaults (env "refs/heads/main")
           (world ["v1.0.0"] (Some "minor"))
           (mkRun [SetOutput "previous_version" "1.0.0";
                   SetOutput "previous_tag" "v1.0.0";
                   SetOutput "release_type" "minor";
                   SetOutput "new_version" "1.1.0";
                   SetOutput "new_tag" "v1.1.0";
                   SetOutput "changelog" "notes";
                   CreateTag "v1.1.0" false "9b1d3e7"]
                  (Some [tag "v1.0.0"]))
           "v1.1.0" false "9b1d3e7").
  - vm_compute. reflexivity.
  - simpl. do 6 right. left. reflexivity.
Defined.

(** X3. With [custom_tag] set, a run that reports no failure does not look
    at the history: [release_type] is [custom], the new version is the
    custom tag in the configured format whatever the commits say, neither
    [previous_version] nor [previous_tag] is set, and the catalog is left as
    [getValidTags] returned it. *)
Theorem custom_tag_overrides_history
    (inp : Inputs) (env : Env) (w : World) (run : Run) :
  JsString.truthy (custom_tag inp) = true ->
  main inp env w = Some run ->
  existsb is_failure (events run) = false ->
  let newVersion := convertVersionFormat (custom_tag inp) (version_format inp) in
  let newTag := convertVersionFormat (tag_prefix inp ++ newVersion) (version_format inp) in
  (exists creation,
     events run = [SetOutput "release_type" "custom";
                   SetOutput "new_version" newVersion;
                   SetOutput "new_tag" newTag;
                   SetOutput "changelog" (generateNotes w)] ++ creation
     /\ (creation = [] \/ exists annotated commit,
                            creation = [CreateTag newTag annotated commit]))
  /\ exists prefixRegex,
       Main.prefixRegex inp = Some prefixRegex
       /\ catalog run = getValidTags (listTags w) prefixRegex
                          (is_true (fetch_all_tags inp)) (version_format inp).
Proof.
  unfold main. intros Hc H Hf.
  destruct (GITHUB_REF env) as [[|c ref]|];
    try (injection H as <-; discriminate Hf).
  destruct (if JsString.truthy (commit_sha inp) then Some (commit_sha inp)
            else GITHUB_SHA env) as [[|c' commitRef]|];
    try (injection H as <-; discriminate Hf).
  destruct (isReleaseBranch inp (c :: ref)) as [irb|]; [|discriminate H].
  destruct (isPreReleaseBranch inp (c :: ref)) as [iprb|]; [|discriminate H].
  destruct (Main.prefixRegex inp) as [re|]; [|discriminate H].
  destruct (getValidTags _ re _ _) as [validTags|] eqn:Hv; [|discriminate H].
  destruct (getLatestPrereleaseTag validTags _ re) as [latestPre|]; [|discriminate H].
  rewrite Hc in H. injection H as <-. cbv zeta. split.
  - match goal with
    | |- context [publish ?i ?w ?h ?e ?r ?p ?c ?v] =>
        destruct (events_publish i w h e r p c v) as [-> | [-> _]]
    end.
    + exists []. split; [reflexivity | now left].
    + eexists [_]. split; [reflexivity|]. right. eauto.
  - exists re. split; [reflexivity|]. now rewrite catalog_publish.
Qed.

Lemma custom_tag_overrides_history_witness :
  (exists creation,
     [SetOutput "release_type" "custom";
      SetOutput "new_version" "2.5";
      SetOutput "new_tag" "v2.5";
      SetOutput "changelog" "notes";
      CreateTag "v2.5" false "9b1d3e7"]
     = [SetOutput "release_type" "custom";
        SetOutput "new_version" (convertVersionFormat "2.5.1" "MAJOR.MINOR");
        SetOutput "new_tag"
          (convertVersionFormat (lit "v" ++ convertVersionFormat "2.5.1" "MAJOR.MINOR")
                                "MAJOR.MINOR");
        SetOutput "changelog" (lit "notes")] ++ creation
     /\ (creation = []
         \/ exists annotated commit,
              creation
              = [CreateTag (convertVersionFormat
                              (lit "v" ++ convertVersionFormat "2.5.1" "MAJOR.MINOR")
                              "MAJOR.MINOR")
                           annotated commit]))
  /\ exists prefixRegex,
       Main.prefixRegex (with_custom_tag "2.5.1" (with_version_format "MAJOR.MINOR" defaults))
       = Some prefixRegex
       /\ Some [tag "v2.4.0"; tag "v2.3.0"]
          = getValidTags (fun _ => [tag "v2.3"; tag "v2.4"]) prefixRegex false "MAJOR.MINOR".
Proof.
  apply (custom_tag_overrides_history
           (with_custom_tag "2.5.1" (with_version_format "MAJOR.MINOR" defaults))
           (env "refs/heads/main")
           (world ["v2.3"; "v2.4"] (Some "major"))
           (mkRun [SetOutput "release_type" "custom";
                   SetOutput "new_version" "2.5";
                   SetOutput "new_tag" "v2.5";
                   SetOutput "changelog" "notes";
                   CreateTag "v2.5" false "9b1d3e7"]
                  (Some [tag "v2.4.0"; tag "v2.3.0"]))).
  - reflexivity.
  - vm_compute. reflexivity.
  - reflexivity.
Defined.

(** X4. A run without a ref, or without a commit to tag, fails with the
    one message before anything else is looked at: the branch patterns and
    the tag prefix are not compiled, the tags are not listed, and no output
    is set. An empty value counts as a missing one. *)
Theorem missing_ref_or_commit_fails (inp : Inputs) (env : Env) (w : World) :
  (falsy (GITHUB_REF env) = true ->
   main inp env w = Some (mkRun [SetFailed "Missing GITHUB_REF."] None))
  /\ (falsy (GITHUB_REF env) = false -> falsy (commitRef_of inp env) = true ->
      main inp env w = Some (mkRun [SetFailed "Missing commit_sha or GITHUB_SHA."] None)).
Proof.
  unfold main, commitRef_of, falsy. split.
  - destruct (GITHUB_REF env) as [[|c ref]|]; simpl; intros H;
      reflexivity || discriminate H.
  - destruct (GITHUB_REF env) as [[|c ref]|]; simpl; intros H; try discriminate H.
    destruct (if JsString.truthy (commit_sha inp) then Some (commit_sha inp)
              else GITHUB_SHA env) as [[|c' commitRef]|]; simpl; intros H';
      reflexivity || discriminate H'.
Qed.

Lemma missing_ref_or_commit_fails_witness :
  main (with_release_branches "(" defaults) (mkEnv (Some []) (Some (lit "9b1d3e7")))
       (world ["v1.0.0"] None)
  = Some (mkRun [SetFailed "Missing GITHUB_REF."] None)
  /\ main (with_release_branches "(" defaults) (mkEnv (Some (lit "refs/heads/main")) None)
          (world ["v1.0.0"] None)
     = Some (mkRun [SetFailed "Missing commit_sha or GITHUB_SHA."] None).
Proof.
  split.
  - apply (proj1 (missing_ref_or_commit_fails
                    (with_release_branches "(" defaults)
                    (mkEnv (Some []) (Some (lit "9b1d3e7"))) (world ["v1.0.0"] None))).
    reflexivity.
  - apply (proj2 (missing_ref_or_commit_fails
                    (with_release_branches "(" defaults)
                    (mkEnv (Some (lit "refs/heads/main")) None) (world ["v1.0.0"] None)));
      reflexivity.
Defined.

(* ================================================================== *)
(** ** The branch and the identifier *)
(* ================================================================== *)

Lemma startsWith_firstn (p s : str) :
  JsString.startsWith p s = JsString.startsWith p (firstn (List.length p) s).
Proof.
  revert s. induction p as [|c p IH]; intros [|d s]; simpl; trivial.
  now rewrite IH.
Qed.

Lemma includes_false (p s : str) :
  JsString.includes p s = false -> JsString.startsWith p s = false.
Proof. destruct s; simpl; intros H; now apply orb_false_elim in H as [H _]. Qed.

Lemma replace_absent (p r s : str) :
  JsString.includes p s = false -> JsString.replace p r s = s.
Proof.
  induction s as [|c s IH]; intros H.
  - simpl. now rewrite (includes_false _ _ H).
  - cbn [JsString.replace]. rewrite (includes_false _ _ H).
    cbn [JsString.includes] in H. apply orb_false_elim in H as [_ H].
    now rewrite IH.
Qed.

Lemma skipn_length_app {A} (p b : list A) : skipn (List.length p) (p ++ b) = b.
Proof. induction p; simpl; auto. Qed.

Lemma replace_head (p r s : str) :
  JsString.startsWith p s = true ->
  JsString.replace p r s = r ++ skipn (List.length p) s.
Proof. intros H. destruct s; simpl; now rewrite H. Qed.

(** The first occurrence is the one replaced: [p] does not start inside
    [a]. *)
Lemma replace_first (p r a b : str) :
  JsString.includes p (a ++ firstn (List.length p - 1) p) = false ->
  JsString.replace p r (a ++ p ++ b) = a ++ r ++ b.
Proof.
  induction a as [|c a IH]; intros H.
  - simpl app. rewrite replace_head by (apply startsWith_spec; now exists b).
    now rewrite skipn_length_app.
  - assert (Hs : JsString.startsWith p ((c :: a) ++ p ++ b) = false).
    { rewrite startsWith_firstn. rewrite <- (includes_false _ _ H).
      rewrite (startsWith_firstn p ((c :: a) ++ _)). f_equal.
      rewrite !firstn_app. f_equal.
      rewrite firstn_firstn, Nat.min_l by (simpl; lia).
      replace (List.length p - List.length (c :: a) - List.length p) with 0
        by (simpl; lia).
      simpl firstn at 2. now rewrite app_nil_r. }
    simpl app in *. cbn [JsString.replace]. rewrite Hs.
    cbn [JsString.includes] in H. apply orb_false_elim in H as [_ H].
    now rewrite IH.
Qed.

(** X5. [getBranchFromRef] takes the first [refs/heads/] out of the ref and
    nothing else: the ref of a branch gives the branch name, and a ref
    without [refs/heads/] in it, that of a tag or of a pull request, comes
    back as it is. *)
Theorem getBranchFromRef_removes_first_marker (ref : str) :
  (forall a b : str, ref = a ++ lit "refs/heads/" ++ b ->
               JsString.includes "refs/heads/" (a ++ lit "refs/heads") = false ->
               getBranchFromRef ref = a ++ b)
  /\ (JsString.includes "refs/heads/" ref = false -> getBranchFromRef ref = ref).
Proof.
  unfold getBranchFromRef. split.
  - intros a b -> H. now apply (replace_first "refs/heads/" "" a b).
  - apply replace_absent.
Qed.

Lemma getBranchFromRef_removes_first_marker_witness :
  getBranchFromRef "refs/heads/feature/refs/heads/x" = lit "feature/refs/heads/x"
  /\ getBranchFromRef "refs/pull/7/merge" = lit "refs/pull/7/merge".
Proof.
  split.
  - apply (proj1 (getBranchFromRef_removes_first_marker "refs/heads/feature/refs/heads/x")
             [] "feature/refs/heads/x"); reflexivity.
  - apply (proj2 (getBranchFromRef_removes_first_marker "refs/pull/7/merge")).
    reflexivity.
Defined.

Lemma letter_dash_number_plain (c : ascii) :
  Semver.letter_dash_number c = true -> is_syntax_char c = false.
Proof.
  destruct c as [[] [] [] [] [] [] [] []]; intros H;
    try reflexivity; discriminate H.
Qed.

Lemma sanitize_clean (s : str) :
  forallb Semver.letter_dash_number (sanitize s) = true.
Proof.
  induction s as [|c s IH]; [reflexivity|]. simpl. rewrite IH.
  destruct (Semver.letter_dash_number c) eqn:H; [now rewrite H | reflexivity].
Qed.

Lemma clean_plain (s : str) :
  forallb Semver.letter_dash_number s = true -> plain s = true.
Proof.
  unfold plain. rewrite !forallb_forall. intros H c Hc.
  now rewrite (letter_dash_number_plain c (H c Hc)).
Qed.

(** X6. The pre-release identifier that [main] builds consists of letters,
    digits and hyphens only, one for each character of the input or branch
    name it is made from, and a name that is clean already is kept; so the
    identifier is a pattern without syntax, and looking for the latest
    pre-release tag with it cannot throw. *)
Theorem identifier_is_clean (inp : Inputs) (ref : str) :
  forallb Semver.letter_dash_number (identifier inp ref) = true
  /\ List.length (identifier inp ref)
     = List.length (if JsString.truthy (append_to_pre_release_tag inp)
                    then append_to_pre_release_tag inp else currentBranch ref)
  /\ (forall s, forallb Semver.letter_dash_number s = true -> sanitize s = s)
  /\ forall tags prefixRegex,
       getLatestPrereleaseTag tags (identifier inp ref) prefixRegex <> None.
Proof.
  unfold identifier. split; [apply sanitize_clean|].
  split; [apply length_map|]. split.
  - intros s. induction s as [|c s IH]; [reflexivity|]. simpl.
    intros H. apply andb_prop in H as [-> H]. now rewrite IH.
  - intros tags re.
    assert (Hp : plain (sanitize (if JsString.truthy (append_to_pre_release_tag inp)
                                  then append_to_pre_release_tag inp
                                  else currentBranch ref)) = true)
      by apply clean_plain, sanitize_clean.
    set (id := sanitize _) in *. unfold getLatestPrereleaseTag.
    rewrite (findM_total _ (fun it => JsString.includes id (strip re (name (snd it))))).
    + discriminate.
    + intros it.
      destruct (match_string_plain (strip re (name (snd it))) id Hp) as [m [-> <-]].
      reflexivity.
Qed.

Lemma includes_nil (s : str) : JsString.includes [] s = true.
Proof. now destruct s. Qed.

(** X7. An empty entry in a list of branch patterns matches every branch:
    when the entries are free of pattern syntax and one of them is empty, as
    in a list that ends with a comma, the list matches whatever the branch
    is. The input [pre_release_branches] left empty is such a list, and makes
    every ref a pre-release branch. *)
Theorem empty_pattern_matches_every_branch (patterns : str) :
  forallb plain (JsString.split "," patterns) = true ->
  In [] (JsString.split "," patterns) ->
  (forall branch, matches_some patterns branch = Some true)
  /\ (forall inp ref, pre_release_branches inp = patterns ->
                      isPreReleaseBranch inp ref = Some true).
Proof.
  intros Hp Hin.
  assert (H : forall branch, matches_some patterns branch = Some true).
  { intros branch. rewrite (matches_some_plain _ _ Hp). f_equal.
    apply existsb_exists. exists []. split; [exact Hin | apply includes_nil]. }
  split; [exact H|]. intros inp ref E. unfold isPreReleaseBranch. rewrite E. apply H.
Qed.

Lemma empty_pattern_matches_every_branch_witness :
  (forall branch, matches_some "" branch = Some true)
  /\ (forall inp ref, pre_release_branches inp = lit "" ->
                      isPreReleaseBranch inp ref = Some true).
Proof.
  apply (empty_pattern_matches_every_branch "").
  - reflexivity.
  - simpl. now left.
Defined.

(* ================================================================== *)
(** ** The promotion of a patch *)
(* ================================================================== *)

Lemma run_chars_then (p : str) (tail : regex) :
  forall k st,
  run (chars_then p tail) k st
  = if JsString.startsWith p (rest st)
    then run tail k (mkState (pos st + List.length p) (skipn (List.length p) (rest st))
                             (caps st))
    else None.
Proof.
  induction p as [|c p IH]; intros k st.
  - simpl. rewrite Nat.add_0_r. now destruct st.
  - simpl chars_then. cbn [run]. destruct (rest st) as [|d t] eqn:Hr.
    + reflexivity.
    + simpl. destruct (Ascii.eqb c d); simpl; [|reflexivity].
      rewrite IH. simpl. now rewrite Nat.add_succ_r.
Qed.

Lemma patchReg_eq : patchReg = chars_then "patch" (Seq Eol Eps).
Proof. reflexivity. Qed.

(** The pattern matches at a position exactly when [patch] is all that is
    left of the input. *)
Lemma run_patchReg (i : nat) (s : str) :
  run patchReg Some (mkState i s [])
  = if JsString.eqb s "patch" then Some (mkState (i + 5) [] []) else None.
Proof.
  rewrite patchReg_eq, run_chars_then. simpl rest. simpl pos. simpl caps.
  destruct (JsString.startsWith "patch" s) eqn:Hs.
  - apply startsWith_spec in Hs as [b ->]. simpl skipn.
    now destruct b.
  - destruct (JsString.eqb s "patch") eqn:E; [|reflexivity].
    apply eqb_eq in E. subst s. discriminate Hs.
Qed.

Lemma search_patchReg_found (x : str) :
  forall i, search patchReg i (x ++ lit "patch")
            = Some (mkMatched (i + List.length x) (i + List.length x + 5) []).
Proof.
  induction x as [|c x IH]; intros i.
  - simpl app. unfold search. rewrite run_patchReg. simpl.
    now rewrite Nat.add_0_r.
  - simpl app. cbn [search]. rewrite run_patchReg.
    match goal with
      | |- context [JsString.eqb ?a ?b] => destruct (JsString.eqb a b) eqn:E
      end.
    + apply eqb_eq in E. apply (f_equal (@List.length ascii)) in E.
      simpl in E. rewrite length_app in E. simpl in E. lia.
    + rewrite IH. simpl. do 2 f_equal; lia.
Qed.

Lemma search_patchReg_missing (s : str) :
  (forall x, s <> x ++ lit "patch") -> forall i, search patchReg i s = None.
Proof.
  induction s as [|c s IH]; intros H i; cbn [search]; rewrite run_patchReg.
  - reflexivity.
  - match goal with
      | |- context [JsString.eqb ?a ?b] => destruct (JsString.eqb a b) eqn:E
      end.
    + apply eqb_eq in E. destruct (H [] E).
    + apply IH. intros x ->. now apply (H (c :: x)).
Qed.

Lemma replace_patchReg (x : str) :
  replace patchReg "minor" (x ++ lit "patch") = x ++ lit "minor".
Proof.
  unfold replace, exec. rewrite search_patchReg_found. simpl index. simpl lastIndex.
  rewrite firstn_length_app. f_equal.
  replace (List.length x + 5) with (List.length (x ++ lit "patch"))
    by (rewrite length_app; reflexivity).
  now rewrite skipn_all.
Qed.

(** X8. [promote_patch_to_minor] is read as a string: whenever it is not
    empty, the default value [false] included, a bump that ends in [patch]
    has this ending replaced by [minor], and every other bump, a missing one
    included, is left as it is. On a pre-release branch the bump looked at
    is the default pre-release bump when the commits ask for none. *)
Theorem patch_promoted_for_nonempty_input
    (inp : Inputs) (isPrerelease : bool) (bump : option str) :
  JsString.truthy (promote_patch_to_minor inp) = true ->
  (forall x, bump_or_default inp isPrerelease bump = Some (x ++ lit "patch") ->
             resolved_bump inp isPrerelease bump = Some (x ++ lit "minor"))
  /\ ((forall x, to_string (bump_or_default inp isPrerelease bump) <> x ++ lit "patch") ->
      resolved_bump inp isPrerelease bump = bump_or_default inp isPrerelease bump).
Proof.
  intros Hp. unfold resolved_bump. fold (bump_or_default inp isPrerelease bump).
  rewrite Hp. simpl andb. split.
  - intros x ->. simpl to_string. unfold test, exec.
    rewrite search_patchReg_found. now rewrite replace_patchReg.
  - intros H. unfold test, exec. now rewrite search_patchReg_missing.
Qed.

Lemma patch_promoted_for_nonempty_input_witness :
  resolved_bump defaults false (Some (lit "patch")) = Some (lit "minor")
  /\ resolved_bump defaults true None = Some (lit "prerelease").
Proof.
  split.
  - apply (proj1 (patch_promoted_for_nonempty_input defaults false (Some (lit "patch"))
                    eq_refl) []).
    reflexivity.
  - apply (proj2 (patch_promoted_for_nonempty_input defaults true None eq_refl)).
    intros x H. apply (f_equal (@rev ascii)) in H. rewrite rev_app_distr in H.
    discriminate H.
Defined.

(* ================================================================== *)
(** ** More on the conversion of a tag *)
(* ================================================================== *)

Lemma convertVersionFormat_unmatched (t format : str) :
  JsString.truthy format = true -> exec version_regex t = None ->
  convertVersionFormat t format = [].
Proof. intros Hf He. unfold convertVersionFormat. now rewrite Hf, He. Qed.

Lemma exec_version_line_terminator (t : str) :
  no_line_terminator t = false -> exec version_regex t = None.
Proof.
  intros H. destruct (exec version_regex t) as [m|] eqn:E; [|reflexivity].
  apply exec_version_no_line_terminator in E. congruence.
Qed.

Lemma span_nondigit_digitless (p t : str) :
  digitless p = true ->
  span_nondigit (p ++ t) = (p ++ fst (span_nondigit t), snd (span_nondigit t)).
Proof.
  intros Hp. induction p as [|c p IH]; simpl.
  - now destruct (span_nondigit t).
  - simpl in Hp. apply andb_prop in Hp as [Hc Hp]. apply negb_true_iff in Hc.
    now rewrite Hc, (IH Hp).
Qed.

Lemma anatomy_digitless (t : str) : digitless t = true -> anatomy t = None.
Proof.
  intros H. unfold anatomy.
  rewrite <- (app_nil_r t), (span_nondigit_digitless t [] H). reflexivity.
Qed.

(** The anatomy of a tag behind more prefix. *)
Lemma anatomy_prefix (p t : str) :
  digitless p = true ->
  anatomy (p ++ t)
  = match anatomy t with
    | Some (p', d1, c2, c3, s) => Some (p ++ p', d1, c2, c3, s)
    | None => None
    end.
Proof.
  intros Hp. unfold anatomy. rewrite (span_nondigit_digitless p t Hp).
  destruct (span_nondigit t) as [p' r0]. simpl fst. simpl snd.
  destruct (Semver.span_digits r0) as [[|c d] r1]; [reflexivity|].
  destruct (dot_component r1) as [c2 r2]. now destruct (dot_component r2).
Qed.

(** X9. A tag without a digit in it, or with a line break in it, has no
    version to convert: under every format that is not empty,
    [convertVersionFormat] answers with the empty string. *)
Theorem convertVersionFormat_without_version (t format : str) :
  JsString.truthy format = true ->
  digitless t = true \/ no_line_terminator t = false ->
  convertVersionFormat t format = [].
Proof.
  intros Hf H. destruct (no_line_terminator t) eqn:Hl.
  - destruct H as [H | H]; [|discriminate H].
    rewrite (convertVersionFormat_anatomy t format Hf Hl).
    now rewrite (anatomy_digitless t H).
  - apply (convertVersionFormat_unmatched t format Hf).
    now apply exec_version_line_terminator.
Qed.

Lemma convertVersionFormat_without_version_witness :
  convertVersionFormat "latest" "MAJOR.MINOR.PATCH" = [].
Proof.
  apply (convertVersionFormat_without_version "latest" "MAJOR.MINOR.PATCH").
  - reflexivity.
  - left. reflexivity.
Defined.

(** X10. Text without digits and without line breaks put in front of a tag
    that has a digit stays in front of the converted tag: the conversion of
    the prefixed tag is the prefix followed by the conversion of the tag.
    This is how [main] builds [new_tag] from the tag prefix and the new
    version. *)
Theorem convertVersionFormat_keeps_prefix (p t format : str) :
  digitless p = true -> no_line_terminator p = true ->
  digitless t = false -> no_line_terminator t = true ->
  convertVersionFormat (p ++ t) format = p ++ convertVersionFormat t format.
Proof.
  intros Hp Lp Ht Lt.
  destruct (JsString.truthy format) eqn:Hf.
  2:{ unfold convertVersionFormat. now rewrite Hf. }
  rewrite (convertVersionFormat_anatomy t format Hf Lt).
  rewrite (convertVersionFormat_anatomy (p ++ t) format Hf)
    by now rewrite no_line_terminator_app, Lp, Lt.
  rewrite (anatomy_prefix p t Hp).
  destruct (anatomy t) as [[[[[p' d1] c2] c3] s]|] eqn:E.
  - now rewrite <- app_assoc.
  - exfalso. unfold anatomy in E.
    destruct (span_nondigit t) as [p' r0] eqn:Hs.
    destruct (span_nondigit_spec t p' r0 Hs) as [-> [Hd Hr0]].
    destruct (Semver.span_digits r0) as [[|c d] r1] eqn:Hr.
    + destruct (span_digits_spec r0 [] r1 Hr) as [-> [_ Hr1]]. simpl in Hr0.
      rewrite Hr1 in Hr0. destruct r1; [|discriminate Hr0].
      rewrite app_nil_r in Ht. unfold digitless in Ht. congruence.
    + destruct (dot_component r1) as [c2 r2]. destruct (dot_component r2). discriminate E.
Qed.

Lemma convertVersionFormat_keeps_prefix_witness :
  convertVersionFormat (lit "release/v" ++ lit "1.4.2-rc.0") "MAJOR.MINOR"
  = lit "release/v" ++ convertVersionFormat "1.4.2-rc.0" "MAJOR.MINOR".
Proof.
  apply (convertVersionFormat_keeps_prefix "release/v" "1.4.2-rc.0" "MAJOR.MINOR");
    reflexivity.
Defined.

(** X11. The conversion to [MAJOR.MINOR.PATCH] is idempotent: a name that
    [getValidTags] has brought to the canonical form is not changed by a
    second conversion. *)
Theorem canonical_conversion_idempotent (t : str) :
  convertVersionFormat (convertVersionFormat t "MAJOR.MINOR.PATCH") "MAJOR.MINOR.PATCH"
  = convertVersionFormat t "MAJOR.MINOR.PATCH".
Proof.
  destruct (no_line_terminator t) eqn:Hl.
  2:{ rewrite (convertVersionFormat_without_version t) by auto. reflexivity. }
  rewrite (convertVersionFormat_anatomy t "MAJOR.MINOR.PATCH" eq_refl Hl).
  destruct (anatomy t) as [[[[[p d1] c2] c3] s]|] eqn:E; [|reflexivity].
  destruct (anatomy_spec t p d1 c2 c3 s E) as [Ht [Hp [N1 [N2 [N3 Hs]]]]].
  change (map (version_item d1 c2 c3) (JsString.split "." "MAJOR.MINOR.PATCH"))
    with [d1; match c2 with Some d => d | None => lit "0" end;
          match c3 with Some d => d | None => lit "0" end].
  rewrite join_three.
  set (x2 := match c2 with Some d => d | None => lit "0" end).
  set (x3 := match c3 with Some d => d | None => lit "0" end).
  assert (X2 : is_number x2).
  { subst x2. destruct c2 as [d|]; [now apply N2 | split; [discriminate | reflexivity]]. }
  assert (X3 : is_number x3).
  { subst x3. destruct c3 as [d|]; [now apply N3 | split; [discriminate | reflexivity]]. }
  assert (Hparts : no_line_terminator p = true /\ no_line_terminator s = true).
  { rewrite Ht in Hl. rewrite !no_line_terminator_app in Hl.
    repeat (apply andb_prop in Hl as [? Hl]). auto. }
  destruct Hparts as [Lp Ls].
  rewrite convertVersionFormat_anatomy; [|reflexivity|].
  2:{ change (no_line_terminator
                (p ++ d1 ++ ["."%char] ++ x2 ++ ["."%char] ++ x3 ++ s) = true).
      rewrite !no_line_terminator_app, Lp, Ls.
      rewrite (number_no_line_terminator d1), (number_no_line_terminator x2),
              (number_no_line_terminator x3); [reflexivity | apply X3 | apply X2 | apply N1]. }
  rewrite anatomy_canonical by assumption.
  change (map (version_item d1 (Some x2) (Some x3)) (JsString.split "." "MAJOR.MINOR.PATCH"))
    with [d1; x2; x3].
  now rewrite join_three.
Qed.

(* ================================================================== *)
(** ** The text of a valid version *)
(* ================================================================== *)

Section Shape.

Import Semver.

Lemma cut_spec (c : ascii) (s : str) :
  s = fst (cut c s) ++ match snd (cut c s) with Some b => c :: b | None => [] end.
Proof.
  induction s as [|d s IH]; [reflexivity|]. simpl.
  destruct (Ascii.eqb d c) eqn:E.
  - apply Ascii.eqb_eq in E. now subst d.
  - destruct (cut c s) as [a b]. simpl in *. now rewrite <- IH.
Qed.

Lemma split_cons (c : ascii) (s : str) : exists w ws, JsString.split c s = w :: ws.
Proof.
  induction s as [|d s [w [ws IH]]]; simpl; eauto.
  destruct (Ascii.eqb d c); eauto. rewrite IH. eauto.
Qed.

Lemma join_cons (sep w : str) (ws : list str) :
  ws <> [] -> JsString.join sep (w :: ws) = w ++ sep ++ JsString.join sep ws.
Proof. now destruct ws. Qed.

Lemma join_split (c : ascii) (s : str) : JsString.join [c] (JsString.split c s) = s.
Proof.
  induction s as [|d s IH]; [reflexivity|]. simpl JsString.split.
  destruct (split_cons c s) as [w [ws E]]. rewrite E in *.
  destruct (Ascii.eqb d c) eqn:Hd.
  - apply Ascii.eqb_eq in Hd. subst d.
    rewrite join_cons by discriminate. cbn [app]. now rewrite IH.
  - destruct ws as [|w' ws].
    + simpl in *. now rewrite IH.
    + rewrite (join_cons [c] (d :: w)) by discriminate.
      rewrite (join_cons [c] w) in IH by discriminate. cbn [app] in *. now rewrite IH.
Qed.

Lemma all_digits_number (x : str) : all_digits x = true -> is_number x.
Proof.
  unfold all_digits. intros H. apply andb_prop in H as [Ht Hd].
  split; [now destruct x | exact Hd].
Qed.

Lemma numeric_identifier_number (x : str) : numeric_identifier x = true -> is_number x.
Proof.
  unfold numeric_identifier. intros H. apply andb_prop in H as [H _].
  now apply all_digits_number.
Qed.

Lemma digit_letter_dash_number (c : ascii) :
  JsString.is_digit c = true -> letter_dash_number c = true.
Proof. unfold letter_dash_number. now intros ->. Qed.

Lemma prerelease_identifier_chars (x : str) :
  prerelease_identifier x = true -> forallb letter_dash_number x = true.
Proof.
  unfold prerelease_identifier, numeric_identifier, build_identifier, all_digits.
  intros H. apply orb_prop in H as [H | H].
  - apply andb_prop in H as [H _]. apply andb_prop in H as [_ H].
    rewrite forallb_forall in *. intros c Hc. now apply digit_letter_dash_number, H.
  - apply andb_prop in H as [H _]. now apply andb_prop in H as [_ H].
Qed.

Lemma build_identifier_chars (x : str) :
  build_identifier x = true -> forallb letter_dash_number x = true.
Proof. unfold build_identifier. intros H. now apply andb_prop in H as [_ H]. Qed.

Lemma join_identifier_chars (ids : list str) :
  forallb (forallb letter_dash_number) ids = true ->
  forallb identifier_char (JsString.join "." ids) = true.
Proof.
  assert (Hw : forall w, forallb letter_dash_number w = true ->
                         forallb identifier_char w = true).
  { intros w. rewrite !forallb_forall. intros H c Hc.
    unfold identifier_char. now rewrite (H c Hc). }
  induction ids as [|w ws IH]; [reflexivity|]. intros H. cbn [forallb] in H.
  apply andb_prop in H as [H1 H2]. destruct ws as [|w' ws].
  - simpl. now apply Hw.
  - rewrite join_cons by discriminate. rewrite !forallb_app, (Hw w H1), (IH H2).
    reflexivity.
Qed.

Lemma forallb_weaken {A} (f g : A -> bool) (l : list A) :
  (forall x, f x = true -> g x = true) -> forallb f l = true -> forallb g l = true.
Proof. rewrite !forallb_forall. auto. Qed.

(** A string that the pattern of the package accepts: an optional [v], three
    numbers between dots, and a tail. *)
Lemma full_shape (s : str) (v : SemVer) :
  full s = Some v ->
  exists o x y z tail,
    s = o ++ x ++ "."%char :: y ++ "."%char :: z ++ tail
    /\ (o = [] \/ o = lit "v")
    /\ is_number x /\ is_number y /\ is_number z
    /\ version_tail tail.
Proof.
  unfold full.
  set (s' := match s with "v"%char :: r => r | _ => s end).
  assert (Hs : exists o, s = o ++ s' /\ (o = [] \/ o = lit "v")).
  { subst s'. destruct s as [|c r]; [exists []; auto|].
    destruct (Ascii.eqb c "v") eqn:E.
    - apply Ascii.eqb_eq in E. subst c. exists (lit "v"). auto.
    - exists []. split; [|now left].
      destruct c as [[] [] [] [] [] [] [] []]; try reflexivity; discriminate E. }
  destruct Hs as [o [Hs Ho]].
  pose proof (cut_spec "+" s') as Hb. destruct (cut "+" s') as [main_pre b].
  pose proof (cut_spec "-" main_pre) as Hp. destruct (cut "-" main_pre) as [main p].
  simpl fst in *. simpl snd in *.
  pose proof (join_split "." main) as Hm.
  destruct (JsString.split "." main) as [|x [|y [|z [|? ?]]]]; try discriminate.
  match goal with
  | |- (if ?c then _ else _) = _ -> _ => destruct c eqn:Hc; [|discriminate]
  end.
  intros _.
  repeat (apply andb_prop in Hc as [Hc ?]).
  exists o, x, y, z,
    (match p with Some p' => "-"%char :: p' | None => [] end
     ++ match b with Some b' => "+"%char :: b' | None => [] end).
  split.
  { rewrite Hs, Hb, Hp, <- Hm. simpl. repeat (rewrite <- app_assoc; simpl).
    reflexivity. }
  split; [exact Ho|].
  split; [split; [now destruct x | assumption]|].
  split; [now apply numeric_identifier_number|].
  split; [now apply numeric_identifier_number|].
  assert (Hpre : forall p', p = Some p' -> forallb identifier_char p' = true).
  { intros p' ->. rewrite <- (join_split "." p'). apply join_identifier_chars.
    eapply forallb_weaken; [|eassumption]. apply prerelease_identifier_chars. }
  assert (Hbld : forall b', b = Some b' -> forallb identifier_char b' = true).
  { intros b' ->. rewrite <- (join_split "." b'). apply join_identifier_chars.
    eapply forallb_weaken; [|eassumption]. apply build_identifier_chars. }
  assert (Hor : forall l, forallb identifier_char l = true ->
                          forallb (fun d => identifier_char d || Ascii.eqb d "+") l = true).
  { intros l. apply forallb_weaken. now intros c ->. }
  destruct p as [p'|], b as [b'|]; simpl.
  - split; [now left|]. rewrite forallb_app. simpl.
    rewrite (Hor p' (Hpre p' eq_refl)), (Hor b' (Hbld b' eq_refl)).
    reflexivity.
  - split; [now left|]. rewrite app_nil_r. apply Hor, Hpre. reflexivity.
  - split; [now right|]. apply Hor, Hbld. reflexivity.
  - exact I.
Qed.

End Shape.

(* ================================================================== *)
(** ** A tag prefix without pattern syntax *)
(* ================================================================== *)

Lemma assertion_plain (r : regex) (p : str) :
  plain p = true -> assertion r p = Some (r, p).
Proof.
  destruct p as [|c p]; [reflexivity|]. unfold plain. simpl.
  destruct (is_syntax_char c) eqn:H; [discriminate|]. intros _.
  destruct c as [[] [] [] [] [] [] [] []];
    try (vm_compute in H; discriminate H); reflexivity.
Qed.

Lemma compile_anchored (p : str) :
  plain p = true -> compile ("^"%char :: p) = Some (Seq Bol (literal p)).
Proof.
  intros Hp. unfold compile.
  replace (2 * List.length ("^"%char :: p) + 2) with (S (S (2 * List.length p + 2)))
    by (simpl; lia).
  cbn [parse_disjunction]. cbn [parse_alternative token].
  rewrite (assertion_plain Bol p Hp).
  rewrite (parse_alternative_plain p _ 1 Hp) by lia. reflexivity.
Qed.

Lemma exec_anchored (p s : str) :
  exec (Seq Bol (literal p)) s
  = if JsString.startsWith p s then Some (mkMatched 0 (List.length p) []) else None.
Proof.
  unfold exec.
  assert (H : run (Seq Bol (literal p)) Some (mkState 0 s [])
              = if JsString.startsWith p s
                then Some (mkState (List.length p) (skipn (List.length p) s) [])
                else None).
  { rewrite run_seq, run_bol by reflexivity. now rewrite run_literal. }
  destruct s as [|c s]; cbn [search]; rewrite H;
    destruct (JsString.startsWith p _); try reflexivity.
  apply search_bol. lia.
Qed.

(** The pattern [^p] for a [p] without pattern syntax. *)
Lemma plain_prefix_literal_pattern (p : str) :
  plain p = true ->
  exists prefixRegex,
    compile ("^"%char :: p) = Some prefixRegex
    /\ (forall n, test prefixRegex n = JsString.startsWith p n)
    /\ (forall n, strip prefixRegex n
                  = if JsString.startsWith p n then skipn (List.length p) n else n).
Proof.
  intros Hp. exists (Seq Bol (literal p)).
  split; [now apply compile_anchored|]. split.
  - intros n. unfold test. rewrite exec_anchored.
    now destruct (JsString.startsWith _ n).
  - intros n. unfold strip, replace. rewrite exec_anchored.
    now destruct (JsString.startsWith p n).
Qed.

Lemma startsWith_app (p v : str) : JsString.startsWith p (p ++ v) = true.
Proof. apply startsWith_spec. now exists v. Qed.

(** X12. When the tag prefix has no pattern syntax in it, the pattern that
    [main] builds from it says what it reads: a name passes the test exactly
    when it starts with the prefix, stripping takes the prefix off the front
    of such a name and nothing else, and a name that does not start with the
    prefix is left as it is. *)
Theorem plain_prefix_is_literal (inp : Inputs) :
  plain (tag_prefix inp) = true ->
  exists prefixRegex,
    Main.prefixRegex inp = Some prefixRegex
    /\ (forall n, test prefixRegex n = JsString.startsWith (tag_prefix inp) n)
    /\ (forall v, strip prefixRegex (tag_prefix inp ++ v) = v)
    /\ (forall n, JsString.startsWith (tag_prefix inp) n = false ->
                  strip prefixRegex n = n).
Proof.
  intros Hp.
  destruct (plain_prefix_literal_pattern (tag_prefix inp) Hp) as [re [Hre [Ht Hs]]].
  exists re. split; [exact Hre|]. split; [exact Ht|]. split.
  - intros v. now rewrite Hs, startsWith_app, skipn_length_app.
  - intros n Hn. now rewrite Hs, Hn.
Qed.

Lemma plain_prefix_is_literal_witness :
  exists prefixRegex,
    Main.prefixRegex defaults = Some prefixRegex
    /\ (forall n, test prefixRegex n = JsString.startsWith (tag_prefix defaults) n)
    /\ (forall v, strip prefixRegex (tag_prefix defaults ++ v) = v)
    /\ (forall n, JsString.startsWith (tag_prefix defaults) n = false ->
                  strip prefixRegex n = n).
Proof. apply (plain_prefix_is_literal defaults). reflexivity. Defined.

(* ================================================================== *)
(** ** The tags that the catalog keeps *)
(* ================================================================== *)

(** The catalog, with the order that the sort leaves and the tags it is
    made of. *)
Lemma getValidTags_sorted (listTags : bool -> list Tag) (prefixRegex : regex)
    (shouldFetchAllTags : bool) (isCustomVersionFormat : str) :
  exists catalog,
    getValidTags listTags prefixRegex shouldFetchAllTags isCustomVersionFormat = Some catalog
    /\ ordered (before (fun a b => Semver.rcompare (strip prefixRegex (name a))
                                                   (strip prefixRegex (name b))))
               catalog
    /\ Permutation
         (filter (is_valid prefixRegex)
                 (listed listTags shouldFetchAllTags isCustomVersionFormat))
         catalog
    /\ Forall (fun tag => is_valid prefixRegex tag = true) catalog.
Proof.
  unfold getValidTags. fold (listed listTags shouldFetchAllTags isCustomVersionFormat).
  set (tags := listed listTags shouldFetchAllTags isCustomVersionFormat).
  destruct (sort_ordered
              (fun a b => Semver.rcompare (strip prefixRegex (name a))
                                          (strip prefixRegex (name b)))
              (fun tag => is_valid prefixRegex tag = true)) with
    (l := filter (is_valid prefixRegex) tags) as [catalog [Hs [Ho Hp]]].
  - intros x y Hx Hy. unfold is_valid in Hx, Hy.
    apply andb_prop in Hx as [_ Hx], Hy as [_ Hy].
    now apply rcompare_antisym.
  - rewrite Forall_forall. intros tag Ht. now apply filter_In in Ht.
  - exists catalog. split; [exact Hs|]. split; [exact Ho|]. split; [exact Hp|].
    rewrite Forall_forall. intros tag Ht.
    now apply (Permutation_in _ (Permutation_sym Hp)), filter_In in Ht as [_ Ht].
Qed.

Lemma valid_full (v : str) :
  Semver.valid v <> None -> exists v0, Semver.full v = Some v0.
Proof.
  unfold Semver.valid, Semver.parse.
  destruct (Semver.MAX_LENGTH <? List.length v); [now intros []|].
  destruct (Semver.full v) as [v0|]; [eauto | now intros []].
Qed.

Lemma version_tail_no_line_terminator (tail : str) :
  version_tail tail -> no_line_terminator tail = true.
Proof.
  destruct tail as [|c r]; [reflexivity|]. intros [Hc Hr]. simpl.
  apply andb_true_intro. split.
  - destruct Hc as [-> | ->]; reflexivity.
  - eapply forallb_weaken; [|exact Hr]. intros d.
    destruct d as [[] [] [] [] [] [] [] []]; intros H;
      try reflexivity; discriminate H.
Qed.

Lemma version_tail_ahead (tail : str) :
  version_tail tail -> no_digit_ahead tail = true /\ no_component_ahead tail = true.
Proof.
  destruct tail as [|c r]; [now split|]. intros [[-> | ->] _]; now split.
Qed.

(** A valid version behind a prefix without digits is in canonical form
    already. *)
Lemma valid_version_canonical (p v : str) :
  digitless p = true -> no_line_terminator p = true -> Semver.valid v <> None ->
  convertVersionFormat (p ++ v) "MAJOR.MINOR.PATCH" = p ++ v.
Proof.
  intros Hp Lp Hv. destruct (valid_full v Hv) as [v0 Hf].
  destruct (full_shape v v0 Hf) as [o [x [y [z [tail [-> [Ho [Nx [Ny [Nz Ht]]]]]]]]]].
  destruct (version_tail_ahead tail Ht) as [Hd _].
  pose proof (version_tail_no_line_terminator tail Ht) as Lt.
  assert (Hpo : digitless (p ++ o) = true).
  { unfold digitless in *. rewrite forallb_app, Hp. now destruct Ho as [-> | ->]. }
  assert (Lo : no_line_terminator o = true) by now destruct Ho as [-> | ->].
  rewrite app_assoc.
  rewrite convertVersionFormat_anatomy; [|reflexivity|].
  2:{ change (no_line_terminator
                ((p ++ o) ++ x ++ ["."%char] ++ y ++ ["."%char] ++ z ++ tail) = true).
      rewrite !no_line_terminator_app, Lp, Lo, Lt.
      rewrite (number_no_line_terminator x), (number_no_line_terminator y),
              (number_no_line_terminator z); [reflexivity | apply Nz | apply Ny | apply Nx]. }
  rewrite anatomy_canonical by assumption.
  change (map (version_item x (Some y) (Some z)) (JsString.split "." "MAJOR.MINOR.PATCH"))
    with [x; y; z].
  now rewrite join_three.
Qed.

Lemma with_name_same (tag : Tag) : with_name tag (name tag) = tag.
Proof. now destruct tag. Qed.

(** X13. No valid tag is lost or renamed on the way into the catalog: when
    the tag prefix has neither pattern syntax nor digits nor line breaks, a
    tag of the repository whose name is the prefix followed by a valid
    version is an entry of the catalog, under the name it has in the
    repository, whatever the version format is. *)
Theorem valid_tag_kept_under_its_name
    (inp : Inputs) (listTags : bool -> list Tag) (shouldFetchAllTags : bool)
    (format : str) (tag : Tag) (v : str) :
  plain (tag_prefix inp) = true ->
  digitless (tag_prefix inp) = true ->
  no_line_terminator (tag_prefix inp) = true ->
  In tag (listTags shouldFetchAllTags) ->
  name tag = tag_prefix inp ++ v ->
  Semver.valid v <> None ->
  exists prefixRegex catalog,
    Main.prefixRegex inp = Some prefixRegex
    /\ getValidTags listTags prefixRegex shouldFetchAllTags format = Some catalog
    /\ In tag catalog.
Proof.
  intros Hp Hd Hl Hin Hn Hv.
  destruct (plain_prefix_literal_pattern (tag_prefix inp) Hp) as [re [Hre [Ht Hs]]].
  destruct (getValidTags_sorted listTags re shouldFetchAllTags format)
    as [catalog [Hc [_ [Hperm _]]]].
  exists re, catalog. split; [exact Hre|]. split; [exact Hc|].
  apply (Permutation_in _ Hperm). apply filter_In. split.
  - unfold listed. destruct (JsString.truthy format); [|exact Hin].
    apply in_map_iff. exists tag. split; [|exact Hin].
    rewrite Hn, (valid_version_canonical _ v Hd Hl Hv), <- Hn.
    apply with_name_same.
  - unfold is_valid. rewrite Ht, Hn, Hs, startsWith_app, skipn_length_app.
    now destruct (Semver.valid v).
Qed.

Lemma valid_tag_kept_under_its_name_witness :
  exists prefixRegex catalog,
    Main.prefixRegex (with_version_format "MAJOR" defaults) = Some prefixRegex
    /\ getValidTags (fun _ => [tag "v3"; tag "v2.1.0-rc.1+build.5"]) prefixRegex false "MAJOR"
       = Some catalog
    /\ In (tag "v2.1.0-rc.1+build.5") catalog.
Proof.
  apply (valid_tag_kept_under_its_name
           (with_version_format "MAJOR" defaults)
           (fun _ => [tag "v3"; tag "v2.1.0-rc.1+build.5"]) false "MAJOR"
           (tag "v2.1.0-rc.1+build.5") "2.1.0-rc.1+build.5");
    try reflexivity.
  - simpl. now right; left.
  - vm_compute. discriminate.
Defined.

(* ================================================================== *)
(** ** The new tag and the new version *)
(* ================================================================== *)

Lemma from_history_valid inp w h re irb ipr id latestTag latestPre h' evs newVersion :
  from_history inp w h re irb ipr id latestTag latestPre
  = Some (NewVersion h' evs newVersion) ->
  Semver.valid newVersion <> None.
Proof.
  unfold from_history. intros H.
  match type of H with
  | match ?e with _ => _ end = _ => destruct e as [previousTag|]; [|discriminate H]
  end.
  destruct (Semver.parse _) as [previousVersion|]; [|discriminate H].
  cbv iota in H.
  match type of H with
  | (if negb ?c then _ else _) = _ => destruct c; [|discriminate H]
  end.
  simpl negb in H. cbv iota in H.
  destruct (Semver.inc _ _ _) as [v|]; [|discriminate H].
  destruct (negb (JsString.truthy v)); [discriminate H|].
  destruct (Semver.valid v) eqn:Hv; simpl in H; [|discriminate H].
  injection H as _ _ <-. now rewrite Hv.
Qed.

(** The conversion of a valid version, and of the converted version behind
    a prefix: the second conversion changes nothing. *)
Lemma converted_version_stable (p v format : str) :
  In format [lit "MAJOR.MINOR.PATCH"; lit "MAJOR.MINOR"; lit "MAJOR"] ->
  digitless p = true -> no_line_terminator p = true ->
  Semver.valid v <> None ->
  convertVersionFormat (p ++ convertVersionFormat v format) format
  = p ++ convertVersionFormat v format.
Proof.
  intros HF Hp Lp Hv. destruct (valid_full v Hv) as [v0 Hf].
  destruct (full_shape v v0 Hf) as [o [x [y [z [tail [-> [Ho [Nx [Ny [Nz Ht]]]]]]]]]].
  destruct (version_tail_ahead tail Ht) as [Hd Hc].
  pose proof (version_tail_no_line_terminator tail Ht) as Lt.
  assert (Do : digitless o = true) by now destruct Ho as [-> | ->].
  assert (Lo : no_line_terminator o = true) by now destruct Ho as [-> | ->].
  assert (Hpo : digitless (p ++ o) = true).
  { unfold digitless in *. now rewrite forallb_app, Hp, Do. }
  assert (Hformat : JsString.truthy format = true).
  { destruct HF as [<- | [<- | [<- | []]]]; reflexivity. }
  assert (Hl : forall q c2 c3,
             no_line_terminator q = true ->
             (forall d, c2 = Some d -> is_number d) ->
             (forall d, c3 = Some d -> is_number d) ->
             no_line_terminator (q ++ x ++ dotted c2 ++ dotted c3 ++ tail) = true).
  { intros q c2 c3 Lq N2 N3. rewrite !no_line_terminator_app, Lq, Lt.
    rewrite (number_no_line_terminator x) by apply Nx.
    assert (Hdot : forall c, (forall d, c = Some d -> is_number d) ->
                             no_line_terminator (dotted c) = true).
    { intros [d|] H; [|reflexivity]. simpl.
      apply (number_no_line_terminator d), (H d eq_refl). }
    now rewrite (Hdot c2 N2), (Hdot c3 N3). }
  assert (Hsome : forall d (n : str), is_number n -> Some n = Some d -> is_number d).
  { now intros d n Hn [= <-]. }
  assert (Hnone : forall d : str, @None str = Some d -> is_number d) by discriminate.
  assert (Hconv : forall q, digitless q = true -> no_line_terminator q = true ->
             convertVersionFormat (q ++ x ++ "."%char :: y ++ "."%char :: z ++ tail) format
             = q ++ JsString.join "."
                      (map (version_item x (Some y) (Some z)) (JsString.split "." format))
                 ++ tail).
  { intros q Dq Lq. rewrite (convertVersionFormat_anatomy _ format Hformat).
    - now rewrite anatomy_canonical.
    - apply (Hl q (Some y) (Some z) Lq); eauto. }
  rewrite (Hconv o Do Lo).
  destruct HF as [<- | [<- | [<- | []]]].
  - change (map (version_item x (Some y) (Some z)) (JsString.split "." "MAJOR.MINOR.PATCH"))
      with [x; y; z].
    rewrite join_three, app_assoc. rewrite (Hconv (p ++ o) Hpo).
    + change (map (version_item x (Some y) (Some z))
                  (JsString.split "." "MAJOR.MINOR.PATCH")) with [x; y; z].
      now rewrite join_three.
    + now rewrite no_line_terminator_app, Lp, Lo.
  - change (map (version_item x (Some y) (Some z)) (JsString.split "." "MAJOR.MINOR"))
      with [x; y].
    rewrite join_two, app_assoc.
    rewrite (convertVersionFormat_anatomy _ "MAJOR.MINOR" eq_refl).
    + change (x ++ "."%char :: y ++ tail) with (x ++ dotted (Some y) ++ dotted None ++ tail).
      rewrite anatomy_parts; eauto; try discriminate.
      change (map (version_item x (Some y) None) (JsString.split "." "MAJOR.MINOR"))
        with [x; y].
      now rewrite join_two.
    + apply (Hl (p ++ o) (Some y) None); eauto.
      now rewrite no_line_terminator_app, Lp, Lo.
  - change (map (version_item x (Some y) (Some z)) (JsString.split "." "MAJOR")) with [x].
    simpl JsString.join. rewrite app_assoc.
    rewrite (convertVersionFormat_anatomy _ "MAJOR" eq_refl).
    + change (x ++ tail) with (x ++ dotted None ++ dotted None ++ tail).
      rewrite anatomy_parts; eauto; discriminate.
    + apply (Hl (p ++ o) None None); eauto.
      now rewrite no_line_terminator_app, Lp, Lo.
Qed.

Lemma output_in_shape (evs : list Event) (key value : str) :
  In (SetOutput key value) evs -> In (Output key) (map kind evs).
Proof. intros H. apply (in_map kind) in H. exact H. Qed.

(** Where the two outputs of [publish] come from. *)
Lemma publish_outputs inp w h evs r p commitRef newVersion v t :
  ~ In (Output "new_version") (map kind evs) ->
  ~ In (Output "new_tag") (map kind evs) ->
  In (SetOutput "new_version" v)
     (events (publish inp w h evs r p commitRef newVersion)) ->
  In (SetOutput "new_tag" t)
     (events (publish inp w h evs r p commitRef newVersion)) ->
  v = convertVersionFormat newVersion (version_format inp)
  /\ t = convertVersionFormat (tag_prefix inp ++ v) (version_format inp).
Proof.
  intros Nv Nt Hv Ht.
  assert (H : forall key value,
             ~ In (Output key) (map kind evs) ->
             In (SetOutput key value)
                (events (publish inp w h evs r p commitRef newVersion)) ->
             In (SetOutput key value)
                [SetOutput "new_version"
                   (convertVersionFormat newVersion (version_format inp));
                 SetOutput "new_tag"
                   (convertVersionFormat
                      (tag_prefix inp ++ convertVersionFormat newVersion (version_format inp))
                      (version_format inp));
                 SetOutput "changelog" (generateNotes w)]).
  { intros key value Hn Hin.
    destruct (events_publish inp w h evs r p commitRef newVersion) as [E | [E _]];
      rewrite E in Hin; repeat (apply in_app_or in Hin as [Hin | Hin]); trivial;
      try (destruct (Hn (output_in_shape _ _ _ Hin)));
      simpl in Hin; intuition discriminate. }
  apply (H _ _ Nv) in Hv. apply (H _ _ Nt) in Ht. simpl in Hv, Ht.
  destruct Hv as [Hv | [Hv | [Hv | []]]]; try discriminate Hv.
  destruct Ht as [Ht | [Ht | [Ht | []]]]; try discriminate Ht.
  injection Hv as <-. injection Ht as <-. auto.
Qed.

(** X14. Under each of the formats [MAJOR.MINOR.PATCH], [MAJOR.MINOR] and
    [MAJOR], with a tag prefix without digits and line breaks, and with a
    custom tag, if there is one, that is a valid version, the outputs of a
    run agree: [new_tag] is the tag prefix followed by [new_version]. *)
Theorem new_tag_is_prefixed_new_version
    (inp : Inputs) (env : Env) (w : World) (run : Run) (v t : str) :
  main inp env w = Some run ->
  In (version_format inp) [lit "MAJOR.MINOR.PATCH"; lit "MAJOR.MINOR"; lit "MAJOR"] ->
  digitless (tag_prefix inp) = true ->
  no_line_terminator (tag_prefix inp) = true ->
  (JsString.truthy (custom_tag inp) = true -> Semver.valid (custom_tag inp) <> None) ->
  In (SetOutput "new_version" v) (events run) ->
  In (SetOutput "new_tag" t) (events run) ->
  t = tag_prefix inp ++ v.
Proof.
  unfold main. intros H HF Hd Hl Hcustom Hv Ht.
  destruct (GITHUB_REF env) as [[|c ref]|];
    try (injection H as <-; simpl in Hv; intuition discriminate).
  destruct (if JsString.truthy (commit_sha inp) then Some (commit_sha inp)
            else GITHUB_SHA env) as [[|c' commitRef]|];
    try (injection H as <-; simpl in Hv; intuition discriminate).
  destruct (isReleaseBranch inp (c :: ref)) as [irb|]; [|discriminate H].
  destruct (isPreReleaseBranch inp (c :: ref)) as [iprb|]; [|discriminate H].
  destruct (Main.prefixRegex inp) as [re|]; [|discriminate H].
  destruct (getValidTags _ re _ _) as [validTags|]; [|discriminate H].
  destruct (getLatestPrereleaseTag validTags _ re) as [latestPre|]; [|discriminate H].
  assert (Hpub : forall h evs newVersion,
             ~ In (Output "new_version") (map kind evs) ->
             ~ In (Output "new_tag") (map kind evs) ->
             Semver.valid newVersion <> None ->
             run = publish inp w h evs irb iprb (c' :: commitRef) newVersion ->
             t = tag_prefix inp ++ v).
  { intros h evs newVersion Nv Nt Hvalid ->.
    destruct (publish_outputs _ _ _ _ _ _ _ _ _ _ Nv Nt Hv Ht) as [-> ->].
    now apply converted_version_stable. }
  destruct (JsString.truthy (custom_tag inp)).
  - injection H as H. symmetry in H. revert H. apply Hpub; auto;
      simpl; intuition discriminate.
  - match type of H with
    | match ?e with _ => _ end = _ => destruct e as [r|] eqn:Hr; [|discriminate H]
    end.
    destruct r as [h evs | h evs newVersion]; injection H as H.
    + exfalso. apply from_history_shape in Hr. subst run. simpl events in Hv.
      apply output_in_shape in Hv.
      destruct Hr as [E | [E | [E | []]]]; rewrite <- E in Hv; simpl in Hv;
        intuition discriminate.
    + pose proof (from_history_valid _ _ _ _ _ _ _ _ _ _ _ _ Hr) as Hvalid.
      apply from_history_shape in Hr. symmetry in H. revert H.
      apply Hpub; trivial; rewrite Hr; simpl; intuition discriminate.
Qed.

Lemma new_tag_is_prefixed_new_version_witness :
  lit "rel-3.1" = tag_prefix (mkInputs "minor" "prerelease" "rel-" "" "main" "next" ""
                                       "false" "false" "false" "" "" "MAJOR.MINOR")
                  ++ lit "3.1".
Proof.
  apply (new_tag_is_prefixed_new_version
           (mkInputs "minor" "prerelease" "rel-" "" "main" "next" ""
                     "false" "false" "false" "" "" "MAJOR.MINOR")
           (env "refs/heads/main") (world ["rel-3.0"; "rel-2.9"] None)
           (mkRun [SetOutput "previous_version" "3.0.0";
                   SetOutput "previous_tag" "rel-3.0";
                   SetOutput "release_type" "minor";
                   SetOutput "new_version" "3.1";
                   SetOutput "new_tag" "rel-3.1";
                   SetOutput "changelog" "notes";
                   CreateTag "rel-3.1" false "9b1d3e7"]
                  (Some [tag "rel-3.0"; tag "rel-2.9.0"]))
           "3.1" "rel-3.1").
  - vm_compute. reflexivity.
  - right. left. reflexivity.
  - reflexivity.
  - reflexivity.
  - discriminate.
  - simpl. do 3 right. left. reflexivity.
  - simpl. do 4 right. left. reflexivity.
Defined.

(* ================================================================== *)
(** ** The latest tag *)
(* ================================================================== *)

Section Latest.

Import Semver.

Lemma string_of_uint_digits (d : Decimal.uint) :
  forallb JsString.is_digit (list_ascii_of_string (NilEmpty.string_of_uint d)) = true.
Proof. induction d; simpl; auto. Qed.

Lemma to_uint_nonnil (n : N) : N.to_uint n <> Decimal.Nil.
Proof.
  destruct n as [|p]; [discriminate|]. apply DecimalPos.Unsigned.to_uint_nonnil.
Qed.

Lemma digits_of_number (z : Z) : is_number (digits_of z).
Proof.
  unfold digits_of, NilZero.string_of_uint.
  pose proof (to_uint_nonnil (Z.to_N z)) as Hn.
  pose proof (string_of_uint_digits (N.to_uint (Z.to_N z))) as Hd.
  destruct (N.to_uint (Z.to_N z)); [contradiction| | | | | | | | | |];
    (split; [discriminate | exact Hd]).
Qed.

Lemma digits_of_inj (a b : Z) :
  (0 <= a)%Z -> (0 <= b)%Z -> digits_of a = digits_of b -> a = b.
Proof.
  unfold digits_of. intros Ha Hb H.
  apply (f_equal string_of_list_ascii) in H.
  rewrite !string_of_list_ascii_of_string in H.
  apply (f_equal NilZero.uint_of_string) in H.
  rewrite !NilZero.usu in H by apply to_uint_nonnil.
  injection H as H. apply DecimalN.Unsigned.to_uint_inj in H.
  rewrite <- (Z2N.id a), <- (Z2N.id b) by assumption. now rewrite H.
Qed.

Lemma number_of_nonneg (s : str) : (0 <= number_of s)%Z.
Proof.
  unfold number_of.
  assert (H : forall acc, (0 <= acc)%Z ->
             (0 <= fold_left (fun acc c => 10 * acc + Z.of_nat (nat_of_ascii c - 48)) s acc)%Z).
  { induction s as [|c s IH]; intros acc Hacc; cbn [fold_left]; [exact Hacc|].
    apply IH. lia. }
  apply H. lia.
Qed.

Lemma full_nonneg (s : str) (v : SemVer) : full s = Some v -> nonneg v.
Proof.
  unfold full.
  destruct (cut "+" _) as [main_pre b]. destruct (cut "-" main_pre) as [main p].
  destruct (JsString.split "." main) as [|x [|y [|z [|? ?]]]]; try discriminate.
  match goal with
  | |- (if ?c then _ else _) = _ -> _ => destruct c; [|discriminate]
  end.
  intros [= <-]. unfold nonneg. simpl. auto using number_of_nonneg.
Qed.

Lemma construct_nonneg (s : str) (v : SemVer) : construct s = Some v -> nonneg v.
Proof.
  unfold construct. destruct (MAX_LENGTH <? List.length s); [discriminate|].
  apply full_nonneg.
Qed.

(** The text of a version, cut after a number. *)
Lemma span_digits_of (z : Z) (r : str) :
  no_digit_ahead r = true -> span_digits (digits_of z ++ r) = (digits_of z, r).
Proof. intros Hr. apply span_digits_app; [apply digits_of_number | exact Hr]. Qed.

Lemma version_main (a b : SemVer) :
  nonneg a -> nonneg b -> version a = version b ->
  major a = major b /\ minor a = minor b /\ patch a = patch b.
Proof.
  intros [A1 [A2 A3]] [B1 [B2 B3]]. unfold version. intros H.
  assert (Hcut : forall z z' r r',
             (0 <= z)%Z -> (0 <= z')%Z ->
             no_digit_ahead r = true -> no_digit_ahead r' = true ->
             digits_of z ++ r = digits_of z' ++ r' -> z = z' /\ r = r').
  { intros z z' r r' Hz Hz' Hr Hr' E.
    pose proof (span_digits_of z r Hr) as S1. rewrite E in S1.
    rewrite (span_digits_of z' r' Hr') in S1. injection S1 as E1 E2.
    split; [symmetry; now apply digits_of_inj | now symmetry]. }
  assert (Htail : forall v, no_digit_ahead
                              match prerelease_of v with
                              | [] => []
                              | _ :: _ => lit "-" ++ JsString.join "."
                                                       (map identifier_string (prerelease_of v))
                              end = true).
  { intros v. now destruct (prerelease_of v). }
  apply Hcut in H as [E1 H]; trivial.
  injection H as H. apply Hcut in H as [E2 H]; trivial.
  injection H as H. apply Hcut in H as [E3 _]; trivial;
    try (now destruct (prerelease_of a)); try (now destruct (prerelease_of b)).
Qed.

Lemma compareMain_refl (a b : SemVer) :
  major a = major b -> minor a = minor b -> patch a = patch b -> compareMain a b = 0%Z.
Proof. unfold compareMain. intros -> -> ->. now rewrite !Z.compare_refl. Qed.

(** The comparison of versions follows the three numbers first. *)
Lemma compare_versions_main (a b : SemVer) :
  nonneg a -> nonneg b -> (compare_versions a b <= 0)%Z -> main_le a b.
Proof.
  intros Ha Hb. unfold compare_versions, main_le.
  destruct (JsString.eqb (version b) (version a)) eqn:E.
  - apply eqb_eq in E. symmetry in E.
    destruct (version_main a b Ha Hb E) as [E1 [E2 E3]].
    rewrite (compareMain_refl a b E1 E2 E3). lia.
  - destruct (compareMain a b); lia.
Qed.

Lemma main_le_spec (a b : SemVer) :
  main_le a b <->
  (major a < major b
   \/ (major a = major b
       /\ (minor a < minor b \/ (minor a = minor b /\ patch a <= patch b))))%Z.
Proof.
  unfold main_le, compareMain.
  destruct (Z.compare_spec (major a) (major b));
    destruct (Z.compare_spec (minor a) (minor b));
    destruct (Z.compare_spec (patch a) (patch b)); simpl; lia.
Qed.

Lemma main_le_trans (a b c : SemVer) : main_le a b -> main_le b c -> main_le a c.
Proof. rewrite !main_le_spec. lia. Qed.

Lemma not_above_trans (prefixRegex : regex) (a b c : Tag) :
  not_above prefixRegex a b -> not_above prefixRegex b c -> not_above prefixRegex a c.
Proof.
  intros [x [y [Hx [Hy H1]]]] [y' [z [Hy' [Hz H2]]]].
  rewrite Hy in Hy'. injection Hy' as <-.
  exists x, z. split; [exact Hx|]. split; [exact Hz|].
  now apply (main_le_trans z y x).
Qed.

Lemma before_not_above (prefixRegex : regex) (a b : Tag) :
  before (fun a b => rcompare (strip prefixRegex (name a)) (strip prefixRegex (name b)))
         a b ->
  not_above prefixRegex a b.
Proof.
  intros [c [H Hc]]. unfold rcompare, compare in H.
  destruct (construct (strip prefixRegex (name b))) as [y|] eqn:Hy; [|discriminate H].
  destruct (construct (strip prefixRegex (name a))) as [x|] eqn:Hx; [|discriminate H].
  injection H as <-. exists x, y. split; [exact Hx|]. split; [exact Hy|].
  apply compare_versions_main; eauto using construct_nonneg.
Qed.

Lemma ordered_weaken {A} (R R' : A -> A -> Prop) (l : list A) :
  (forall a b, R a b -> R' a b) -> ordered R l -> ordered R' l.
Proof.
  intros H. induction l as [|a [|b l] IH]; simpl; trivial.
  intros [Hab Ho]. split; [now apply H | now apply IH].
Qed.

Lemma ordered_head {A} (R : A -> A -> Prop) :
  (forall a b c, R a b -> R b c -> R a c) ->
  forall l a, ordered R (a :: l) -> Forall (R a) l.
Proof.
  intros Ht. induction l as [|b l IH]; intros a Ho; [constructor|].
  destruct Ho as [Hab Ho]. constructor; [exact Hab|].
  apply (Forall_impl _ (fun c => Ht a b c Hab)). now apply IH.
Qed.

Lemma ordered_inv {A} (R : A -> A -> Prop) (x : A) (l : list A) :
  ordered R (x :: l) -> ordered R l.
Proof. destruct l; simpl; tauto. Qed.

Lemma ordered_nth {A} (R : A -> A -> Prop) :
  (forall a b c, R a b -> R b c -> R a c) ->
  forall l, ordered R l ->
  forall i j a b, i < j -> nth_error l i = Some a -> nth_error l j = Some b -> R a b.
Proof.
  intros Ht. induction l as [|x l IH]; intros Ho i j a b Hij Ha Hb.
  - destruct i; discriminate Ha.
  - destruct j as [|j]; [inversion Hij|]. simpl in Hb. destruct i as [|i].
    + injection Ha as ->. apply nth_error_In in Hb.
      pose proof (ordered_head R Ht l a Ho) as Hall.
      rewrite Forall_forall in Hall. now apply Hall.
    + simpl in Ha. apply (IH (ordered_inv R x l Ho) i j); trivial. lia.
Qed.

Lemma find_indexed {A} (g : A -> bool) (l : list A) :
  forall i,
  option_map fst (find (fun it => g (snd it)) (indexed i l))
  = option_map (Nat.add i) (first_index g l).
Proof.
  induction l as [|x l IH]; intros i; [reflexivity|]. simpl.
  destruct (g x); simpl.
  - now rewrite Nat.add_0_r.
  - rewrite IH. destruct (first_index g l); simpl; [|reflexivity].
    now rewrite Nat.add_succ_r.
Qed.

(** What [getLatestTag] finds: the first release of the list, or else the
    tag it makes up. *)
Lemma getLatestTag_first (tags : list Tag) (prefixRegex : regex) (tagPrefix : str) :
  match getLatestTag tags prefixRegex tagPrefix with
  | inl i => first_index (is_release prefixRegex) tags = Some i
  | inr made => first_index (is_release prefixRegex) tags = None
                /\ made = mkTag (tagPrefix ++ lit "0.0.0") (mkCommit "HEAD")
  end.
Proof.
  unfold getLatestTag.
  pose proof (find_indexed (is_release prefixRegex) tags 0) as H.
  unfold is_release in H at 1.
  destruct (find _ (indexed 0 tags)) as [it|]; simpl in H;
    destruct (first_index (is_release prefixRegex) tags); try discriminate H.
  - now injection H as ->.
  - auto.
Qed.

Lemma parse_construct (s : str) (v : SemVer) : parse s = Some v -> construct s = Some v.
Proof.
  unfold parse. destruct (MAX_LENGTH <? List.length s); [discriminate|].
  now destruct (full s).
Qed.

Lemma is_valid_parse (prefixRegex : regex) (tag : Tag) :
  is_valid prefixRegex tag = true ->
  test prefixRegex (name tag) = true
  /\ exists v, parse (strip prefixRegex (name tag)) = Some v.
Proof.
  unfold is_valid, valid. intros H. apply andb_prop in H as [H1 H2].
  split; [exact H1|]. destruct (parse _) as [v|]; [eauto | discriminate H2].
Qed.

Lemma release_prerelease_of (s : str) (v : SemVer) :
  parse s = Some v -> prerelease s = None -> prerelease_of v = [].
Proof. unfold prerelease. intros ->. now destruct (prerelease_of v). Qed.

(** Between two releases, the order of the three numbers decides. *)
Lemma gte_releases (sa sb : str) (x y : SemVer) :
  construct sa = Some x -> construct sb = Some y ->
  prerelease_of x = [] -> prerelease_of y = [] ->
  (x = y \/ main_le y x) ->
  gte sa sb = Some true.
Proof.
  intros Hx Hy Px Py H. unfold gte, compare. rewrite Hx, Hy. simpl. f_equal.
  apply Z.leb_le. unfold compare_versions.
  destruct (JsString.eqb (version y) (version x)) eqn:E; [lia|].
  destruct H as [-> | H].
  - unfold JsString.eqb in E. now destruct (list_eq_dec ascii_dec (version y) (version y)).
  - unfold main_le in H. rewrite compareMain_antisym in H.
    unfold comparePre. rewrite Px, Py. destruct (compareMain x y); lia.
Qed.

End Latest.

(** X15. The latest tag is the highest release: when [getLatestTag] picks
    an entry of the catalog that [getValidTags] has returned, the entry is a
    release, and its version is greater than or equal to that of every
    release in the catalog; when it makes up the tag [0.0.0] behind the
    prefix, on the commit [HEAD], the catalog holds no release at all. *)
Theorem latest_tag_is_highest_release
    (listTags : bool -> list Tag) (prefixRegex : regex) (shouldFetchAllTags : bool)
    (format tagPrefix : str) (catalog : list Tag) :
  getValidTags listTags prefixRegex shouldFetchAllTags format = Some catalog ->
  match getLatestTag catalog prefixRegex tagPrefix with
  | inl i =>
      exists latest,
        nth_error catalog i = Some latest
        /\ Semver.prerelease (strip prefixRegex (name latest)) = None
        /\ forall tag, In tag catalog ->
                       Semver.prerelease (strip prefixRegex (name tag)) = None ->
                       Semver.gte (strip prefixRegex (name latest))
                                  (strip prefixRegex (name tag)) = Some true
  | inr made =>
      made = mkTag (tagPrefix ++ lit "0.0.0") (mkCommit "HEAD")
      /\ forall tag, In tag catalog ->
                     Semver.prerelease (strip prefixRegex (name tag)) <> None
  end.
Proof.
  intros Hc.
  destruct (getValidTags_sorted listTags prefixRegex shouldFetchAllTags format)
    as [catalog' [Hc' [Ho [_ Hv]]]].
  rewrite Hc in Hc'. injection Hc' as <-. rewrite Forall_forall in Hv.
  assert (Hrel : forall tag, In tag catalog ->
             Semver.prerelease (strip prefixRegex (name tag)) = None ->
             is_release prefixRegex tag = true).
  { intros tag Hin Hp. destruct (is_valid_parse _ _ (Hv tag Hin)) as [Ht _].
    unfold is_release. now rewrite Ht, Hp. }
  pose proof (getLatestTag_first catalog prefixRegex tagPrefix) as Hl.
  pose proof (first_index_spec (is_release prefixRegex) catalog) as Hf.
  destruct (getLatestTag catalog prefixRegex tagPrefix) as [i | made].
  - rewrite Hl in Hf. destruct Hf as [[latest [Hn Hr]] Hlt].
    exists latest. split; [exact Hn|].
    assert (Hp : Semver.prerelease (strip prefixRegex (name latest)) = None).
    { unfold is_release in Hr. apply andb_prop in Hr as [_ Hr].
      now destruct (Semver.prerelease _). }
    split; [exact Hp|]. intros tag Hin Htag.
    destruct (is_valid_parse _ _ (Hv latest (nth_error_In _ _ Hn))) as [_ [x Hx]].
    destruct (is_valid_parse _ _ (Hv tag Hin)) as [_ [y Hy]].
    apply (gte_releases _ _ x y); eauto using parse_construct, release_prerelease_of.
    destruct (In_nth_error _ _ Hin) as [j Hj].
    destruct (Nat.lt_trichotomy j i) as [Hji | [-> | Hij]].
    + pose proof (Hrel tag Hin Htag) as Hr'. rewrite (Hlt j tag Hji Hj) in Hr'.
      discriminate Hr'.
    + left. congruence.
    + right.
      destruct (ordered_nth (not_above prefixRegex) (not_above_trans prefixRegex) catalog
                  (ordered_weaken _ _ _ (before_not_above prefixRegex) Ho)
                  i j latest tag Hij Hn Hj) as [x' [y' [Hx' [Hy' H]]]].
      rewrite (parse_construct _ _ Hx) in Hx'. rewrite (parse_construct _ _ Hy) in Hy'.
      congruence.
  - destruct Hl as [Hl ->]. rewrite Hl in Hf. split; [reflexivity|].
    intros tag Hin Hp. pose proof (Hrel tag Hin Hp) as Hr'.
    rewrite (Hf tag Hin) in Hr'. discriminate Hr'.
Qed.

Lemma latest_tag_is_highest_release_witness :
  match getLatestTag [tag "v2.0.0-rc.1"; tag "v1.10.0"; tag "v1.9.3"; tag "v1.9.0-beta.2"]
                     (regex_literal "^v") "v" with
  | inl i =>
      exists latest,
        nth_error [tag "v2.0.0-rc.1"; tag "v1.10.0"; tag "v1.9.3"; tag "v1.9.0-beta.2"] i
        = Some latest
        /\ Semver.prerelease (strip (regex_literal "^v") (name latest)) = None
        /\ forall t,
             In t [tag "v2.0.0-rc.1"; tag "v1.10.0"; tag "v1.9.3"; tag "v1.9.0-beta.2"] ->
             Semver.prerelease (strip (regex_literal "^v") (name t)) = None ->
             Semver.gte (strip (regex_literal "^v") (name latest))
                        (strip (regex_literal "^v") (name t)) = Some true
  | inr made =>
      made = mkTag (lit "v" ++ lit "0.0.0") (mkCommit "HEAD")
      /\ forall t,
           In t [tag "v2.0.0-rc.1"; tag "v1.10.0"; tag "v1.9.3"; tag "v1.9.0-beta.2"] ->
           Semver.prerelease (strip (regex_literal "^v") (name t)) <> None
  end.
Proof.
  apply (latest_tag_is_highest_release
           (fun _ => [tag "v1.9.3"; tag "v2.0.0-rc.1"; tag "v1.9.0-beta.2"; tag "v1.10.0"])
           (regex_literal "^v") false "MAJOR.MINOR.PATCH" "v").
  vm_compute. reflexivity.
Defined.

(* ================================================================== *)
(** ** The previous tag *)
(* ================================================================== *)

(** The previous tag is the latest tag or the latest pre-release tag. *)
Lemma from_history_parse_failure inp w h re irb ipr id latestTag latestPre r :
  from_history inp w h re irb ipr id latestTag latestPre = Some r ->
  In (SetFailed "Could not parse previous tag.") (events_of r) ->
  exists previousTag,
    (previousTag = latestTag \/ exists i, latestPre = Some i /\ previousTag = Element i)
    /\ Semver.parse (strip re (name (deref h previousTag))) = None.
Proof.
  unfold from_history. intros H Hin.
  match type of H with
  | match ?e with _ => _ end = _ => destruct e as [previousTag|] eqn:Hp; [|discriminate H]
  end.
  exists previousTag. split.
  { unfold Main.previousTag in Hp.
    destruct latestPre as [i|]; [|injection Hp as <-; now left].
    destruct irb; [injection Hp as <-; now left|].
    destruct (Semver.gte _ _) as [[|]|]; [| |discriminate Hp]; injection Hp as <-.
    - now left.
    - right. now exists i. }
  destruct (Semver.parse _) as [previousVersion|]; [exfalso | reflexivity].
  cbv iota in H.
  match type of H with
  | (if negb ?c then _ else _) = _ => destruct c
  end.
  2:{ injection H as <-. simpl in Hin. intuition discriminate. }
  simpl negb in H. cbv iota in H.
  destruct (Semver.inc _ _ _) as [v|].
  2:{ injection H as <-. simpl in Hin. intuition discriminate. }
  destruct (negb (JsString.truthy v)).
  { injection H as <-. simpl in Hin. intuition discriminate. }
  destruct (negb (isSome (Semver.valid v))); injection H as <-; simpl in Hin.
  - destruct Hin as [Hin | [Hin | [Hin | [Hin | []]]]]; try discriminate Hin.
    injection Hin as Hin. apply (f_equal (@rev ascii)) in Hin.
    rewrite rev_app_distr in Hin. discriminate Hin.
  - intuition discriminate.
Qed.

(** The position that [getLatestPrereleaseTag] answers with, for an
    identifier without pattern syntax. *)
Lemma getLatestPrereleaseTag_first (tags : list Tag) (identifier : str) (prefixRegex : regex) :
  plain identifier = true ->
  getLatestPrereleaseTag tags identifier prefixRegex
  = Some (first_index
            (fun tag => isSome (Semver.prerelease (strip prefixRegex (name tag)))
                        && JsString.includes identifier (strip prefixRegex (name tag)))
            tags).
Proof.
  intros Hp. unfold getLatestPrereleaseTag.
  rewrite (findM_total _
             (fun it => JsString.includes identifier (strip prefixRegex (name (snd it))))).
  2:{ intros it.
      destruct (match_string_plain (strip prefixRegex (name (snd it))) identifier Hp)
        as [m [-> <-]]. reflexivity. }
  f_equal.
  rewrite (find_filter_indexed
             (fun tag => isSome (Semver.prerelease (strip prefixRegex (name tag))))
             (fun tag => JsString.includes identifier (strip prefixRegex (name tag)))).
  now destruct (first_index _ tags).
Qed.

Lemma first_index_nth {A} (f : A -> bool) (l : list A) (i : nat) (d : A) :
  first_index f l = Some i -> In (nth i l d) l.
Proof.
  intros H. pose proof (first_index_spec f l) as Hs. rewrite H in Hs.
  destruct Hs as [[x [Hx _]] _]. rewrite (nth_error_nth _ _ d Hx).
  now apply nth_error_In in Hx.
Qed.

(** X16. With a tag prefix without pattern syntax, the previous tag can
    always be parsed: it is an entry of the catalog, which holds valid
    versions only, or the tag [0.0.0] made up behind the prefix. No run ends
    with the failure [Could not parse previous tag.] *)
Theorem previous_tag_always_parses (inp : Inputs) (env : Env) (w : World) (run : Run) :
  plain (tag_prefix inp) = true ->
  main inp env w = Some run ->
  ~ In (SetFailed "Could not parse previous tag.") (events run).
Proof.
  unfold main. intros Hplain H Hin.
  destruct (GITHUB_REF env) as [[|c ref]|];
    try (injection H as <-; simpl in Hin; intuition discriminate).
  destruct (if JsString.truthy (commit_sha inp) then Some (commit_sha inp)
            else GITHUB_SHA env) as [[|c' commitRef]|];
    try (injection H as <-; simpl in Hin; intuition discriminate).
  destruct (isReleaseBranch inp (c :: ref)) as [irb|]; [|discriminate H].
  destruct (isPreReleaseBranch inp (c :: ref)) as [iprb|]; [|discriminate H].
  destruct (plain_prefix_literal_pattern (tag_prefix inp) Hplain) as [re [Hre [Ht Hs]]].
  unfold Main.prefixRegex in H. rewrite Hre in H.
  destruct (getValidTags_sorted (listTags w) re (is_true (fetch_all_tags inp))
              (version_format inp)) as [validTags [Hv [_ [_ Hvalid]]]].
  rewrite Hv in H. rewrite Forall_forall in Hvalid.
  rewrite (getLatestPrereleaseTag_first validTags (identifier inp (c :: ref)) re) in H
    by apply clean_plain, sanitize_clean.
  assert (Hpub : forall h evs newVersion,
             ~ In (SetFailed "Could not parse previous tag.") evs ->
             ~ In (SetFailed "Could not parse previous tag.")
                  (events (publish inp w h evs irb iprb (c' :: commitRef) newVersion))).
  { intros h evs newVersion Hn Hp.
    destruct (events_publish inp w h evs irb iprb (c' :: commitRef) newVersion)
      as [E | [E _]]; rewrite E in Hp;
      repeat (apply in_app_or in Hp as [Hp | Hp]); try (now apply Hn);
      simpl in Hp; intuition discriminate. }
  destruct (JsString.truthy (custom_tag inp)).
  - injection H as <-. revert Hin. apply Hpub. simpl. intuition discriminate.
  - match type of H with
    | match ?e with _ => _ end = _ => destruct e as [r|] eqn:Hr; [|discriminate H]
    end.
    assert (Hr' : ~ In (SetFailed "Could not parse previous tag.") (events_of r)).
    { intros Hf.
      destruct (from_history_parse_failure _ _ _ _ _ _ _ _ _ _ Hr Hf)
        as [previousTag [Hwhich Hparse]].
      pose proof (getLatestTag_first validTags re (tag_prefix inp)) as Hl.
      assert (Hentry : forall i, In (nth i validTags no_tag) validTags ->
                 Semver.parse (strip re (name (nth i validTags no_tag))) <> None).
      { intros i Hi. destruct (is_valid_parse _ _ (Hvalid _ Hi)) as [_ [v ->]].
        discriminate. }
      destruct Hwhich as [-> | [i [Hpre ->]]].
      - destruct (getLatestTag validTags re (tag_prefix inp)) as [i | made].
        + simpl in Hparse. revert Hparse. apply Hentry.
          now apply (first_index_nth _ _ _ _ Hl).
        + destruct Hl as [_ ->]. simpl in Hparse.
          rewrite Hs, startsWith_app, skipn_length_app in Hparse. discriminate Hparse.
      - simpl in Hparse. revert Hparse. apply Hentry.
        now apply (first_index_nth _ _ _ _ Hpre). }
    destruct r as [h evs | h evs newVersion]; injection H as <-.
    + now apply Hr'.
    + revert Hin. now apply Hpub.
Qed.

Lemma previous_tag_always_parses_witness :
  ~ In (SetFailed "Could not parse previous tag.")
       [SetOutput "previous_version" "0.0.0";
        SetOutput "previous_tag" "v0.0.0";
        SetOutput "release_type" "patch";
        SetOutput "new_version" "0.0.1";
        SetOutput "new_tag" "v0.0.1";
        SetOutput "changelog" "notes";
        CreateTag "v0.0.1" false "9b1d3e7"].
Proof.
  apply (previous_tag_always_parses defaults (env "refs/heads/main")
           (world ["nightly"] None)
           (mkRun [SetOutput "previous_version" "0.0.0";
                   SetOutput "previous_tag" "v0.0.0";
                   SetOutput "release_type" "patch";
                   SetOutput "new_version" "0.0.1";
                   SetOutput "new_tag" "v0.0.1";
                   SetOutput "changelog" "notes";
                   CreateTag "v0.0.1" false "9b1d3e7"]
                  (Some []))).
  - reflexivity.
  - vm_compute. reflexivity.
Defined.

(* ================================================================== *)
(** ** Custom release rules *)
(* ================================================================== *)

Lemma split_free (c : ascii) (s : str) : free_of c s = true -> JsString.split c s = [s].
Proof.
  induction s as [|d s IH]; [reflexivity|]. simpl. intros H.
  apply andb_prop in H as [Hd H]. apply negb_true_iff in Hd.
  now rewrite Hd, (IH H).
Qed.

Lemma split_app (c : ascii) (a b : str) :
  free_of c a = true -> JsString.split c (a ++ c :: b) = a :: JsString.split c b.
Proof.
  induction a as [|d a IH]; intros H.
  - simpl. now rewrite Ascii.eqb_refl.
  - simpl in *. apply andb_prop in H as [Hd H]. apply negb_true_iff in Hd.
    now rewrite Hd, (IH H).
Qed.

Lemma split_join (c : ascii) (ws : list str) :
  ws <> [] -> forallb (free_of c) ws = true ->
  JsString.split c (JsString.join [c] ws) = ws.
Proof.
  induction ws as [|w ws IH]; [congruence|]. intros _ H. simpl in H.
  apply andb_prop in H as [Hw H]. destruct ws as [|w' ws].
  - simpl. now apply split_free.
  - rewrite join_cons by discriminate. cbn [app].
    rewrite (split_app c w _ Hw). f_equal. now apply IH.
Qed.

Lemma free_of_app (c : ascii) (a b : str) :
  free_of c (a ++ b) = free_of c a && free_of c b.
Proof. apply forallb_app. Qed.

Lemma writable_fields (rule : ReleaseRule) :
  writable rule = true ->
  forall c, c = ","%char \/ c = ":"%char ->
  free_of c (type rule) = true /\ free_of c (release rule) = true
  /\ forall s, section rule = Some s -> free_of c s = true.
Proof.
  unfold writable. intros H c Hc. simpl in H.
  apply andb_prop in H as [Ht H]. apply andb_prop in H as [Hr H].
  apply andb_prop in Ht as [Ht1 Ht2]. apply andb_prop in Hr as [Hr1 Hr2].
  destruct Hc as [-> | ->]; (split; [assumption|]); (split; [assumption|]);
    intros s Hs; rewrite Hs in H; simpl in H;
    apply andb_prop in H as [H _]; now apply andb_prop in H as [H1 H2].
Qed.

(** The parts of a written rule. *)
Lemma split_written (rule : ReleaseRule) :
  writable rule = true ->
  JsString.split ":" (written rule)
  = type rule :: release rule :: match section rule with Some s => [s] | None => [] end.
Proof.
  intros H. destruct (writable_fields rule H ":" (or_intror eq_refl)) as [Ht [Hr Hs]].
  unfold written. cbn [lit list_ascii_of_string app].
  rewrite (split_app ":" _ _ Ht). f_equal.
  destruct (section rule) as [s|].
  - rewrite (split_app ":" _ _ Hr). f_equal. now apply split_free, Hs.
  - rewrite app_nil_r. now apply split_free.
Qed.

Lemma written_free (rule : ReleaseRule) :
  writable rule = true -> free_of "," (written rule) = true.
Proof.
  intros H. destruct (writable_fields rule H "," (or_introl eq_refl)) as [Ht [Hr Hs]].
  unfold written. rewrite !free_of_app, Ht, Hr. simpl.
  destruct (section rule) as [s|]; [|reflexivity].
  simpl. now apply Hs.
Qed.

Lemma free_of_split (c d : ascii) (s : str) :
  free_of c s = true -> forallb (free_of c) (JsString.split d s) = true.
Proof.
  induction s as [|e s IH]; [reflexivity|]. simpl. intros H.
  apply andb_prop in H as [He H]. specialize (IH H).
  destruct (Ascii.eqb e d); [exact IH|].
  destruct (JsString.split d s) as [|w ws]; simpl in *; rewrite He; [reflexivity|].
  exact IH.
Qed.

Section Rules.

Variable DefaultRule : Type.
Variable section_of : DefaultRule -> option str.
Variable defaultChangelogRules : JsObject.object DefaultRule.
Variable DEFAULT_RELEASE_TYPES : list str.

(** X18. [mapCustomReleaseRules] reads back what is written: for rules
    whose fields hold neither comma nor colon, written as
    [type:release] or [type:release:section] and joined by commas, it
    returns the rules whose release is one of the release types, in order,
    each with its type and release, and with its section when it has a
    non-empty one and the default section of its type in lower case
    otherwise. *)
Theorem written_rules_are_read_back (rules : list ReleaseRule) :
  forallb writable rules = true ->
  mapCustomReleaseRules DefaultRule section_of defaultChangelogRules DEFAULT_RELEASE_TYPES
    (JsString.join "," (map written rules))
  = map (fun rule =>
           mkReleaseRule (type rule) (release rule)
             (if defined_truthy (section rule) then section rule
              else default_section DefaultRule section_of defaultChangelogRules (type rule)))
        (filter (fun rule => existsb (JsString.eqb (release rule)) DEFAULT_RELEASE_TYPES)
                rules).
Proof.
  intros H. unfold mapCustomReleaseRules.
  destruct rules as [|rule0 rules0]; [reflexivity|].
  set (rules := rule0 :: rules0) in *.
  change (lit ",") with [","%char].
  rewrite split_join.
  2:{ discriminate. }
  2:{ rewrite forallb_forall in *. intros text Ht.
      apply in_map_iff in Ht as [rule [<- Hr]]. now apply written_free, H. }
  clearbody rules. clear rule0 rules0.
  induction rules as [|rule rules IH]; [reflexivity|].
  simpl in H. apply andb_prop in H as [Hw H]. specialize (IH H).
  cbn [map filter]. rewrite (split_written rule Hw).
  replace (List.length (type rule :: release rule
                        :: match section rule with Some s => [s] | None => [] end) <? 2)
    with false by now destruct (section rule).
  cbn [nth].
  destruct (existsb (JsString.eqb (release rule)) DEFAULT_RELEASE_TYPES); cbn [negb].
  - cbn [map]. rewrite (split_written rule Hw), IH. cbn [nth]. f_equal.
    now destruct (section rule).
  - exact IH.
Qed.

(** X19. Whatever the input is, [mapCustomReleaseRules] returns no rule
    with a release outside the release types of the analyzer, and at most
    one rule for each item between commas; an input without a colon, the
    empty one included, gives no rule at all. *)
Theorem custom_rules_have_known_release (customReleaseTypes : str) :
  let rules := mapCustomReleaseRules DefaultRule section_of defaultChangelogRules
                 DEFAULT_RELEASE_TYPES customReleaseTypes in
  Forall (fun rule => In (release rule) DEFAULT_RELEASE_TYPES) rules
  /\ List.length rules <= List.length (JsString.split "," customReleaseTypes)
  /\ (free_of ":" customReleaseTypes = true -> rules = []).
Proof.
  cbv zeta. unfold mapCustomReleaseRules. split; [|split].
  - rewrite Forall_forall. intros rule Hin.
    apply in_map_iff in Hin as [item [<- Hin]]. apply filter_In in Hin as [_ Hin].
    simpl. destruct (List.length _ <? 2); [discriminate Hin|].
    destruct (existsb _ DEFAULT_RELEASE_TYPES) eqn:E; [|discriminate Hin].
    apply existsb_exists in E as [t [Ht E]]. apply eqb_eq in E. now rewrite E.
  - rewrite length_map. apply filter_length_le.
  - intros H. apply (free_of_split ":" ",") in H.
    induction (JsString.split "," customReleaseTypes) as [|item items IH]; [reflexivity|].
    simpl in H. apply andb_prop in H as [Hi H]. cbn [filter].
    rewrite (split_free ":" item Hi). simpl. now apply IH.
Qed.

End Rules.

Lemma written_rules_are_read_back_witness :
  mapCustomReleaseRules (option str) (fun s => s) sections release_types
    "hotfix:patch,Fix:patch,docs:none,feat:minor:New"
  = [rule "hotfix" "patch" None;
     rule "Fix" "patch" (Some "Bug Fixes");
     rule "feat" "minor" (Some "New")].
Proof.
  apply (written_rules_are_read_back (option str) (fun s => s) sections release_types
           [rule "hotfix" "patch" None; rule "Fix" "patch" None;
            rule "docs" "none" None; rule "feat" "minor" (Some "New")]).
  reflexivity.
Defined.

Lemma custom_rules_have_known_release_witness :
  mapCustomReleaseRules (option str) (fun s => s) sections release_types "hotfix,patch" = [].
Proof.
  apply (proj2 (proj2 (custom_rules_have_known_release
                         (option str) (fun s => s) sections release_types "hotfix,patch"))).
  reflexivity.
Defined.

(* ================================================================== *)
(** ** The merged changelog rules *)
(* ================================================================== *)

Section Objects.

Import JsObject.

Context {V : Type}.

Lemma get_existsb (k : str) (o : object V) :
  isSome (get k o) = existsb (JsString.eqb k) (map fst o).
Proof.
  induction o as [|[k' v'] o IH]; [reflexivity|]. simpl.
  rewrite (eqb_sym k k'). now destruct (JsString.eqb k' k).
Qed.

Lemma create_last (k : str) (v : V) (o : object V) :
  array_index k = None -> create k v o = o ++ [(k, v)].
Proof.
  intros Hk. induction o as [|[k' v'] o IH]; [reflexivity|]. simpl.
  unfold listed_before. rewrite Hk. now rewrite IH.
Qed.

Lemma keys_overwrite (k : str) (v : V) (o : object V) :
  map fst (overwrite k v o) = map fst o.
Proof.
  induction o as [|[k' v'] o IH]; [reflexivity|]. simpl.
  destruct (JsString.eqb k' k) eqn:E; simpl.
  - apply eqb_eq in E. now subst k'.
  - now rewrite IH.
Qed.

Lemma existsb_eqb_false (k : str) (l : list str) :
  existsb (JsString.eqb k) l = false <-> ~ In k l.
Proof.
  rewrite <- Bool.not_true_iff_false, existsb_exists. split.
  - intros H Hin. apply H. exists k. split; [exact Hin | now apply eqb_eq].
  - intros H [x [Hx E]]. apply eqb_eq in E. now subst x.
Qed.

(** The assignment to an own property, seen entry by entry. *)
Lemma map_overwrite {W} (f : str * V -> W) (k : str) (v : V) (o : object V) :
  NoDup (map fst o) ->
  map f (overwrite k v o)
  = map (fun e => f (fst e, if JsString.eqb k (fst e) then v else snd e)) o.
Proof.
  induction o as [|[k' v'] o IH]; intros Hn; [reflexivity|].
  inversion Hn as [|? ? Hk Hn']; subst. simpl.
  rewrite (eqb_sym k k'). destruct (JsString.eqb k' k) eqn:E; simpl.
  - apply eqb_eq in E. subst k'. f_equal. apply map_ext_in. intros [k'' v''] Hin.
    simpl. replace (JsString.eqb k k'') with false; [reflexivity|].
    symmetry. apply Bool.not_true_iff_false. intros E. apply eqb_eq in E. subst k''.
    apply Hk. now apply (in_map fst) in Hin.
  - f_equal. now apply IH.
Qed.

End Objects.

Section Merge.

Import JsObject.

Variable DefaultRule : Type.
Variable section_of : DefaultRule -> option str.
Variable defaultChangelogRules : object DefaultRule.

Lemma added_ext (seen seen' : list str) (rules : list ReleaseRule) :
  (forall k, In k seen <-> In k seen') ->
  @added DefaultRule seen rules = added seen' rules.
Proof.
  revert seen seen'. induction rules as [|rule rules IH]; intros seen seen' H;
    [reflexivity|].
  simpl.
  assert (E : existsb (JsString.eqb (type rule)) seen
              = existsb (JsString.eqb (type rule)) seen').
  { destruct (existsb _ seen') eqn:E'.
    - apply existsb_exists in E' as [x [Hx E']]. apply existsb_exists.
      exists x. split; [now apply H | exact E'].
    - apply existsb_eqb_false. apply existsb_eqb_false in E'. now rewrite H. }
  rewrite E. destruct (existsb _ seen'); [now apply IH|].
  f_equal. apply IH. intros k. simpl. now rewrite H.
Qed.

Lemma latest_other (rules : list ReleaseRule) (rule : ReleaseRule) (k : str)
    (v : DefaultRule + ReleaseRule) :
  JsString.eqb (type rule) k = false -> latest (rule :: rules) k v = latest rules k v.
Proof. unfold latest. simpl. now intros ->. Qed.

(** The table after the rules have been merged into [o]. *)
Lemma merged_table (rules : list ReleaseRule) :
  forallb (fun rule => negb (isSome (array_index (type rule)))) rules = true ->
  forall o : object (DefaultRule + ReleaseRule),
  NoDup (map fst o) ->
  fold_left (fun acc curr => set (type curr) (inr curr) acc) rules o
  = map (fun e => (fst e, latest rules (fst e) (snd e))) o ++ added (map fst o) rules.
Proof.
  induction rules as [|rule rules IH]; intros Hi o Hn.
  - simpl. rewrite app_nil_r. clear Hn.
    induction o as [|[k v] o IHo]; [reflexivity|]. simpl. now rewrite <- IHo.
  - simpl in Hi. apply andb_prop in Hi as [Hk Hi].
    cbn [fold_left added]. unfold set. rewrite get_existsb.
    destruct (existsb (JsString.eqb (type rule)) (map fst o)) eqn:E.
    + rewrite (IH Hi) by now rewrite keys_overwrite.
      rewrite keys_overwrite. f_equal.
      now rewrite (map_overwrite (fun e => (fst e, latest rules (fst e) (snd e)))).
    + assert (Hidx : array_index (type rule) = None)
        by now destruct (array_index (type rule)).
      rewrite (create_last _ _ _ Hidx).
      apply existsb_eqb_false in E.
      rewrite (IH Hi).
      2:{ rewrite map_app. simpl. apply NoDup_app; [exact Hn | repeat constructor; auto|].
          intros k Hin [<- | []]. exact (E Hin). }
      rewrite !map_app. cbn [map fst snd]. rewrite <- app_assoc. cbn [app].
      f_equal.
      * apply map_ext_in. intros [k v] Hin. simpl. f_equal.
        symmetry. apply latest_other.
        apply Bool.not_true_iff_false. intros E'. apply eqb_eq in E'. subst k.
        apply E. now apply (in_map fst) in Hin.
      * f_equal. apply added_ext. intros k. rewrite in_app_iff. simpl. tauto.
Qed.

(** X20. The changelog rules after the merge: the default rules keep
    their places, each one replaced on the spot by the last custom rule of
    its type when there is one; the custom rules of other types follow,
    one for each type, in the order in which the types first appear, each
    type with its last rule; and of all these the rules with a non-empty
    section are returned. This holds when the keys of the default table
    are distinct and no custom type is the text of an array index. Without
    custom rules, the default rules that have a section are returned. *)
Theorem merged_rules_keep_their_place (rules : list ReleaseRule) :
  NoDup (map fst defaultChangelogRules) ->
  forallb (fun rule => negb (isSome (array_index (type rule)))) rules = true ->
  mergeWithDefaultChangelogRules DefaultRule section_of defaultChangelogRules (Some rules)
  = filter (fun rule => defined_truthy (rule_section DefaultRule section_of rule))
           (map (fun entry => latest rules (fst entry) (inl (snd entry)))
                defaultChangelogRules
            ++ values (added (map fst defaultChangelogRules) rules))
  /\ mergeWithDefaultChangelogRules DefaultRule section_of defaultChangelogRules None
     = filter (fun rule => defined_truthy (rule_section DefaultRule section_of rule))
              (map (fun entry => inl (snd entry)) defaultChangelogRules).
Proof.
  intros Hn Hi. unfold mergeWithDefaultChangelogRules, mergedRules, values. split.
  - f_equal. rewrite (merged_table rules Hi) by now rewrite map_map.
    rewrite map_app, !map_map. simpl. reflexivity.
  - simpl. now rewrite map_map.
Qed.

End Merge.

Lemma merged_rules_keep_their_place_witness :
  mergeWithDefaultChangelogRules (option str) (fun s => s) sections
    (Some [rule "fix" "patch" (Some "Fixes");
           rule "hotfix" "patch" (Some "Hotfixes");
           rule "fix" "minor" (Some "Repairs");
           rule "chore" "patch" None])
  = [inl (Some (lit "Features"));
     inr (rule "fix" "minor" (Some "Repairs"));
     inr (rule "hotfix" "patch" (Some "Hotfixes"))]
  /\ mergeWithDefaultChangelogRules (option str) (fun s => s) sections None
     = [inl (Some (lit "Features")); inl (Some (lit "Bug Fixes"))].
Proof.
  apply (merged_rules_keep_their_place (option str) (fun s => s) sections
           [rule "fix" "patch" (Some "Fixes");
            rule "hotfix" "patch" (Some "Hotfixes");
            rule "fix" "minor" (Some "Repairs");
            rule "chore" "patch" None]).
  - repeat constructor; simpl; intuition discriminate.
  - reflexivity.
Defined.

(* ================================================================== *)
(** ** Runs that release nothing *)
(* ================================================================== *)

Lemma filter_no_creation (evs : list Event) :
  existsb is_creation evs = false -> filter (fun e => negb (is_creation e)) evs = evs.
Proof.
  induction evs as [|e evs IH]; [reflexivity|]. simpl. intros H.
  apply orb_false_elim in H as [He H]. now rewrite He, (IH H).
Qed.

Lemma publish_dry_run inp w h evs r p commitRef newVersion d :
  is_true d = true -> existsb is_creation evs = false ->
  publish (with_dry_run d inp) w h evs r p commitRef newVersion
  = withheld (publish inp w h evs r p commitRef newVersion).
Proof.
  intros Hd Hc. unfold withheld. rewrite catalog_publish.
  destruct (events_publish inp w h evs r p commitRef newVersion) as [E | [E [Hb [Hk _]]]];
    rewrite E.
  - rewrite filter_no_creation by (rewrite existsb_app, Hc; reflexivity).
    unfold publish in *. cbn [version_format tag_prefix dry_run with_dry_run] in *.
    rewrite Hd.
    destruct (negb r && negb p); [reflexivity|].
    destruct (existsb _ (map name (elements h))); [reflexivity|].
    destruct (is_true (dry_run inp)); [reflexivity|].
    simpl in E. apply (f_equal (@List.length Event)) in E.
    rewrite !length_app in E. simpl in E. lia.
  - rewrite filter_app. simpl.
    rewrite filter_no_creation by (rewrite existsb_app, Hc; reflexivity).
    rewrite app_nil_r.
    unfold publish. cbn [version_format tag_prefix dry_run with_dry_run].
    rewrite Hb, Hk, Hd. reflexivity.
Qed.

(** X21. [dry_run] withholds the tag and changes nothing else: with a
    value of [dry_run] that contains [true], in any case of the letters, a
    run sets the outputs, reports the failures and leaves the catalog as the
    run with any other value of [dry_run] does, and creates no tag. *)
Theorem dry_run_only_withholds_the_tag (inp : Inputs) (env : Env) (w : World) (d : str) :
  is_true d = true ->
  main (with_dry_run d inp) env w = option_map withheld (main inp env w).
Proof.
  intros Hd. unfold main.
  cbn [commit_sha release_branches pre_release_branches tag_prefix fetch_all_tags
       version_format custom_tag with_dry_run].
  destruct (GITHUB_REF env) as [[|c ref]|]; try reflexivity.
  destruct (if JsString.truthy (commit_sha inp) then Some (commit_sha inp)
            else GITHUB_SHA env) as [[|c' commitRef]|]; try reflexivity.
  change (isReleaseBranch (with_dry_run d inp) (c :: ref))
    with (isReleaseBranch inp (c :: ref)).
  change (isPreReleaseBranch (with_dry_run d inp) (c :: ref))
    with (isPreReleaseBranch inp (c :: ref)).
  change (Main.prefixRegex (with_dry_run d inp)) with (Main.prefixRegex inp).
  change (identifier (with_dry_run d inp) (c :: ref)) with (identifier inp (c :: ref)).
  destruct (isReleaseBranch inp (c :: ref)) as [irb|]; [|reflexivity].
  destruct (isPreReleaseBranch inp (c :: ref)) as [iprb|]; [|reflexivity].
  destruct (Main.prefixRegex inp) as [re|]; [|reflexivity].
  destruct (getValidTags _ re _ _) as [validTags|]; [|reflexivity].
  destruct (getLatestPrereleaseTag validTags _ re) as [latestPre|]; [|reflexivity].
  destruct (JsString.truthy (custom_tag inp)).
  - simpl option_map. f_equal. now apply publish_dry_run.
  - match goal with
    | |- context [from_history (with_dry_run d inp) ?w ?h ?re ?a ?b ?id ?l ?lp] =>
        change (from_history (with_dry_run d inp) w h re a b id l lp)
          with (from_history inp w h re a b id l lp);
        destruct (from_history inp w h re a b id l lp) as [r|] eqn:Hr; [|reflexivity]
    end.
    apply from_history_no_creation in Hr.
    destruct r as [h evs | h evs newVersion]; simpl option_map; f_equal.
    + unfold withheld. simpl in *. now rewrite filter_no_creation.
    + now apply publish_dry_run.
Qed.

Lemma dry_run_only_withholds_the_tag_witness :
  main (with_dry_run "TRUE" defaults) (env "refs/heads/main") (world ["v1.0.0"] None)
  = option_map withheld
      (main defaults (env "refs/heads/main") (world ["v1.0.0"] None)).
Proof.
  apply (dry_run_only_withholds_the_tag defaults (env "refs/heads/main")
           (world ["v1.0.0"] None) "TRUE").
  reflexivity.
Defined.

Lemma from_history_skip inp w h re irb ipr id latestTag latestPre r :
  from_history inp w h re irb ipr id latestTag latestPre = Some r ->
  let skip := falsy (analyzeCommits w) && JsString.eqb (default_of inp ipr) "false" in
  (skip = true -> exists h' evs, r = Returned h' evs
                                 /\ In (map kind evs) [[Failure]; history])
  /\ (map kind (events_of r) = history -> skip = true).
Proof.
  unfold from_history, default_of. intros H. cbv zeta.
  match type of H with
  | match ?e with _ => _ end = _ => destruct e as [previousTag|]; [|discriminate H]
  end.
  destruct (Semver.parse _) as [previousVersion|].
  2:{ injection H as <-. split; [|discriminate]. intros _. simpl. eauto 6. }
  cbv iota in H.
  assert (E : (if ipr
               then negb (falsy (analyzeCommits w)
                          && JsString.eqb (default_prerelease_bump inp) "false")
               else negb (falsy (analyzeCommits w)
                          && JsString.eqb (default_bump inp) "false"))
              = negb (falsy (analyzeCommits w)
                      && JsString.eqb (if ipr then default_prerelease_bump inp
                                       else default_bump inp) "false"))
    by now destruct ipr.
  rewrite E in H. clear E.
  destruct (falsy (analyzeCommits w) && JsString.eqb _ "false").
  { injection H as <-. split; [|reflexivity]. intros _. simpl. eauto 6. }
  simpl negb in H. cbv iota in H. split; [discriminate|].
  destruct (Semver.inc _ _ _) as [v|].
  2:{ injection H as <-. discriminate. }
  destruct (negb (JsString.truthy v)).
  { injection H as <-. discriminate. }
  destruct (negb (isSome (Semver.valid v))); injection H as <-; discriminate.
Qed.

(** X22. A run without a custom tag stops after [previous_version] and
    [previous_tag] exactly when there is nothing to release: the commits ask
    for no bump, and the default bump of the branch, [default_prerelease_bump]
    on a pre-release branch and [default_bump] elsewhere, is [false]. Such a
    run sets no other output and creates no tag, whatever the branch is. *)
Theorem run_stops_without_bump
    (inp : Inputs) (env : Env) (w : World) (run : Run) (ref : str) (isPre : bool) :
  main inp env w = Some run ->
  GITHUB_REF env = Some ref ->
  isPrerelease inp ref = Some isPre ->
  JsString.truthy (custom_tag inp) = false ->
  let skip := falsy (analyzeCommits w) && JsString.eqb (default_of inp isPre) "false" in
  (skip = true -> In (map kind (events run)) [[Failure]; history])
  /\ (map kind (events run) = history -> skip = true).
Proof.
  unfold main, isPrerelease. intros H E Hp Hc. rewrite E in H. cbv zeta.
  destruct ref as [|c ref]; [injection H as <-; simpl; split; [auto | discriminate]|].
  destruct (if JsString.truthy (commit_sha inp) then Some (commit_sha inp)
            else GITHUB_SHA env) as [[|c' commitRef]|];
    try (injection H as <-; simpl; split; [auto | discriminate]).
  destruct (isReleaseBranch inp (c :: ref)) as [irb|]; [|discriminate H].
  destruct (isPreReleaseBranch inp (c :: ref)) as [iprb|]; [|discriminate H].
  injection Hp as Hp. rewrite Hp in H.
  destruct (Main.prefixRegex inp) as [re|]; [|discriminate H].
  destruct (getValidTags _ re _ _) as [validTags|]; [|discriminate H].
  destruct (getLatestPrereleaseTag validTags _ re) as [latestPre|]; [|discriminate H].
  rewrite Hc in H.
  match type of H with
  | match ?e with _ => _ end = _ => destruct e as [r|] eqn:Hr; [|discriminate H]
  end.
  pose proof (from_history_shape _ _ _ _ _ _ _ _ _ _ Hr) as Hshape.
  destruct (from_history_skip _ _ _ _ _ _ _ _ _ _ Hr) as [H1 H2]. split.
  - intros Hs. destruct (H1 Hs) as [h' [evs [-> Hk]]]. now injection H as <-.
  - intros Hk. apply H2. destruct r as [h evs | h evs newVersion]; injection H as <-.
    + exact Hk.
    + exfalso.
      match type of Hk with
      | context [publish ?i ?w ?h ?e ?r ?p ?c ?v] =>
          destruct (kinds_publish i w h e r p c v) as [K | K]
      end; rewrite K, Hshape in Hk; discriminate Hk.
Qed.

Lemma run_stops_without_bump_witness :
  (falsy (analyzeCommits (world ["v1.0.0"] None))
   && JsString.eqb (default_of (with_default_bump "false" defaults) false) "false" = true ->
   In (map kind [SetOutput "previous_version" "1.0.0"; SetOutput "previous_tag" "v1.0.0"])
      [[Failure]; history])
  /\ (map kind [SetOutput "previous_version" "1.0.0"; SetOutput "previous_tag" "v1.0.0"]
      = history ->
      falsy (analyzeCommits (world ["v1.0.0"] None))
      && JsString.eqb (default_of (with_default_bump "false" defaults) false) "false" = true).
Proof.
  apply (run_stops_without_bump (with_default_bump "false" defaults)
           (env "refs/heads/main") (world ["v1.0.0"] None)
           (mkRun [SetOutput "previous_version" "1.0.0"; SetOutput "previous_tag" "v1.0.0"]
                  (Some [tag "v1.0.0"]))
           "refs/heads/main" false).
  - vm_compute. reflexivity.
  - reflexivity.
  - vm_compute. reflexivity.
  - reflexivity.
Defined.

(** X23. A custom tag that exists is not created again: under the format
    [MAJOR.MINOR.PATCH], with a tag prefix without pattern syntax, digits
    and line breaks, when the custom tag is a valid version and the
    repository has the tag that the prefix and the custom tag make, the run
    creates no tag. *)
Theorem existing_custom_tag_not_created_again
    (inp : Inputs) (env : Env) (w : World) (run : Run) (existing : Tag) :
  plain (tag_prefix inp) = true ->
  digitless (tag_prefix inp) = true ->
  no_line_terminator (tag_prefix inp) = true ->
  version_format inp = lit "MAJOR.MINOR.PATCH" ->
  Semver.valid (custom_tag inp) <> None ->
  In existing (listTags w (is_true (fetch_all_tags inp))) ->
  name existing = tag_prefix inp ++ custom_tag inp ->
  main inp env w = Some run ->
  existsb is_creation (events run) = false.
Proof.
  unfold main. intros Hp Hd Hl HF Hv Hin Hn H.
  destruct (GITHUB_REF env) as [[|c ref]|]; try (now injection H as <-).
  destruct (if JsString.truthy (commit_sha inp) then Some (commit_sha inp)
            else GITHUB_SHA env) as [[|c' commitRef]|]; try (now injection H as <-).
  destruct (isReleaseBranch inp (c :: ref)) as [irb|]; [|discriminate H].
  destruct (isPreReleaseBranch inp (c :: ref)) as [iprb|]; [|discriminate H].
  destruct (plain_prefix_literal_pattern (tag_prefix inp) Hp) as [re [Hre [Ht Hs]]].
  unfold Main.prefixRegex in H. rewrite Hre in H.
  destruct (getValidTags_sorted (listTags w) re (is_true (fetch_all_tags inp))
              (version_format inp)) as [validTags [Hc [_ [Hperm _]]]].
  rewrite Hc in H.
  destruct (getLatestPrereleaseTag validTags _ re) as [latestPre|]; [|discriminate H].
  assert (Htruthy : JsString.truthy (custom_tag inp) = true).
  { destruct (custom_tag inp); [now destruct Hv | reflexivity]. }
  rewrite Htruthy in H. injection H as <-.
  rewrite publish_skips_known_tag; [reflexivity|]. simpl elements.
  rewrite HF.
  rewrite <- (app_nil_l (custom_tag inp)) at 1.
  rewrite (valid_version_canonical [] _ eq_refl eq_refl Hv). simpl app.
  rewrite (valid_version_canonical _ _ Hd Hl Hv), <- Hn.
  apply in_map. apply (Permutation_in _ Hperm). apply filter_In. split.
  - unfold listed. rewrite HF. simpl JsString.truthy. cbv iota.
    apply in_map_iff. exists existing. split; [|exact Hin].
    rewrite Hn, (valid_version_canonical _ _ Hd Hl Hv), <- Hn. apply with_name_same.
  - unfold is_valid. rewrite Ht, Hn, Hs, startsWith_app, skipn_length_app.
    now destruct (Semver.valid (custom_tag inp)).
Qed.

Lemma existing_custom_tag_not_created_again_witness :
  existsb is_creation
    [SetOutput "release_type" "custom";
     SetOutput "new_version" "1.3.0";
     SetOutput "new_tag" "v1.3.0";
     SetOutput "changelog" "notes"] = false.
Proof.
  apply (existing_custom_tag_not_created_again
           (with_custom_tag "1.3.0" defaults) (env "refs/heads/main")
           (world ["v1.2.0"; "v1.3.0"] None)
           (mkRun [SetOutput "release_type" "custom";
                   SetOutput "new_version" "1.3.0";
                   SetOutput "new_tag" "v1.3.0";
                   SetOutput "changelog" "notes"]
                  (Some [tag "v1.3.0"; tag "v1.2.0"]))
           (tag "v1.3.0")); try reflexivity.
  - vm_compute. discriminate.
  - simpl. now right; left.
Defined.

(* ================================================================== *)
(** ** The version of a pre-release *)
(* ================================================================== *)

Section PreRelease.

Import Semver.

Lemma inc_pre_head (ids : list Identifier) (id : str) :
  JsString.truthy id = true ->
  exists x rest, inc_pre ids id = IdStr id :: x :: rest.
Proof.
  intros Hid. unfold inc_pre. rewrite Hid.
  match goal with
  | |- exists x rest, match ?l with _ => _ end = _ => destruct l as [|[n|s] tl]
  end; eauto.
  destruct (JsString.eqb s id) eqn:E; eauto.
  apply eqb_eq in E. subst s.
  destruct tl as [|x rest]; cbn [hd_error]; [simpl; eauto|].
  destruct (isNaN (Some x)); eauto.
Qed.

Lemma inc_version_pre (v v' : SemVer) (release id : str) :
  JsString.startsWith "pre" release = true ->
  inc_version v release id = Some v' ->
  exists ids, prerelease_of v' = inc_pre ids id.
Proof.
  intros Hpre. unfold inc_version.
  repeat match goal with
         | |- (if JsString.eqb release ?t then _ else _) = _ -> _ =>
             destruct (JsString.eqb release t) eqn:?E
         end;
    try (destruct (match prerelease_of v with [] => true | _ :: _ => false end));
    try (intros [= <-]; simpl; eauto; fail);
    try discriminate;
    match goal with
    | E : JsString.eqb release _ = true |- _ =>
        apply eqb_eq in E; subst release; discriminate Hpre
    end.
Qed.

Lemma version_with_prerelease (v : SemVer) (id : str) (x : Identifier)
    (rest : list Identifier) :
  prerelease_of v = IdStr id :: x :: rest ->
  version v
  = (digits_of (major v) ++ "."%char :: digits_of (minor v)
     ++ "."%char :: digits_of (patch v))
    ++ lit "-" ++ id ++ lit "."
    ++ JsString.join "." (map identifier_string (x :: rest)).
Proof.
  intros H. unfold version. rewrite H. cbn [map identifier_string].
  rewrite (join_cons "." id) by discriminate.
  cbn [lit list_ascii_of_string app]. repeat (rewrite <- app_assoc; cbn [app]).
  reflexivity.
Qed.

Lemma releaseType_pre (inp : Inputs) (v : SemVer) (bump : option str) :
  JsString.startsWith "pre" (default_prerelease_bump inp) = true ->
  exists release, releaseType inp true v bump = Some release
                  /\ JsString.startsWith "pre" release = true.
Proof.
  intros H. unfold releaseType. simpl negb. cbv iota.
  destruct (negb _ || _); [|eauto].
  destruct (_ <? _)%Z; eauto.
Qed.

Lemma from_history_inc inp w h re irb ipr id latestTag latestPre h' evs newVersion :
  from_history inp w h re irb ipr id latestTag latestPre
  = Some (NewVersion h' evs newVersion) ->
  exists previousVersion,
    inc previousVersion
        (releaseType inp ipr previousVersion (resolved_bump inp ipr (analyzeCommits w))) id
    = Some newVersion.
Proof.
  unfold from_history. intros H.
  match type of H with
  | match ?e with _ => _ end = _ => destruct e as [previousTag|]; [|discriminate H]
  end.
  destruct (parse _) as [previousVersion|]; [|discriminate H].
  cbv iota in H. exists previousVersion.
  match type of H with
  | (if negb ?c then _ else _) = _ => destruct c; [|discriminate H]
  end.
  simpl negb in H. cbv iota in H.
  destruct (inc _ _ _) as [v|]; [|discriminate H].
  destruct (negb (JsString.truthy v)); [discriminate H|].
  destruct (negb (isSome (valid v))); [discriminate H|].
  now injection H as _ _ <-.
Qed.

Lemma valid_no_line_terminator (s : str) :
  valid s <> None -> no_line_terminator s = true.
Proof.
  intros Hv. destruct (valid_full s Hv) as [v0 Hf].
  destruct (full_shape s v0 Hf) as [o [x [y [z [tail [-> [Ho [Nx [Ny [Nz Ht]]]]]]]]]].
  change (no_line_terminator (o ++ x ++ ["."%char] ++ y ++ ["."%char] ++ z ++ tail) = true).
  rewrite !no_line_terminator_app, (version_tail_no_line_terminator tail Ht).
  rewrite (number_no_line_terminator x), (number_no_line_terminator y),
          (number_no_line_terminator z) by (apply Nx || apply Ny || apply Nz).
  now destruct Ho as [-> | ->].
Qed.

End PreRelease.

Lemma publish_new_version inp w h evs r p commitRef newVersion v :
  ~ In (Output "new_version") (map kind evs) ->
  In (SetOutput "new_version" v)
     (events (publish inp w h evs r p commitRef newVersion)) ->
  v = convertVersionFormat newVersion (version_format inp).
Proof.
  intros Nv Hv.
  destruct (events_publish inp w h evs r p commitRef newVersion) as [E | [E _]];
    rewrite E in Hv; repeat (apply in_app_or in Hv as [Hv | Hv]);
    try (destruct (Nv (output_in_shape _ _ _ Hv)));
    simpl in Hv; intuition (try discriminate); congruence.
Qed.

Lemma join_numbers_and_dots (l : list str) :
  Forall (fun w => forallb JsString.is_digit w = true) l ->
  numbers_and_dots (JsString.join "." l) = true.
Proof.
  assert (Hd : forall w, forallb JsString.is_digit w = true ->
                         numbers_and_dots w = true).
  { intros w Hw. unfold numbers_and_dots. rewrite forallb_forall in *.
    intros c Hc. now rewrite (Hw c Hc). }
  induction l as [|w l IH]; intros H; [reflexivity|].
  inversion H as [|? ? Hw Hl]; subst. destruct l as [|w' l]; [now apply Hd|].
  rewrite join_cons by discriminate. unfold numbers_and_dots in *.
  rewrite !forallb_app. rewrite (Hd w Hw). now rewrite IH.
Qed.

Lemma version_item_digits (d1 d2 d3 key : str) :
  is_number d1 -> is_number d2 -> is_number d3 ->
  forallb JsString.is_digit (version_item d1 (Some d2) (Some d3) key) = true.
Proof.
  intros [_ H1] [_ H2] [_ H3]. unfold version_item.
  repeat match goal with |- context [if ?b then _ else _] => destruct b end; trivial.
Qed.

(** X24. The version of a pre-release names its branch: on a pre-release
    branch, with a default pre-release bump that starts with [pre] and an
    identifier that is not empty, the new version of a run, under each of
    the formats [MAJOR.MINOR.PATCH], [MAJOR.MINOR] and [MAJOR], is numbers
    and dots, then a hyphen, the identifier and a dot, then the rest of the
    pre-release part: the pre-release part, which the first hyphen opens,
    starts with the identifier. *)
Theorem prerelease_version_carries_identifier
    (inp : Inputs) (env : Env) (w : World) (run : Run) (ref v : str) :
  main inp env w = Some run ->
  GITHUB_REF env = Some ref ->
  isPrerelease inp ref = Some true ->
  JsString.truthy (custom_tag inp) = false ->
  JsString.startsWith "pre" (default_prerelease_bump inp) = true ->
  JsString.truthy (identifier inp ref) = true ->
  In (version_format inp) [lit "MAJOR.MINOR.PATCH"; lit "MAJOR.MINOR"; lit "MAJOR"] ->
  In (SetOutput "new_version" v) (events run) ->
  exists base rest,
    v = base ++ lit "-" ++ identifier inp ref ++ lit "." ++ rest
    /\ numbers_and_dots base = true.
Proof.
  unfold main, isPrerelease. intros H E Hp Hc Hd Hid Hformat Hv. rewrite E in H.
  destruct ref as [|c ref]; [injection H as <-; simpl in Hv; intuition discriminate|].
  destruct (if JsString.truthy (commit_sha inp) then Some (commit_sha inp)
            else GITHUB_SHA env) as [[|c' commitRef]|];
    try (injection H as <-; simpl in Hv; intuition discriminate).
  destruct (isReleaseBranch inp (c :: ref)) as [irb|]; [|discriminate H].
  destruct (isPreReleaseBranch inp (c :: ref)) as [iprb|]; [|discriminate H].
  injection Hp as Hp. rewrite Hp in H.
  destruct (Main.prefixRegex inp) as [re|]; [|discriminate H].
  destruct (getValidTags _ re _ _) as [validTags|]; [|discriminate H].
  destruct (getLatestPrereleaseTag validTags _ re) as [latestPre|]; [|discriminate H].
  rewrite Hc in H.
  match type of H with
  | match ?e with _ => _ end = _ => destruct e as [r|] eqn:Hr; [|discriminate H]
  end.
  pose proof (from_history_shape _ _ _ _ _ _ _ _ _ _ Hr) as Hshape.
  destruct r as [h evs | h evs newVersion]; injection H as <-.
  { exfalso. simpl events in Hv. apply output_in_shape in Hv.
    destruct Hshape as [K | [K | [K | []]]]; rewrite <- K in Hv; simpl in Hv;
      intuition discriminate. }
  apply publish_new_version in Hv.
  2:{ rewrite Hshape. simpl. intuition discriminate. }
  pose proof (from_history_valid _ _ _ _ _ _ _ _ _ _ _ _ Hr) as Hvalid.
  destruct (from_history_inc _ _ _ _ _ _ _ _ _ _ _ _ Hr) as [pv Hinc].
  destruct (releaseType_pre inp pv (resolved_bump inp true (analyzeCommits w)) Hd)
    as [release [Hrel Hpre]].
  rewrite Hrel in Hinc. unfold Semver.inc in Hinc.
  destruct (Semver.construct (Semver.version pv)) as [v'|]; [|discriminate Hinc].
  destruct (Semver.inc_version v' release (identifier inp (c :: ref))) as [v''|] eqn:Hv'';
    [|discriminate Hinc].
  injection Hinc as Hinc.
  destruct (inc_version_pre _ _ _ _ Hpre Hv'') as [ids Hids].
  destruct (inc_pre_head ids _ Hid) as [x [rest Hhead]]. rewrite Hhead in Hids.
  pose proof (version_with_prerelease v'' _ x rest Hids) as Hversion.
  rewrite Hinc in Hversion.
  assert (HF : JsString.truthy (version_format inp) = true)
    by (destruct Hformat as [<- | [<- | [<- | []]]]; reflexivity).
  rewrite (convertVersionFormat_anatomy _ _ HF (valid_no_line_terminator _ Hvalid)) in Hv.
  assert (Ha : anatomy newVersion
                 = Some ([], Semver.digits_of (Semver.major v''),
                         Some (Semver.digits_of (Semver.minor v'')),
                         Some (Semver.digits_of (Semver.patch v'')),
                         lit "-" ++ identifier inp (c :: ref) ++ lit "."
                         ++ JsString.join "." (map Semver.identifier_string (x :: rest)))).
  { rewrite Hversion. repeat (rewrite <- app_assoc; cbn [app]).
    apply (anatomy_canonical []); try apply digits_of_number; reflexivity. }
  rewrite Ha in Hv. eexists _, _. split; [exact Hv|].
  apply join_numbers_and_dots, Forall_forall. intros item Hitem.
  apply in_map_iff in Hitem as [key [<- _]].
  apply version_item_digits; apply digits_of_number.
Qed.

Lemma prerelease_version_carries_identifier_witness :
  exists base rest,
    lit "1.4.1-feature-login.0"
    = base ++ lit "-"
      ++ identifier (with_pre_release_branches "feature" defaults)
                    "refs/heads/feature/login"
      ++ lit "." ++ rest
    /\ numbers_and_dots base = true.
Proof.
  apply (prerelease_version_carries_identifier
           (with_pre_release_branches "feature" defaults)
           (env "refs/heads/feature/login") (world ["v1.4.0"] None)
           (mkRun [SetOutput "previous_version" "1.4.0";
                   SetOutput "previous_tag" "v1.4.0";
                   SetOutput "release_type" "prerelease";
                   SetOutput "new_version" "1.4.1-feature-login.0";
                   SetOutput "new_tag" "v1.4.1-feature-login.0";
                   SetOutput "changelog" "notes";
                   CreateTag "v1.4.1-feature-login.0" false "9b1d3e7"]
                  (Some [tag "v1.4.0"]))
           "refs/heads/feature/login" "1.4.1-feature-login.0"); try reflexivity.
  - left. reflexivity.
  - simpl. do 3 right. left. reflexivity.
Defined.

(* ================================================================== *)
(** ** The dot of the pre-release identifier *)
(* ================================================================== *)

Lemma quantified_none (r : regex) (p : str) :
  no_quantifier_ahead p = true -> quantified r p = (r, p).
Proof.
  destruct p as [|c p]; [reflexivity|]. simpl. intros H. apply negb_true_iff in H.
  destruct c as [[] [] [] [] [] [] [] []];
    try (vm_compute in H; discriminate H); reflexivity.
Qed.

Lemma plain_no_quantifier (p t : str) :
  plain p = true -> no_quantifier_ahead t = true -> no_quantifier_ahead (p ++ t) = true.
Proof.
  destruct p as [|c p]; [trivial|]. unfold plain. simpl. intros H _.
  apply andb_prop in H as [H _]. apply negb_true_iff in H.
  destruct c as [[] [] [] [] [] [] [] []];
    try (vm_compute in H; discriminate H); reflexivity.
Qed.

(** The characters in front of a closing parenthesis. *)
Lemma parse_alternative_group (q t : str) :
  forall fuel n, plain q = true -> List.length q < fuel ->
  parse_alternative fuel n (q ++ ")"%char :: t) = Some (literal q, n, ")"%char :: t).
Proof.
  induction q as [|c q IH]; intros fuel n Hp Hf.
  - destruct fuel; [inversion Hf|]. reflexivity.
  - destruct fuel as [|fuel]; [inversion Hf|].
    simpl in Hp. apply andb_prop in Hp as [Hc Hp].
    apply negb_true_iff in Hc.
    simpl app. cbn [parse_alternative]. rewrite (token_plain _ _ Hc).
    rewrite quantified_none by now apply plain_no_quantifier.
    rewrite (IH fuel n Hp) by (simpl in Hf; lia). reflexivity.
Qed.

Lemma parse_words_tail (m n : nat) :
  parse_alternative (S (S (S (S (S (S m)))))) n "(\w+)"
  = Some (Seq (Group n words_re) Eps, S n, []).
Proof. reflexivity. Qed.

Lemma parse_dot_words_tail (m n : nat) :
  parse_alternative (S (S (S (S (S (S (S m))))))) n "\.(\w+)"
  = Some (Seq (Chars (CsChar ".")) (Seq (Group n words_re) Eps), S n, []).
Proof. reflexivity. Qed.

Lemma parse_disjunction_step (fuel n : nat) (p : str) :
  parse_disjunction (S fuel) n p
  = match parse_alternative fuel n p with
    | Some (r1, n1, "|"%char :: p1) =>
        match parse_disjunction fuel n1 p1 with
        | Some (r2, n2, p2) => Some (Alt r1 r2, n2, p2)
        | None => None
        end
    | other => other
    end.
Proof. reflexivity. Qed.

(** The group that holds the hyphen and the identifier. *)
Lemma parse_alternative_marker (fuel n : nat) (id t : str) :
  parse_alternative (S fuel) n ("("%char :: marker id ++ t)
  = match parse_disjunction fuel (S n) (marker id ++ t) with
    | Some (r, n1, ")"%char :: p1) =>
        match parse_alternative fuel n1 (snd (quantified (Group n r) p1)) with
        | Some (r2, n2, p2) => Some (Seq (fst (quantified (Group n r) p1)) r2, n2, p2)
        | None => None
        end
    | _ => None
    end.
Proof.
  cbn [parse_alternative]. unfold marker. cbn [app token].
  destruct (parse_disjunction fuel (S n) ("-"%char :: id ++ t)) as [[[r n1] p]|];
    [|reflexivity].
  destruct p as [|c p1]; [reflexivity|].
  destruct c as [[] [] [] [] [] [] [] []]; try reflexivity.
  now destruct (quantified (Group n r) p1).
Qed.

Lemma compile_add (id : str) :
  plain id = true -> compile (lit "(-" ++ id ++ lit ")(\w+)") = Some (add_re id).
Proof.
  intros Hp. unfold compile.
  replace (2 * List.length (lit "(-" ++ id ++ lit ")(\w+)") + 2)
    with (S (S (S (S (S (S (S (S (S (S (2 * List.length id + 8)))))))))))
    by (rewrite !length_app; simpl; lia).
  change (lit "(-" ++ id ++ lit ")(\w+)")
    with ("("%char :: marker id ++ ")"%char :: lit "(\w+)").
  rewrite parse_disjunction_step, parse_alternative_marker, parse_disjunction_step.
  rewrite parse_alternative_group by (trivial; simpl; lia).
  cbv iota beta.
  rewrite quantified_none by reflexivity. cbn [fst snd].
  rewrite parse_words_tail. reflexivity.
Qed.

Lemma compile_remove (id : str) :
  plain id = true -> compile (lit "(-" ++ id ++ lit ")\.(\w+)") = Some (remove_re id).
Proof.
  intros Hp. unfold compile.
  replace (2 * List.length (lit "(-" ++ id ++ lit ")\.(\w+)") + 2)
    with (S (S (S (S (S (S (S (S (S (S (2 * List.length id + 12)))))))))))
    by (rewrite !length_app; simpl; lia).
  change (lit "(-" ++ id ++ lit ")\.(\w+)")
    with ("("%char :: marker id ++ ")"%char :: lit "\.(\w+)").
  rewrite parse_disjunction_step, parse_alternative_marker, parse_disjunction_step.
  rewrite parse_alternative_group by (trivial; simpl; lia).
  cbv iota beta.
  rewrite quantified_none by reflexivity. cbn [fst snd].
  rewrite parse_dot_words_tail. reflexivity.
Qed.

(** The word characters at the front of a string. *)
Lemma span_word_spec (s : str) :
  s = fst (span_word s) ++ snd (span_word s)
  /\ forallb (accepts (CsWord true)) (fst (span_word s)) = true
  /\ stops (CsWord true) (snd (span_word s)) = true.
Proof.
  induction s as [|c s [IH1 [IH2 IH3]]]; [now repeat split|].
  cbn [span_word]. destruct (is_word c) eqn:Hc.
  - destruct (span_word s) as [a b]. cbn [fst snd] in *. repeat split.
    + cbn [app]. now rewrite <- IH1.
    + cbn [forallb accepts]. now rewrite Hc, IH2.
    + exact IH3.
  - cbn [fst snd]. repeat split. cbn [stops accepts]. now rewrite Hc.
Qed.

Lemma span_word_cons (c : ascii) (t : str) :
  is_word c = true ->
  span_word (c :: t) = (c :: fst (span_word t), snd (span_word t)).
Proof. intros Hc. cbn [span_word]. rewrite Hc. now destruct (span_word t). Qed.

Lemma run_words_fails k st :
  stops (CsWord true) (rest st) = true -> run words_re k st = None.
Proof.
  intros H. unfold words_re, word. rewrite !run_seq. now apply run_chars_stops.
Qed.

Lemma run_words k st c t e :
  rest st = c :: t -> is_word c = true ->
  k (advance st (fst (span_word (c :: t))) (snd (span_word (c :: t)))) = Some e ->
  run words_re k st = Some e.
Proof.
  intros Hr Hc Hk. unfold words_re, word. rewrite !run_seq.
  rewrite (span_word_cons c t Hc) in Hk. cbn [fst snd] in Hk.
  destruct (span_word_spec t) as [Ht [Hw Hs]].
  rewrite (run_chars_accepts _ _ st c t); trivial; [|cbn [accepts]; now rewrite Hc].
  rewrite run_star. simpl groups_in. simpl rest.
  apply (star_greedy (CsWord true) _ (fst (span_word t)) (snd (span_word t))); trivial.
  - pose proof (f_equal (@List.length _) Ht) as Hl. rewrite length_app in Hl. lia.
  - rewrite run_eps. rewrite <- (advance_cons st c) in Hk. now rewrite <- Ht in Hk.
Qed.

Lemma groups_in_literal (p : str) : groups_in (literal p) = [].
Proof. induction p as [|c p IH]; simpl; trivial. Qed.

Lemma skipn_past {A} (a x : list A) (n : nat) :
  skipn (List.length a + n) (a ++ x) = skipn n x.
Proof. induction a; simpl; auto. Qed.

(** A word character is neither the dot nor the hyphen. *)
Lemma word_not_dot (c : ascii) : is_word c = true -> Ascii.eqb "." c = false.
Proof.
  destruct c as [[] [] [] [] [] [] [] []]; intros H;
    try reflexivity; vm_compute in H; discriminate H.
Qed.

Lemma word_not_hyphen (c : ascii) : is_word c = true -> Ascii.eqb c "-" = false.
Proof.
  destruct c as [[] [] [] [] [] [] [] []]; intros H;
    try reflexivity; vm_compute in H; discriminate H.
Qed.

(** A pattern starts inside a text only where its characters are. *)
Lemma startsWith_In (p : str) :
  forall (a : str) (c : ascii) (x : str),
  JsString.startsWith p (a ++ c :: x) = true -> List.length a < List.length p -> In c p.
Proof.
  induction p as [|d p IH]; intros a c x H Hl; [inversion Hl|].
  destruct a as [|e a]; simpl in H; apply andb_prop in H as [Hd H].
  - apply Ascii.eqb_eq in Hd. now left.
  - right. apply (IH a c x H). simpl in Hl. lia.
Qed.

Lemma search_here (r : regex) (i : nat) (s : str) (e : state) :
  run r Some (mkState i s []) = Some e ->
  search r i s = Some (mkMatched i (pos e) (caps e)).
Proof. intros H. destruct s; cbn [search]; now rewrite H. Qed.

Lemma search_next (r : regex) (i : nat) (c : ascii) (s : str) :
  run r Some (mkState i (c :: s) []) = None ->
  search r i (c :: s) = search r (S i) s.
Proof. intros H. cbn [search]. now rewrite H. Qed.

(** The search passes the places at which the pattern does not match. *)
Lemma search_passes (r : regex) (a b : str) :
  forall i,
  (forall a1 a2, a = a1 ++ a2 -> a2 <> [] ->
     run r Some (mkState (i + List.length a1) (a2 ++ b) []) = None) ->
  search r i (a ++ b) = search r (i + List.length a) b.
Proof.
  induction a as [|c a IH]; intros i H.
  - simpl. now rewrite Nat.add_0_r.
  - pose proof (H [] (c :: a) eq_refl ltac:(discriminate)) as H0.
    cbn [List.length app] in H0. rewrite Nat.add_0_r in H0.
    cbn [app]. rewrite (search_next _ _ _ _ H0). rewrite IH.
    + f_equal. simpl. lia.
    + intros a1 a2 -> Ha2. specialize (H (c :: a1) a2 eq_refl Ha2).
      cbn [List.length] in H. now rewrite Nat.add_succ_r in H.
Qed.

Section Marker.

Variable id : str.

Lemma run_marker k st x :
  rest st = marker id ++ x ->
  run (Group 1 (literal (marker id))) k st
  = k (mkState (pos st + List.length (marker id)) x ((1, marker id) :: caps st)).
Proof.
  intros Hr. rewrite run_group, run_literal, Hr, startsWith_app, skipn_length_app.
  change (mkState (pos st + List.length (marker id)) x (caps st))
    with (advance st (marker id) x).
  now rewrite set_capture_advance.
Qed.

Lemma run_marker_absent (tail : regex) k st :
  JsString.startsWith (marker id) (rest st) = false ->
  run (Seq (Group 1 (literal (marker id))) tail) k st = None.
Proof. intros H. now rewrite run_seq, run_group, run_literal, H. Qed.

Lemma run_group_words (n : nat) st c t :
  rest st = c :: t -> is_word c = true ->
  run (Seq (Group n words_re) Eps) Some st
  = Some (mkState (pos st + List.length (fst (span_word (c :: t))))
                  (snd (span_word (c :: t)))
                  ((n, fst (span_word (c :: t))) :: caps st)).
Proof.
  intros Hr Hc. rewrite run_seq, run_group. apply (run_words _ _ c t _ Hr Hc).
  rewrite run_eps, set_capture_advance; trivial.
  rewrite Hr. apply span_word_spec.
Qed.

Lemma run_add_re st c t :
  rest st = marker id ++ c :: t -> is_word c = true ->
  run (add_re id) Some st
  = Some (mkState (pos st + List.length (marker id)
                   + List.length (fst (span_word (c :: t))))
                  (snd (span_word (c :: t)))
                  ((2, fst (span_word (c :: t))) :: (1, marker id) :: caps st)).
Proof.
  intros Hr Hc. unfold add_re. rewrite run_seq, (run_marker _ _ _ Hr).
  now rewrite (run_group_words 2 _ c t).
Qed.

Lemma run_add_re_fails st x :
  rest st = marker id ++ x -> stops (CsWord true) x = true ->
  run (add_re id) Some st = None.
Proof.
  intros Hr Hx. unfold add_re. rewrite run_seq, (run_marker _ _ _ Hr).
  rewrite run_seq, run_group. now apply run_words_fails.
Qed.

Lemma run_remove_re st c t :
  rest st = marker id ++ "."%char :: c :: t -> is_word c = true ->
  run (remove_re id) Some st
  = Some (mkState (S (pos st + List.length (marker id))
                   + List.length (fst (span_word (c :: t))))
                  (snd (span_word (c :: t)))
                  ((2, fst (span_word (c :: t))) :: (1, marker id) :: caps st)).
Proof.
  intros Hr Hc. unfold remove_re. rewrite run_seq, (run_marker _ _ _ Hr).
  rewrite run_seq, run_chars. cbn [rest accepts]. rewrite Ascii.eqb_refl.
  now rewrite (run_group_words 2 _ c t).
Qed.

(** Both patterns start with the hyphen and the identifier: the search
    passes a text that has no hyphen. *)
Lemma search_free (tail : regex) (a b : str) (i : nat) :
  free_of "-" a = true ->
  search (Seq (Group 1 (literal (marker id))) tail) i (a ++ b)
  = search (Seq (Group 1 (literal (marker id))) tail) (i + List.length a) b.
Proof.
  intros Ha. apply search_passes. intros a1 a2 -> Ha2.
  apply run_marker_absent. cbn [rest].
  rewrite free_of_app in Ha. apply andb_prop in Ha as [_ Ha].
  destruct a2 as [|d a2]; [congruence|]. simpl in Ha. apply andb_prop in Ha as [Hd _].
  apply negb_true_iff in Hd. unfold marker. cbn [app JsString.startsWith].
  now rewrite Ascii.eqb_sym, Hd.
Qed.

Lemma search_free_none (tail : regex) (s : str) (i : nat) :
  free_of "-" s = true ->
  search (Seq (Group 1 (literal (marker id))) tail) i s = None.
Proof.
  intros Hs. rewrite <- (app_nil_r s), search_free by exact Hs.
  cbn [search]. now rewrite run_marker_absent.
Qed.

(** Nor does a match start inside the identifier, when a dot follows it. *)
Lemma search_inside (tail : regex) (x : str) (i : nat) :
  plain id = true ->
  search (Seq (Group 1 (literal (marker id))) tail) i (id ++ "."%char :: x)
  = search (Seq (Group 1 (literal (marker id))) tail) (i + List.length id)
           ("."%char :: x).
Proof.
  intros Hp. apply search_passes. intros a1 a2 Hid Ha2.
  apply run_marker_absent. cbn [rest].
  destruct (JsString.startsWith (marker id) (a2 ++ "."%char :: x)) eqn:Hs; [|reflexivity].
  apply startsWith_In in Hs.
  - destruct Hs as [Hs | Hs]; [discriminate Hs|].
    unfold plain in Hp. rewrite forallb_forall in Hp. specialize (Hp _ Hs).
    discriminate Hp.
  - unfold marker. cbn [List.length]. rewrite Hid, length_app. lia.
Qed.

End Marker.

Lemma exec_add_re (id a : str) (c : ascii) (t : str) :
  free_of "-" a = true -> is_word c = true ->
  exec (add_re id) (a ++ marker id ++ c :: t)
  = Some (mkMatched (List.length a)
            (List.length a + List.length (marker id)
             + List.length (fst (span_word (c :: t))))
            [(2, fst (span_word (c :: t))); (1, marker id)]).
Proof.
  intros Ha Hc. unfold exec, add_re. rewrite search_free by exact Ha.
  fold (add_re id).
  erewrite search_here
    by (apply (run_add_re id _ c t); [reflexivity | exact Hc]).
  reflexivity.
Qed.

Lemma exec_remove_re (id a : str) (c : ascii) (t : str) :
  free_of "-" a = true -> is_word c = true ->
  exec (remove_re id) (a ++ marker id ++ "."%char :: c :: t)
  = Some (mkMatched (List.length a)
            (S (List.length a + List.length (marker id))
             + List.length (fst (span_word (c :: t))))
            [(2, fst (span_word (c :: t))); (1, marker id)]).
Proof.
  intros Ha Hc. unfold exec, remove_re. rewrite search_free by exact Ha.
  fold (remove_re id).
  erewrite search_here
    by (apply (run_remove_re id _ c t); [reflexivity | exact Hc]).
  reflexivity.
Qed.

(** The pattern of the [add] mode finds nothing in a tag whose only hyphen
    is the one of an identifier that a dot follows. *)
Lemma exec_add_re_dotted (id a : str) (c : ascii) (t : str) :
  plain id = true -> free_of "-" a = true -> is_word c = true ->
  free_of "-" t = true ->
  exec (add_re id) (a ++ marker id ++ "."%char :: c :: t) = None.
Proof.
  intros Hp Ha Hc Ht. unfold exec, add_re. rewrite search_free by exact Ha.
  fold (add_re id).
  change (marker id ++ "."%char :: c :: t) with ("-"%char :: id ++ "."%char :: c :: t).
  rewrite search_next
    by (apply (run_add_re_fails id _ ("."%char :: c :: t)); reflexivity).
  unfold add_re. rewrite search_inside by exact Hp. apply search_free_none.
  cbn [free_of forallb]. now rewrite (word_not_hyphen c Hc).
Qed.

Lemma replace_add_re (id a : str) (c : ascii) (t : str) :
  free_of "-" a = true -> is_word c = true ->
  replace (add_re id) "$1.$2" (a ++ marker id ++ c :: t)
  = a ++ marker id ++ "."%char :: c :: t.
Proof.
  intros Ha Hc. unfold replace. rewrite exec_add_re by trivial.
  cbn [index lastIndex].
  replace (groups_in (add_re id)) with [1; 2]
    by (unfold add_re; cbn [groups_in]; now rewrite groups_in_literal).
  destruct (span_word_spec (c :: t)) as [Hs _]. revert Hs.
  generalize (fst (span_word (c :: t))) (snd (span_word (c :: t))).
  intros w r Hs. rewrite Hs. rewrite firstn_length_app.
  rewrite <- Nat.add_assoc, !skipn_past, skipn_length_app.
  f_equal. simpl. now rewrite app_nil_r, <- app_assoc.
Qed.

Lemma replace_remove_re (id a : str) (c : ascii) (t : str) :
  free_of "-" a = true -> is_word c = true ->
  replace (remove_re id) "$1$2" (a ++ marker id ++ "."%char :: c :: t)
  = a ++ marker id ++ c :: t.
Proof.
  intros Ha Hc. unfold replace. rewrite exec_remove_re by trivial.
  cbn [index lastIndex].
  replace (groups_in (remove_re id)) with [1; 2]
    by (unfold remove_re; cbn [groups_in]; now rewrite groups_in_literal).
  destruct (span_word_spec (c :: t)) as [Hs _]. revert Hs.
  generalize (fst (span_word (c :: t))) (snd (span_word (c :: t))).
  intros w r Hs. rewrite Hs. rewrite firstn_length_app.
  replace (S (List.length a + List.length (marker id)) + List.length w)
    with (List.length a + (List.length (marker id) + S (List.length w))) by lia.
  rewrite !skipn_past. cbn [skipn]. rewrite skipn_length_app.
  f_equal. simpl. now rewrite app_nil_r, <- app_assoc.
Qed.

(** X25. In the [remove] mode the dot between the identifier and the word
    after it is taken out: for an identifier without pattern syntax, a tag
    that has no hyphen before the one of the identifier, and a word
    character after the dot. *)
Theorem remove_mode_takes_the_dot_out (id a : str) (c : ascii) (t : str) :
  plain id = true -> free_of "-" a = true -> is_word c = true ->
  removeDotFromPreReleaseIdentifier (a ++ marker id ++ "."%char :: c :: t) id remove
  = Some (a ++ marker id ++ c :: t).
Proof.
  intros Hp Ha Hc. unfold removeDotFromPreReleaseIdentifier.
  rewrite (compile_remove id Hp). cbv beta iota.
  now rewrite replace_remove_re.
Qed.

Lemma remove_mode_takes_the_dot_out_witness :
  removeDotFromPreReleaseIdentifier "v1.2.0-beta.3" "beta" remove
  = Some (lit "v1.2.0-beta3").
Proof.
  apply (remove_mode_takes_the_dot_out "beta" "v1.2.0" "3" []); reflexivity.
Defined.

(** X26. In the [add] mode a dot is put between the identifier and the word
    that follows it directly: for an identifier without pattern syntax, a
    tag that has no hyphen before the one of the identifier, and a word
    character right after the identifier. *)
Theorem add_mode_puts_the_dot_in (id a : str) (c : ascii) (t : str) :
  plain id = true -> free_of "-" a = true -> is_word c = true ->
  removeDotFromPreReleaseIdentifier (a ++ marker id ++ c :: t) id add
  = Some (a ++ marker id ++ "."%char :: c :: t).
Proof.
  intros Hp Ha Hc. unfold removeDotFromPreReleaseIdentifier.
  rewrite (compile_add id Hp). cbv beta iota.
  rewrite exec_add_re by trivial.
  rewrite (span_word_cons c t Hc).
  cbn [group groups capture find fst snd Nat.eqb].
  change (JsString.startsWith "." (c :: fst (span_word t)))
    with (Ascii.eqb "." c && true).
  rewrite (word_not_dot c Hc). cbn [andb].
  now rewrite replace_add_re.
Qed.

Lemma add_mode_puts_the_dot_in_witness :
  removeDotFromPreReleaseIdentifier "v1.2.0-beta3" "beta" add
  = Some (lit "v1.2.0-beta.3").
Proof.
  apply (add_mode_puts_the_dot_in "beta" "v1.2.0" "3" []); reflexivity.
Defined.

(** X27. In the [add] mode a tag that already has the dot loses it: when
    the dot follows the identifier, the pattern of the mode finds nothing in
    a tag without another hyphen, and the tag goes on to the replacement of
    the [remove] mode. *)
Theorem add_mode_takes_an_existing_dot_out (id a : str) (c : ascii) (t : str) :
  plain id = true -> free_of "-" a = true -> is_word c = true ->
  free_of "-" t = true ->
  removeDotFromPreReleaseIdentifier (a ++ marker id ++ "."%char :: c :: t) id add
  = Some (a ++ marker id ++ c :: t).
Proof.
  intros Hp Ha Hc Ht. unfold removeDotFromPreReleaseIdentifier.
  rewrite (compile_add id Hp), (compile_remove id Hp). cbv beta iota.
  rewrite exec_add_re_dotted by trivial.
  now rewrite replace_remove_re.
Qed.

Lemma add_mode_takes_an_existing_dot_out_witness :
  removeDotFromPreReleaseIdentifier "v1.2.0-beta.3" "beta" add
  = Some (lit "v1.2.0-beta3").
Proof.
  apply (add_mode_takes_an_existing_dot_out "beta" "v1.2.0" "3" []); reflexivity.
Defined.

(** X28. A tag without a hyphen comes back as it is, in both modes, for an
    identifier without pattern syntax. *)
Theorem tag_without_hyphen_keeps_its_text (tag id : str) (mode : RemoveDot) :
  plain id = true -> free_of "-" tag = true ->
  removeDotFromPreReleaseIdentifier tag id mode = Some tag.
Proof.
  intros Hp Ht. unfold removeDotFromPreReleaseIdentifier.
  rewrite (compile_add id Hp), (compile_remove id Hp). cbv beta iota.
  assert (Hr : replace (remove_re id) "$1$2" tag = tag).
  { unfold replace, exec, remove_re. now rewrite search_free_none. }
  destruct mode; [now rewrite Hr|].
  unfold exec, add_re. rewrite search_free_none by exact Ht.
  fold (remove_re id). now rewrite Hr.
Qed.

Lemma tag_without_hyphen_keeps_its_text_witness :
  removeDotFromPreReleaseIdentifier "v1.2.0" "beta" add = Some (lit "v1.2.0").
Proof.
  apply (tag_without_hyphen_keeps_its_text "v1.2.0" "beta" add); reflexivity.
Defined.

(* ================================================================== *)
(** ** The catalog during a run *)
(* ================================================================== *)

Lemma from_history_choice inp w h re irb ipr id latestTag latestPre r :
  from_history inp w h re irb ipr id latestTag latestPre = Some r ->
  exists p,
    Main.previousTag h re irb latestTag latestPre = Some p
    /\ heap_of r = assign_name h p
                     (convertVersionFormat (name (deref h p)) (version_format inp))
    /\ match r with
       | Returned h' evs =>
           evs = [SetFailed "Could not parse previous tag."]
           \/ In (SetOutput "previous_tag" (name (deref h' p))) evs
       | NewVersion h' evs _ =>
           In (SetOutput "previous_tag" (name (deref h' p))) evs
       end.
Proof.
  unfold from_history. intros H.
  destruct (Main.previousTag h re irb latestTag latestPre) as [p|]; [|discriminate H].
  exists p. split; [reflexivity|]. cbn beta iota in H.
  split_cases; (split; [reflexivity|]); simpl; auto.
Qed.

Lemma update_nth (i : nat) (g : Tag -> str) (l : list Tag) :
  update i (fun t => with_name t (g (nth i l no_tag))) l
  = update i (fun t => with_name t (g t)) l.
Proof.
  revert i. induction l as [|x l IH]; intros [|i]; simpl; trivial.
  now rewrite IH.
Qed.

Lemma nth_update {A} (f : A -> A) (d : A) (l : list A) :
  forall i x, nth_error l i = Some x -> nth i (update i f l) d = f x.
Proof.
  induction l as [|y l IH]; intros [|i] x H; simpl in *; try discriminate.
  - now injection H as <-.
  - now apply IH.
Qed.

(** The list changes exactly when the entry does. *)
Lemma update_same {A} (f : A -> A) (l : list A) :
  forall i x, nth_error l i = Some x -> (update i f l = l <-> f x = x).
Proof.
  induction l as [|y l IH]; intros [|i] x H; simpl in *; try discriminate.
  - injection H as <-. split; intros E; [now injection E | now rewrite E].
  - rewrite <- (IH i x H). split; intros E; [now injection E | now rewrite E].
Qed.

Lemma rename_same (format : str) (t : Tag) :
  rename format t = t <-> convertVersionFormat (name t) format = name t.
Proof.
  destruct t as [n c]. unfold rename, with_name. simpl.
  split; intros E; [now injection E | now rewrite E].
Qed.

(** The previous tag, when it is an entry of the catalog, is one that the
    catalog has. *)
Lemma previous_of_entry (inp : Inputs) (ref : str) (re : regex) (validTags : list Tag)
    (i : nat) :
  previous_of inp ref re validTags = Some (Element i) ->
  exists t, nth_error validTags i = Some t.
Proof.
  unfold previous_of. intros H.
  destruct (isReleaseBranch inp ref) as [irb|]; [|discriminate H].
  rewrite getLatestPrereleaseTag_first in H
    by (apply clean_plain, sanitize_clean).
  cbn beta iota in H.
  match type of H with
  | context [first_index ?f validTags] =>
      pose proof (first_index_spec f validTags) as Hpre;
      destruct (first_index f validTags) as [j|]
  end;
    pose proof (getLatestTag_first validTags re (tag_prefix inp)) as Hlatest;
    destruct (getLatestTag validTags re (tag_prefix inp)) as [k|made];
    unfold Main.previousTag in H.
  all: try (pose proof (first_index_spec (is_release re) validTags) as Hk;
            rewrite Hlatest in Hk; destruct Hk as [[tk [Hk _]] _]).
  all: try destruct Hpre as [[tj [Hj _]] _].
  all: repeat match type of H with
              | (if ?b then _ else _) = _ => destruct b
              | match ?e with _ => _ end = _ => destruct e as [[|]|]
              end;
       try discriminate H; injection H as <-; eauto.
Qed.

(** C9 (amended). After [getValidTags] has returned, a run changes the
    catalog in one place: the entry taken as the previous tag gets its name
    rewritten to the configured version format, and the [previous_tag]
    output carries the new name. Its commit and every other entry stay as
    they were, so that the catalog is the same before and after only when
    the conversion leaves that name as it is. A run with [custom_tag], and
    one whose previous tag is the tag made up for a catalog without a
    release, leave the catalog as it is. *)
Theorem catalog_changes_at_previous_tag_only
    (inp : Inputs) (env : Env) (w : World) (run : Run) (tags : list Tag) :
  main inp env w = Some run ->
  catalog run = Some tags ->
  exists ref prefixRegex validTags,
    GITHUB_REF env = Some ref
    /\ Main.prefixRegex inp = Some prefixRegex
    /\ getValidTags (listTags w) prefixRegex (is_true (fetch_all_tags inp))
                    (version_format inp) = Some validTags
    /\ if JsString.truthy (custom_tag inp) then tags = validTags
       else
         match previous_of inp ref prefixRegex validTags with
         | Some (Element i) =>
             exists previousTag,
               nth_error validTags i = Some previousTag
               /\ tags = update i (rename (version_format inp)) validTags
               /\ (tags = validTags
                   <-> convertVersionFormat (name previousTag) (version_format inp)
                       = name previousTag)
               /\ (events run = [SetFailed "Could not parse previous tag."]
                   \/ In (SetOutput "previous_tag"
                            (convertVersionFormat (name previousTag) (version_format inp)))
                         (events run))
         | Some Fresh => tags = validTags
         | None => False
         end.
Proof.
  unfold main. intros H Hc.
  destruct (GITHUB_REF env) as [[|c ref]|];
    try (injection H as <-; discriminate Hc).
  destruct (if JsString.truthy (commit_sha inp) then Some (commit_sha inp)
            else GITHUB_SHA env) as [[|c' commitRef]|];
    try (injection H as <-; discriminate Hc).
  destruct (isReleaseBranch inp (c :: ref)) as [irb|] eqn:Hirb; [|discriminate H].
  destruct (isPreReleaseBranch inp (c :: ref)) as [iprb|]; [|discriminate H].
  destruct (Main.prefixRegex inp) as [re|]; [|discriminate H].
  destruct (getValidTags _ re _ _) as [validTags|] eqn:Hv; [|discriminate H].
  exists (c :: ref), re, validTags. do 2 (split; [reflexivity|]). split; [exact Hv|].
  destruct (getLatestPrereleaseTag validTags _ re) as [latestPre|] eqn:Hpre;
    [|discriminate H].
  destruct (JsString.truthy (custom_tag inp)).
  { injection H as <-. rewrite catalog_publish in Hc. now injection Hc as <-. }
  match type of H with
  | match ?e with _ => _ end = _ => destruct e as [r|] eqn:Hr; [|discriminate H]
  end.
  apply from_history_choice in Hr as [p [Hp [Hh Hev]]].
  assert (Ht : Some tags = Some (elements (heap_of r))).
  { destruct r; injection H as <-; simpl in *; [|rewrite catalog_publish in Hc];
      congruence. }
  injection Ht as ->.
  assert (Hevs : events run = [SetFailed "Could not parse previous tag."]
                 \/ In (SetOutput "previous_tag" (name (deref (heap_of r) p)))
                       (events run)).
  { destruct r as [h evs | h evs newVersion]; injection H as <-; [exact Hev|].
    right. simpl heap_of.
    destruct (events_publish inp w h evs irb iprb (c' :: commitRef) newVersion)
      as [-> | [-> _]]; repeat (apply in_or_app; left); exact Hev. }
  assert (Hprev : previous_of inp (c :: ref) re validTags = Some p).
  { unfold previous_of. rewrite Hirb, Hpre. exact Hp. }
  rewrite Hprev. rewrite Hh in Hevs |- *. destruct p as [i|]; [|reflexivity].
  destruct (previous_of_entry _ _ _ _ _ Hprev) as [t Hn].
  exists t. split; [exact Hn|].
  assert (E : elements
                (assign_name
                   (mkHeap validTags
                      (match getLatestTag validTags re (tag_prefix inp) with
                       | inl _ => None | inr made => Some made end))
                   (Element i)
                   (convertVersionFormat
                      (name (deref (mkHeap validTags
                                      (match getLatestTag validTags re (tag_prefix inp) with
                                       | inl _ => None | inr made => Some made end))
                                   (Element i)))
                      (version_format inp)))
              = update i (rename (version_format inp)) validTags).
  { simpl.
    now rewrite (update_nth i (fun n => convertVersionFormat (name n) (version_format inp))). }
  rewrite E. split; [reflexivity|]. split.
  - rewrite (update_same _ _ _ _ Hn). apply rename_same.
  - unfold deref at 1 in Hevs. rewrite E in Hevs.
    rewrite (nth_update _ _ _ _ _ Hn) in Hevs. exact Hevs.
Qed.

Lemma catalog_changes_at_previous_tag_only_witness :
  let inp := with_version_format "MAJOR.MINOR" defaults in
  let run := mkRun [SetOutput "previous_version" "1.2.0";
                    SetOutput "previous_tag" "v1.2";
                    SetOutput "release_type" "minor";
                    SetOutput "new_version" "1.3";
                    SetOutput "new_tag" "v1.3";
                    SetOutput "changelog" "notes";
                    CreateTag "v1.3" false "9b1d3e7"]
                   (Some [tag "v1.2"; tag "v1.1.0"]) in
  exists ref prefixRegex validTags,
    GITHUB_REF (env "refs/heads/main") = Some ref
    /\ Main.prefixRegex inp = Some prefixRegex
    /\ getValidTags (listTags (world ["v1.2"; "v1.1"] (Some "minor"))) prefixRegex
                    (is_true (fetch_all_tags inp)) (version_format inp) = Some validTags
    /\ if JsString.truthy (custom_tag inp) then [tag "v1.2"; tag "v1.1.0"] = validTags
       else
         match previous_of inp ref prefixRegex validTags with
         | Some (Element i) =>
             exists previousTag,
               nth_error validTags i = Some previousTag
               /\ [tag "v1.2"; tag "v1.1.0"]
                  = update i (rename (version_format inp)) validTags
               /\ ([tag "v1.2"; tag "v1.1.0"] = validTags
                   <-> convertVersionFormat (name previousTag) (version_format inp)
                       = name previousTag)
               /\ (events run = [SetFailed "Could not parse previous tag."]
                   \/ In (SetOutput "previous_tag"
                            (convertVersionFormat (name previousTag) (version_format inp)))
                         (events run))
         | Some Fresh => [tag "v1.2"; tag "v1.1.0"] = validTags
         | None => False
         end.
Proof.
  intros inp run.
  apply (catalog_changes_at_previous_tag_only
           inp (env "refs/heads/main") (world ["v1.2"; "v1.1"] (Some "minor")) run).
  - vm_compute. reflexivity.
  - reflexivity.
Defined.

(** C9 (counterexample). With [version_format = MAJOR.MINOR] and the tags
    [v1.2] and [v1.1], the catalog is returned as [v1.2.0], [v1.1.0]; at the
    end of the run its first entry, the previous tag, is named [v1.2]. *)
Lemma previous_tag_renamed_in_catalog :
  exists before after,
    getValidTags (listTags (world ["v1.2"; "v1.1"] (Some "minor"))) (regex_literal "^v")
                 false "MAJOR.MINOR" = Some before
    /\ option_map catalog
         (main (with_version_format "MAJOR.MINOR" defaults) (env "refs/heads/main")
               (world ["v1.2"; "v1.1"] (Some "minor"))) = Some (Some after)
    /\ map name before = [lit "v1.2.0"; lit "v1.1.0"]
    /\ map name after = [lit "v1.2"; lit "v1.1.0"].
Proof.
  exists [tag "v1.2.0"; tag "v1.1.0"], [tag "v1.2"; tag "v1.1.0"].
  vm_compute. repeat split.
Qed.

(* ================================================================== *)
(** ** Patterns and the texts they stand for *)
(* ================================================================== *)

(** A continuation that succeeds wherever another one does. *)
Lemma star_loop_mono (g : bool) (gs : list nat)
    (body : (state -> option state) -> state -> option state)
    (k1 k2 : state -> option state) :
  (forall j1 j2, (forall st, j1 st <> None -> j2 st <> None) ->
                 forall st, body j1 st <> None -> body j2 st <> None) ->
  (forall st, k1 st <> None -> k2 st <> None) ->
  forall fuel st,
  star_loop g body gs k1 fuel st <> None -> star_loop g body gs k2 fuel st <> None.
Proof.
  intros Hbody Hk. induction fuel as [|fuel IH]; intros st; [apply Hk|].
  cbn [star_loop].
  set (j1 := fun st' => if pos st <? pos st' then star_loop g body gs k1 fuel st' else None).
  set (j2 := fun st' => if pos st <? pos st' then star_loop g body gs k2 fuel st' else None).
  assert (Hj : forall st', j1 st' <> None -> j2 st' <> None).
  { intros st'. unfold j1, j2. destruct (pos st <? pos st'); [apply IH | trivial]. }
  pose proof (Hbody j1 j2 Hj (clear gs st)) as Hb.
  pose proof (Hk st) as Hs.
  destruct g.
  - destruct (body j1 (clear gs st)).
    + intros _. destruct (body j2 (clear gs st)); [discriminate|].
      exfalso. apply Hb; [discriminate | reflexivity].
    + intros H. destruct (body j2 (clear gs st)); [discriminate | now apply Hs].
  - destruct (k1 st).
    + intros _. destruct (k2 st); [discriminate|].
      exfalso. apply Hs; [discriminate | reflexivity].
    + intros H. destruct (k2 st); [discriminate | now apply Hb].
Qed.

Lemma run_mono (r : regex) :
  forall k1 k2, (forall st, k1 st <> None -> k2 st <> None) ->
  forall st, run r k1 st <> None -> run r k2 st <> None.
Proof.
  induction r as [| cs | | | r1 IH1 r2 IH2 | r1 IH1 r2 IH2 | g r IH | g r IH | n r IH];
    intros k1 k2 Hk st; cbn [run].
  - apply Hk.
  - destruct (rest st) as [|c t]; [trivial|]. destruct (accepts cs c); [apply Hk | trivial].
  - destruct (pos st =? 0); [apply Hk | trivial].
  - destruct (rest st); [apply Hk | trivial].
  - apply IH1. intros st'. now apply IH2.
  - pose proof (IH1 k1 k2 Hk st) as H1. pose proof (IH2 k1 k2 Hk st) as H2.
    destruct (run r1 k1 st).
    + intros _. destruct (run r1 k2 st); [discriminate|].
      exfalso. apply H1; [discriminate | reflexivity].
    + intros H. destruct (run r1 k2 st); [discriminate | now apply H2].
  - now apply star_loop_mono.
  - now apply star_loop_mono.
  - apply IH. intros st'. apply Hk.
Qed.

(** More rounds do not lose a match. *)
Lemma star_loop_more (g : bool) (r : regex) (k : state -> option state) :
  forall fuel st,
  star_loop g (run r) (groups_in r) k fuel st <> None ->
  star_loop g (run r) (groups_in r) k (S fuel) st <> None.
Proof.
  induction fuel as [|fuel IH]; intros st H.
  - cbn [star_loop] in *. destruct g.
    + destruct (run r _ _); [discriminate | exact H].
    + destruct (k st); [discriminate | contradiction].
  - remember (S fuel) as fuel' eqn:E. cbn [star_loop]. subst fuel'.
    cbn [star_loop] in H.
    set (j1 := fun st' => if pos st <? pos st'
                          then star_loop g (run r) (groups_in r) k fuel st' else None) in *.
    set (j2 := fun st' => if pos st <? pos st'
                          then star_loop g (run r) (groups_in r) k (S fuel) st' else None).
    assert (Hj : forall st', j1 st' <> None -> j2 st' <> None).
    { intros st'. unfold j1, j2. destruct (pos st <? pos st'); [apply IH | trivial]. }
    pose proof (run_mono r j1 j2 Hj (clear (groups_in r) st)) as Hb.
    destruct g.
    + destruct (run r j1 (clear (groups_in r) st)).
      * destruct (run r j2 (clear (groups_in r) st)); [discriminate|].
        exfalso. apply Hb; [discriminate | reflexivity].
      * destruct (run r j2 (clear (groups_in r) st)); [discriminate | exact H].
    + destruct (k st); [discriminate|]. now apply Hb.
Qed.

Lemma star_loop_fuel (g : bool) (r : regex) (k : state -> option state)
    (fuel fuel' : nat) (st : state) :
  fuel <= fuel' ->
  star_loop g (run r) (groups_in r) k fuel st <> None ->
  star_loop g (run r) (groups_in r) k fuel' st <> None.
Proof.
  induction 1 as [|fuel' _ IH]; [trivial|]. intros H. now apply star_loop_more, IH.
Qed.

Lemma star_loop_skip (g : bool) (gs : list nat)
    (body : (state -> option state) -> state -> option state)
    (k : state -> option state) (fuel : nat) (st : state) :
  k st <> None -> star_loop g body gs k fuel st <> None.
Proof.
  intros H. destruct fuel as [|fuel]; [exact H|]. cbn [star_loop]. destruct g.
  - destruct (body _ _); [discriminate | exact H].
  - destruct (k st); [discriminate | contradiction].
Qed.

Lemma star_loop_enter (g : bool) (gs : list nat)
    (body : (state -> option state) -> state -> option state)
    (k : state -> option state) (fuel : nat) (st : state) :
  body (fun st' => if pos st <? pos st' then star_loop g body gs k fuel st' else None)
       (clear gs st) <> None ->
  star_loop g body gs k (S fuel) st <> None.
Proof.
  intros H. cbn [star_loop]. destruct g.
  - destruct (body _ _); [discriminate | contradiction].
  - destruct (k st); [discriminate | exact H].
Qed.

(** The matcher finds a text that the pattern stands for, whenever the
    continuation accepts what comes after it. *)
Lemma run_complete (r : regex) (i : nat) (m a : str) :
  denotes r i m a ->
  forall k cp, (forall c, k (mkState (i + List.length m) a c) <> None) ->
  run r k (mkState i (m ++ a) cp) <> None.
Proof.
  induction 1 as [i a | cs c i a Hc | a | i
                  | r1 r2 i m1 m2 a _ IH1 _ IH2
                  | r1 r2 i m a _ IH | r1 r2 i m a _ IH
                  | g r i a | g r i m1 m2 a _ IH1 _ IH2
                  | g r i a | g r i m a _ IH
                  | n r i m a _ IH];
    intros k cp Hk.
  - specialize (Hk cp). cbn [List.length] in Hk. rewrite Nat.add_0_r in Hk. exact Hk.
  - cbn [run rest app pos caps]. rewrite Hc. specialize (Hk cp).
    cbn [List.length] in Hk. now rewrite Nat.add_1_r in Hk.
  - exact (Hk cp).
  - specialize (Hk cp). cbn [List.length] in Hk. rewrite Nat.add_0_r in Hk. exact Hk.
  - cbn [run]. rewrite <- app_assoc. apply IH1. intros c. apply IH2. intros c'.
    specialize (Hk c'). now rewrite length_app, Nat.add_assoc in Hk.
  - cbn [run]. specialize (IH k cp Hk). now destruct (run r1 k _).
  - cbn [run]. specialize (IH k cp Hk). now destruct (run r1 k _).
  - cbn [run]. apply star_loop_skip. specialize (Hk cp).
    cbn [List.length] in Hk. now rewrite Nat.add_0_r in Hk.
  - destruct m1 as [|c1 m1].
    + cbn [List.length app] in *. rewrite Nat.add_0_r in IH2. now apply IH2.
    + cbn [run rest]. apply star_loop_enter. unfold clear. cbn [pos rest caps].
      rewrite <- app_assoc. apply IH1. intros c. cbn [pos].
      replace (i <? i + List.length (c1 :: m1)) with true
        by (symmetry; apply Nat.ltb_lt; simpl; lia).
      apply (star_loop_fuel g r k (S (List.length (m2 ++ a)))).
      * rewrite !length_app. simpl. lia.
      * apply (IH2 k c). intros c'. specialize (Hk c').
        now rewrite length_app, Nat.add_assoc in Hk.
  - cbn [run]. apply star_loop_skip. specialize (Hk cp).
    cbn [List.length] in Hk. now rewrite Nat.add_0_r in Hk.
  - destruct m as [|c1 m].
    + cbn [run]. apply star_loop_skip. specialize (Hk cp).
      cbn [List.length] in Hk. now rewrite Nat.add_0_r in Hk.
    + cbn [run]. apply star_loop_enter. unfold clear. cbn [pos rest caps].
      apply IH. intros c. cbn [pos star_loop].
      replace (i <? i + List.length (c1 :: m)) with true
        by (symmetry; apply Nat.ltb_lt; simpl; lia).
      apply Hk.
  - cbn [run]. apply IH. intros c. unfold set_capture. cbn [pos rest caps]. apply Hk.
Qed.

Lemma star_loop_denotes (g : bool) (r : regex) (k : state -> option state) :
  (forall j st e, run r j st = Some e ->
     exists m a c, rest st = m ++ a /\ denotes r (pos st) m a
                   /\ j (mkState (pos st + List.length m) a c) = Some e) ->
  forall fuel st e,
  star_loop g (run r) (groups_in r) k fuel st = Some e ->
  exists m a c, rest st = m ++ a /\ denotes (Star g r) (pos st) m a
                /\ k (mkState (pos st + List.length m) a c) = Some e.
Proof.
  intros Hbody.
  assert (Hskip : forall st e, k st = Some e ->
            exists m a c, rest st = m ++ a /\ denotes (Star g r) (pos st) m a
                          /\ k (mkState (pos st + List.length m) a c) = Some e).
  { intros st e H. exists [], (rest st), (caps st). split; [reflexivity|].
    split; [constructor|]. cbn [List.length]. rewrite Nat.add_0_r. now destruct st. }
  induction fuel as [|fuel IH]; intros st e H; [now apply Hskip|].
  cbn [star_loop] in H.
  match type of H with
  | context [run r ?j ?s] =>
      assert (Hc : run r j s = Some e \/ k st = Some e)
        by (destruct g;
            [destruct (run r _ _); [now left | now right]
            |destruct (k st); [now right | now left]])
  end.
  destruct Hc as [Hc | Hc]; [clear H; rename Hc into H | now apply Hskip].
  apply Hbody in H as [m1 [a1 [c1 [Hr [Hd Hj]]]]].
  unfold clear in Hr, Hd, Hj. cbn [pos rest] in Hr, Hd, Hj.
  destruct (pos st <? pos st + List.length m1); [|discriminate Hj].
  apply IH in Hj as [m2 [a2 [c2 [Hr2 [Hd2 Hk2]]]]]. cbn [pos rest] in Hr2, Hd2, Hk2.
  subst a1. exists (m1 ++ m2), a2, c2. split; [now rewrite <- app_assoc|].
  split; [now constructor|]. now rewrite length_app, Nat.add_assoc.
Qed.

(** What the matcher finds is a text that the pattern stands for. *)
Lemma run_denotes (r : regex) :
  forall k st e, run r k st = Some e ->
  exists m a c, rest st = m ++ a /\ denotes r (pos st) m a
                /\ k (mkState (pos st + List.length m) a c) = Some e.
Proof.
  assert (Hhere : forall (k : state -> option state) st e, k st = Some e ->
            k (mkState (pos st + 0) (rest st) (caps st)) = Some e).
  { intros k st e H. rewrite Nat.add_0_r. now destruct st. }
  induction r as [| cs | | | r1 IH1 r2 IH2 | r1 IH1 r2 IH2 | g r IH | g r IH | n r IH];
    intros k st e H; cbn [run] in H.
  - exists [], (rest st), (caps st). repeat split; [constructor | now apply Hhere].
  - destruct (rest st) as [|c t] eqn:Hr; [discriminate H|].
    destruct (accepts cs c) eqn:Hc; [|discriminate H].
    exists [c], t, (caps st). repeat split; [now constructor|].
    cbn [List.length]. now rewrite Nat.add_1_r.
  - destruct (pos st =? 0) eqn:Hp; [|discriminate H]. apply Nat.eqb_eq in Hp.
    exists [], (rest st), (caps st). repeat split; [rewrite Hp; constructor | now apply Hhere].
  - destruct (rest st) eqn:Hr; [|discriminate H].
    exists [], [], (caps st). split; [reflexivity|]. split; [constructor|].
    cbn [List.length]. rewrite Nat.add_0_r. destruct st. simpl in Hr. now subst.
  - apply IH1 in H as [m1 [a1 [c1 [Hr [Hd H]]]]].
    apply IH2 in H as [m2 [a2 [c2 [Hr2 [Hd2 H]]]]]. cbn [pos rest] in Hr2, Hd2, H.
    subst a1. exists (m1 ++ m2), a2, c2. split; [now rewrite <- app_assoc|].
    split; [now constructor|]. now rewrite length_app, Nat.add_assoc.
  - destruct (run r1 k st) eqn:H1.
    + injection H as ->. apply IH1 in H1 as [m [a [c [Hr [Hd H]]]]].
      exists m, a, c. repeat split; trivial. now apply denotes_left.
    + apply IH2 in H as [m [a [c [Hr [Hd H]]]]].
      exists m, a, c. repeat split; trivial. now apply denotes_right.
  - now apply (star_loop_denotes g r k IH) in H.
  - cbn [star_loop] in H.
    assert (Hskip : k st = Some e ->
              exists m a c, rest st = m ++ a /\ denotes (Opt g r) (pos st) m a
                            /\ k (mkState (pos st + List.length m) a c) = Some e).
    { intros Hk. exists [], (rest st), (caps st).
      repeat split; [constructor | now apply Hhere]. }
    match type of H with
    | context [run r ?j ?s] =>
        assert (Hc : run r j s = Some e \/ k st = Some e)
          by (destruct g;
              [destruct (run r _ _); [now left | now right]
              |destruct (k st); [now right | now left]])
    end.
    destruct Hc as [Hc | Hc]; [clear H; rename Hc into H | now apply Hskip].
    apply IH in H as [m [a [c [Hr [Hd Hj]]]]].
    unfold clear in Hr, Hd, Hj. cbn [pos rest] in Hr, Hd, Hj.
    destruct (pos st <? pos st + List.length m); [|discriminate Hj].
    exists m, a, c. repeat split; trivial. now apply denotes_present.
  - apply IH in H as [m [a [c [Hr [Hd H]]]]].
    unfold set_capture in H. cbn [pos rest caps] in H.
    eexists m, a, _. repeat split; [exact Hr | now constructor | exact H].
Qed.

Lemma search_complete (r : regex) (a m b : str) :
  forall i, denotes r (i + List.length a) m b -> search r i (a ++ m ++ b) <> None.
Proof.
  induction a as [|c a IH]; intros i H.
  - cbn [List.length app] in *. rewrite Nat.add_0_r in H.
    pose proof (run_complete r i m b H Some [] ltac:(discriminate)) as Hr.
    destruct (run r Some (mkState i (m ++ b) [])) eqn:E; [|contradiction].
    rewrite (search_here _ _ _ _ E). discriminate.
  - cbn [app]. destruct (run r Some (mkState i (c :: a ++ m ++ b) [])) eqn:E.
    + rewrite (search_here _ _ _ _ E). discriminate.
    + rewrite (search_next _ _ _ _ E). apply IH.
      cbn [List.length] in H. now rewrite Nat.add_succ_r in H.
Qed.

Lemma search_denotes (r : regex) (s : str) :
  forall i found, search r i s = Some found ->
  exists a m b, s = a ++ m ++ b /\ denotes r (i + List.length a) m b.
Proof.
  assert (Hhere : forall i t e, run r Some (mkState i t []) = Some e ->
            exists a m b, t = a ++ m ++ b /\ denotes r (i + List.length a) m b).
  { intros i t e E. apply run_denotes in E as [m [a [c [Hr [Hd _]]]]].
    cbn [pos rest] in Hr, Hd. exists [], m, a. split; [exact Hr|].
    cbn [List.length]. now rewrite Nat.add_0_r. }
  induction s as [|c s IH]; intros i found H; cbn [search] in H.
  - destruct (run r Some (mkState i [] [])) eqn:E; [|discriminate H].
    now apply Hhere in E.
  - destruct (run r Some (mkState i (c :: s) [])) eqn:E; [now apply Hhere in E|].
    apply IH in H as [a [m [b [-> Hd]]]]. exists (c :: a), m, b.
    split; [reflexivity|]. cbn [List.length]. now rewrite Nat.add_succ_r.
Qed.

(** [exec] answers with a match exactly when the pattern stands for some
    part of the text. *)
Lemma exec_within (r : regex) (s : str) :
  isSome (exec r s) = true <-> matches_within r s.
Proof.
  unfold exec, matches_within. split.
  - destruct (search r 0 s) as [found|] eqn:E; [intros _ | discriminate].
    now apply search_denotes in E.
  - intros [a [m [b [-> Hd]]]].
    pose proof (search_complete r a m b 0 Hd) as H.
    now destruct (search r 0 (a ++ m ++ b)).
Qed.

Lemma matches_some_within (patterns branch : str) :
  (forall e, In e (JsString.split "," patterns) -> compile e <> None) ->
  exists b, matches_some patterns branch = Some b
            /\ (b = true <-> exists e r, In e (JsString.split "," patterns)
                                         /\ compile e = Some r
                                         /\ matches_within r branch).
Proof.
  intros Hc. unfold matches_some.
  exists (existsb (fun e => match compile e with
                            | Some r => isSome (exec r branch)
                            | None => false
                            end) (JsString.split "," patterns)).
  split.
  - apply someM_total. intros e He. unfold match_string.
    specialize (Hc e He). destruct (compile e) as [r|]; [|contradiction].
    now exists (isSome (exec r branch)).
  - rewrite existsb_exists. split.
    + intros [e [He H]]. destruct (compile e) as [r|] eqn:E; [|discriminate H].
      exists e, r. repeat split; trivial. now apply exec_within.
    + intros [e [r [He [E H]]]]. exists e. split; [exact He|]. rewrite E.
      now apply exec_within.
Qed.

(** C3 (amended). An entry of [release_branches] or [pre_release_branches]
    is searched for in the branch name, not matched against the whole of it:
    a list matches exactly when one of its entries, read as a pattern,
    stands for some part of the branch name. For an entry without pattern
    syntax that is to say that the branch name contains the entry. *)
Theorem branch_patterns_match_anywhere (inp : Inputs) (ref : str) :
  (forall e, In e (JsString.split "," (release_branches inp)) -> compile e <> None) ->
  (forall e, In e (JsString.split "," (pre_release_branches inp)) -> compile e <> None) ->
  (exists b, isReleaseBranch inp ref = Some b /\
     (b = true <-> exists e r, In e (JsString.split "," (release_branches inp))
                               /\ compile e = Some r
                               /\ matches_within r (currentBranch ref)))
  /\
  (exists b, isPreReleaseBranch inp ref = Some b /\
     (b = true <-> exists e r, In e (JsString.split "," (pre_release_branches inp))
                               /\ compile e = Some r
                               /\ matches_within r (currentBranch ref)))
  /\
  (forall e, plain e = true ->
     exists r, compile e = Some r
               /\ forall branch, matches_within r branch <-> contains e branch).
Proof.
  intros Hr Hp. split; [|split].
  - now apply matches_some_within.
  - now apply matches_some_within.
  - intros e He. exists (literal e). split; [now apply compile_plain|].
    intros branch. rewrite <- exec_within, <- includes_spec. unfold exec.
    now rewrite search_literal.
Qed.

Lemma branch_patterns_match_anywhere_witness :
  let inp := with_release_branches "release/[0-9]+,main"
               (with_pre_release_branches "next" defaults) in
  let ref := lit "refs/heads/pre-release/12-hotfix" in
  (exists b, isReleaseBranch inp ref = Some b /\
     (b = true <-> exists e r, In e (JsString.split "," (release_branches inp))
                               /\ compile e = Some r
                               /\ matches_within r (currentBranch ref)))
  /\
  (exists b, isPreReleaseBranch inp ref = Some b /\
     (b = true <-> exists e r, In e (JsString.split "," (pre_release_branches inp))
                               /\ compile e = Some r
                               /\ matches_within r (currentBranch ref)))
  /\
  (forall e, plain e = true ->
     exists r, compile e = Some r
               /\ forall branch, matches_within r branch <-> contains e branch).
Proof.
  intros inp ref. apply (branch_patterns_match_anywhere inp ref).
  - intros e He. vm_compute in He. destruct He as [<- | [<- | []]]; vm_compute; discriminate.
  - intros e He. vm_compute in He. destruct He as [<- | []]; vm_compute; discriminate.
Defined.

(** C3 (counterexample). With the default release branches [master,main],
    the branch [maintenance] is a release branch; with the release branches
    [release.*], the branch [prerelease-1] is one; and with the pre-release
    branch [next], the branch [next-gen] is a pre-release branch, although
    no entry matches any of these names as a whole. *)
Lemma branch_containing_pattern_is_matched :
  isReleaseBranch defaults "refs/heads/maintenance" = Some true
  /\ matches_some_whole (release_branches defaults)
       (currentBranch "refs/heads/maintenance") = Some false
  /\ isReleaseBranch (with_release_branches "release.*" defaults)
       "refs/heads/prerelease-1" = Some true
  /\ matches_some_whole "release.*" (currentBranch "refs/heads/prerelease-1")
     = Some false
  /\ isPrerelease (with_pre_release_branches "next" defaults)
       "refs/heads/next-gen" = Some true
  /\ matches_some_whole "next" (currentBranch "refs/heads/next-gen") = Some false.
Proof. vm_compute. repeat split. Qed.
